(** * OgreShaderFunction: the RTShader [Function] parameter registry and
      atom container

    A shallow embedding of
    [Components/RTShaderSystem/src/OgreShaderFunction.cpp].

    - C++ enumerations are inductive types;
    - [int] is [Z], with the two's complement wrap of [index++] written out;
    - a [ParameterPtr] (shared pointer) is [option Param]; an object
      carries the address it was allocated at, and pointer comparison
      compares addresses;
    - [ShaderParameterList] (a vector of non-null shared pointers) is a list;
    - [std::map<size_t, FunctionAtomInstanceList>] is an association list
      kept in strictly ascending key order, which is the order its iterators
      walk it in;
    - member functions are computations in a state and exception monad over
      the [Function] object and the allocator;
    - what the file uses and does not define (the parameter factory, the
      values of an enumeration, whether assertions are compiled) is a class
      of givens, [Externals]. *)

From stdpp Require Import base decidable option list sets strings pretty numbers sorting.
From Stdlib Require Import ZArith Lia.

Open Scope string_scope.
Open Scope list_scope.
Open Scope Z_scope.

(** ** Enumerations *)

(** [Parameter::Semantic]. *)
Inductive Semantic : Type :=
| SPS_UNKNOWN
| SPS_POSITION
| SPS_BLEND_WEIGHTS
| SPS_BLEND_INDICES
| SPS_NORMAL
| SPS_COLOR
| SPS_TEXTURE_COORDINATES
| SPS_BINORMAL
| SPS_TANGENT.

(** [Parameter::Content].  The enumerators this file names are constructors
    of their own; [SPC_OTHER n] stands for the remaining enumerators of the
    header. *)
Inductive Content : Type :=
| SPC_UNKNOWN
| SPC_COLOR_DIFFUSE
| SPC_COLOR_SPECULAR
| SPC_POSITION_PROJECTIVE_SPACE
| SPC_POSITION_WORLD_SPACE
| SPC_POSITION_OBJECT_SPACE
| SPC_NORMAL_TANGENT_SPACE
| SPC_NORMAL_OBJECT_SPACE
| SPC_NORMAL_WORLD_SPACE
| SPC_POINTSPRITE_SIZE
| SPC_OTHER (n : nat).

(** [GpuConstantType]; [GCT_OTHER n] stands for the enumerators this file
    does not name. *)
Inductive GpuConstantType : Type :=
| GCT_UNKNOWN
| GCT_FLOAT1
| GCT_FLOAT2
| GCT_FLOAT3
| GCT_FLOAT4
| GCT_OTHER (n : nat).

(** [Function::FunctionType], an opaque tag here. *)
Inductive FunctionType : Type :=
| FunctionTypeTag (n : nat).

#[global] Instance Semantic_eq_dec : EqDecision Semantic.
Proof. solve_decision. Defined.
#[global] Instance Content_eq_dec : EqDecision Content.
Proof. solve_decision. Defined.
#[global] Instance GpuConstantType_eq_dec : EqDecision GpuConstantType.
Proof. solve_decision. Defined.
#[global] Instance FunctionType_eq_dec : EqDecision FunctionType.
Proof. solve_decision. Defined.

(** ** Parameters *)

(** The constructor arguments of [Parameter(type, name, semantic, index,
    content)]. *)
Record ParameterArgs : Type := mkArgs {
  argType : GpuConstantType;
  argName : string;
  argSemantic : Semantic;
  argIndex : Z;
  argContent : Content
}.

(** A [Parameter] object: where it lives, and its members.  ([Parameter] is
    a reserved word here, hence [Param].) *)
Record Param : Type := mkParameter {
  paramAddr : nat;
  getType : GpuConstantType;
  getName : string;
  getSemantic : Semantic;
  getIndex : Z;
  getContent : Content
}.

(** [ParameterPtr]: [None] is the empty shared pointer. *)
Abbreviation ParameterPtr := (option Param) (only parsing).

(** [ShaderParameterList]. *)
Abbreviation ShaderParameterList := (list Param) (only parsing).

#[global] Instance Param_eq_dec : EqDecision Param.
Proof. solve_decision. Defined.

(** [a == b] on shared pointers compares the stored addresses. *)
Definition ptr_eqb (a b : ParameterPtr) : bool :=
  match a, b with
  | None, None => true
  | Some p, Some q => bool_decide (paramAddr p = paramAddr q)
  | _, _ => false
  end.

(** ** Atoms *)

(** Modelled from the spec: [Operand], whose class is declared outside this
    file; "each operand references a Parameter plus usage metadata such as
    read/write". *)
Inductive OpSemantic : Type := OPS_IN | OPS_OUT | OPS_INOUT.

Record Operand : Type := mkOperand {
  opParameter : ParameterPtr;
  opSemantic : OpSemantic
}.

(** Modelled from the spec: [FunctionAtom] and its three subclasses, declared
    outside this file; "a group-execution-order integer and an ordered list
    of operands", with the variants call (with a name), assignment and
    texture sample.  The group order is an [int], as [addAtomAssign] takes
    it. *)
Inductive AtomKind : Type :=
| FunctionInvocation (name : string)
| AssignmentAtom
| SampleTextureAtom.

Record FunctionAtom : Type := mkAtom {
  atomAddr : nat;
  atomKind : AtomKind;
  getGroupExecutionOrder : Z;
  getOperandList : list Operand
}.

(** [FunctionAtomInstanceList], a vector of [FunctionAtom*]. *)
Abbreviation FunctionAtomInstanceList := (list FunctionAtom) (only parsing).

(** [*it == atomInstance] on raw pointers. *)
Definition atom_ptr_eqb (a b : FunctionAtom) : bool :=
  bool_decide (atomAddr a = atomAddr b).

(** ** Machine integers *)

(** The value of an [int] after [index++]: two's complement, 32 bits. *)
Definition wrap_int (z : Z) : Z := (z + 2 ^ 31) `mod` 2 ^ 32 - 2 ^ 31.

Definition INT_MAX : Z := 2 ^ 31 - 1.

(** The conversion of an [int] to [size_t] (64 bits), as in
    [size_t g = atomInstance->getGroupExecutionOrder()]. *)
Definition to_size_t (z : Z) : Z := z `mod` 2 ^ 64.

(** The conversion of an integer of another type to [int] (32 bits, two's
    complement), as where the stage of a [FunctionStageRef] is passed for
    the group order of an atom. *)
Definition to_int (z : Z) : Z := (z + 2 ^ 31) `mod` 2 ^ 32 - 2 ^ 31.

(** ** Exceptions *)

Inductive ExceptionCode : Type :=
| ERR_INVALIDPARAMS.

(** What [OGRE_EXCEPT(code, description, source)] throws; [excSource] is
    [None] where the macro is used with two arguments. *)
Record Exception : Type := mkException {
  excCode : ExceptionCode;
  excDescription : string;
  excSource : option string
}.

(** A function that returns or throws, and touches no state. *)
Inductive Except (A : Type) : Type :=
| Ok (a : A)
| Raise (e : Exception).
Arguments Ok {A} a.
Arguments Raise {A} e.

(** ** The Function object *)

(** [std::map<size_t, FunctionAtomInstanceList>]: keys strictly ascending. *)
Abbreviation AtomMap := (list (Z * list FunctionAtom)) (only parsing).

Record Function : Type := mkFunction {
  mName : string;
  mDescription : string;
  mFunctionType : FunctionType;
  mInputParameters : ShaderParameterList;
  mOutputParameters : ShaderParameterList;
  mLocalParameters : ShaderParameterList;
  mAtomInstances : AtomMap;
  mSortedAtomInstances : FunctionAtomInstanceList
}.

(** The object together with the allocator: [nextAddr] is the address the
    next [new] returns; addresses are never handed out twice. *)
Record Machine : Type := mkMachine {
  nextAddr : nat;
  self : Function
}.

(** ** The monad of member functions *)

(** A call returns, throws, or the process stops at a failed [assert].  The
    machine at a throw is what the caller's handler finds. *)
Inductive Outcome (A : Type) : Type :=
| Returned (a : A) (m : Machine)
| Thrown (e : Exception) (m : Machine)
| Aborted.
Arguments Returned {A} a m.
Arguments Thrown {A} e m.
Arguments Aborted {A}.

Definition M (A : Type) : Type := Machine -> Outcome A.

Definition ret {A} (a : A) : M A := fun m => Returned a m.

Definition bind {A B} (c : M A) (k : A -> M B) : M B :=
  fun m =>
    match c m with
    | Returned a m' => k a m'
    | Thrown e m' => Thrown e m'
    | Aborted => Aborted
    end.

Declare Scope fn_scope.
Delimit Scope fn_scope with fn.
Notation "x <- c ;; k" := (bind c (fun x => k))
  (at level 100, c at next level, right associativity) : fn_scope.
Notation "c ;;; k" := (bind c (fun _ => k))
  (at level 100, right associativity) : fn_scope.

(** [OGRE_EXCEPT]. *)
Definition OGRE_EXCEPT {A} (code : ExceptionCode) (desc : string)
    (src : option string) : M A :=
  fun m => Thrown (mkException code desc src) m.

Definition liftE {A} (r : Except A) : M A :=
  fun m => match r with Ok a => Returned a m | Raise e => Thrown e m end.

Definition this : M Function := fun m => Returned (self m) m.

Definition modify (f : Function -> Function) : M unit :=
  fun m => Returned tt (mkMachine (nextAddr m) (f (self m))).

(** [OGRE_NEW Parameter(...)], and [std::make_shared<Parameter>(...)] in the
    factory: a new object at the next address. *)
Definition new_Parameter (a : ParameterArgs) : M Param :=
  fun m =>
    Returned (mkParameter (nextAddr m) (argType a) (argName a)
                          (argSemantic a) (argIndex a) (argContent a))
             (mkMachine (S (nextAddr m)) (self m)).

(** Field updates. *)
Definition set_mInputParameters (l : ShaderParameterList) (f : Function) : Function :=
  mkFunction (mName f) (mDescription f) (mFunctionType f)
             l (mOutputParameters f) (mLocalParameters f)
             (mAtomInstances f) (mSortedAtomInstances f).

Definition set_mOutputParameters (l : ShaderParameterList) (f : Function) : Function :=
  mkFunction (mName f) (mDescription f) (mFunctionType f)
             (mInputParameters f) l (mLocalParameters f)
             (mAtomInstances f) (mSortedAtomInstances f).

Definition set_mLocalParameters (l : ShaderParameterList) (f : Function) : Function :=
  mkFunction (mName f) (mDescription f) (mFunctionType f)
             (mInputParameters f) (mOutputParameters f) l
             (mAtomInstances f) (mSortedAtomInstances f).

Definition set_mAtomInstances (a : AtomMap) (f : Function) : Function :=
  mkFunction (mName f) (mDescription f) (mFunctionType f)
             (mInputParameters f) (mOutputParameters f) (mLocalParameters f)
             a (mSortedAtomInstances f).

Definition set_mSortedAtomInstances (s : FunctionAtomInstanceList) (f : Function) : Function :=
  mkFunction (mName f) (mDescription f) (mFunctionType f)
             (mInputParameters f) (mOutputParameters f) (mLocalParameters f)
             (mAtomInstances f) s.

(** ** What the file takes from its headers and collaborators *)

(** Modelled from the spec: [StringConverter::toString], defined outside this
    file; the decimal rendering that makes [lLocalParam_<n>] out of a count,
    and the same for an [int]. *)
Definition toString_int (z : Z) : string := pretty z.
Definition toString_size_t (n : nat) : string := pretty n.

(** The rest is taken as given: whether [assert] is compiled out, the
    numeric values of the [Semantic] enumerators (they are printed in error
    messages), and the [ParameterFactory].  A factory function returns the
    arguments of the [Parameter] it makes, or [None] for an empty pointer;
    the object itself is allocated by [new_Parameter]. *)
Class Externals : Type := {
  NDEBUG : bool;
  semanticValue : Semantic -> Z;
  createInPosition : Z -> option ParameterArgs;
  createInWeights : Z -> option ParameterArgs;
  createInIndices : Z -> option ParameterArgs;
  createInNormal : Z -> option ParameterArgs;
  createInColor : Z -> option ParameterArgs;
  createInTexcoord : GpuConstantType -> Z -> Content -> option ParameterArgs;
  createInBiNormal : Z -> option ParameterArgs;
  createInTangent : Z -> option ParameterArgs;
  createOutPosition : Z -> option ParameterArgs;
  createOutNormal : Z -> option ParameterArgs;
  createOutColor : Z -> option ParameterArgs;
  createOutTexcoord : GpuConstantType -> Z -> Content -> option ParameterArgs;
  createOutBiNormal : Z -> option ParameterArgs;
  createOutTangent : Z -> option ParameterArgs
}.

(** ** Free and static helper functions *)

(** [typeFromContent]. *)
Definition typeFromContent (content : Content) : Except GpuConstantType :=
  match content with
  | SPC_COLOR_DIFFUSE
  | SPC_COLOR_SPECULAR
  | SPC_POSITION_PROJECTIVE_SPACE
  | SPC_POSITION_WORLD_SPACE
  | SPC_POSITION_OBJECT_SPACE => Ok GCT_FLOAT4
  | SPC_NORMAL_TANGENT_SPACE
  | SPC_NORMAL_OBJECT_SPACE
  | SPC_NORMAL_WORLD_SPACE => Ok GCT_FLOAT3
  | SPC_POINTSPRITE_SIZE => Ok GCT_FLOAT1
  | _ => Raise (mkException ERR_INVALIDPARAMS "cannot derive type from content" None)
  end.

(** [Function::getParameterByName]. *)
Fixpoint getParameterByName (parameterList : ShaderParameterList) (name : string)
    : ParameterPtr :=
  match parameterList with
  | [] => None
  | it :: rest =>
      if bool_decide (getName it = name) then Some it
      else getParameterByName rest name
  end.

(** [Function::getParameterBySemantic]. *)
Fixpoint getParameterBySemantic (parameterList : ShaderParameterList)
    (semantic : Semantic) (index : Z) : ParameterPtr :=
  match parameterList with
  | [] => None
  | it :: rest =>
      if bool_decide (getSemantic it = semantic) && bool_decide (getIndex it = index)
      then Some it
      else getParameterBySemantic rest semantic index
  end.

(** The loop of [Function::getParameterByContent]. *)
Fixpoint findByContent (parameterList : ShaderParameterList)
    (content : Content) (type : GpuConstantType) : ParameterPtr :=
  match parameterList with
  | [] => None
  | it :: rest =>
      if bool_decide (getContent it = content) && bool_decide (getType it = type)
      then Some it
      else findByContent rest content type
  end.

(** [Function::getParameterByContent]. *)
Definition getParameterByContent (parameterList : ShaderParameterList)
    (content : Content) (type : GpuConstantType) : Except ParameterPtr :=
  match (if bool_decide (type = GCT_UNKNOWN) then typeFromContent content else Ok type) with
  | Raise e => Raise e
  | Ok type =>
      (* Search only for known content. *)
      if bool_decide (content <> SPC_UNKNOWN)
      then Ok (findByContent parameterList content type)
      else Ok None
  end.

(** The loop that finds the next available index of the target semantic,
    from [index = 0]. *)
Fixpoint nextIndex (parameterList : ShaderParameterList) (semantic : Semantic)
    (index : Z) : Z :=
  match parameterList with
  | [] => index
  | it :: rest =>
      nextIndex rest semantic
        (if bool_decide (getSemantic it = semantic) then wrap_int (index + 1) else index)
  end.

(** [Function::deleteParameter], on the list it is given: the first element
    that is the same pointer is erased. *)
Fixpoint deleteParameter (parameterList : ShaderParameterList) (parameter : ParameterPtr)
    : ShaderParameterList :=
  match parameterList with
  | [] => []
  | it :: rest =>
      if ptr_eqb (Some it) parameter then rest
      else it :: deleteParameter rest parameter
  end.

Section Members.
Context `{env : Externals}.
Local Open Scope fn_scope.

(** [assert(cond)]. *)
Definition assert_ (cond : bool) : M unit :=
  fun m => if NDEBUG then Returned tt m
           else if cond then Returned tt m else Aborted.

(** A factory call: the object is made if the factory makes one. *)
Definition fromFactory (a : option ParameterArgs) : M ParameterPtr :=
  match a with
  | None => ret None
  | Some args => p <- new_Parameter args ;; ret (Some p)
  end.

(** [Function::Function]. *)
Definition Function_ctor (name desc : string) (functionType : FunctionType) : Function :=
  mkFunction name desc functionType [] [] [] [] [].

(** [Function::addParameter]; [which] selects the list that [parameterList]
    refers to. *)
Inductive WhichList : Type := InputList | OutputList | LocalList.

Definition push_back (which : WhichList) (parameter : Param) (f : Function) : Function :=
  match which with
  | InputList => set_mInputParameters (mInputParameters f ++ [parameter]) f
  | OutputList => set_mOutputParameters (mOutputParameters f ++ [parameter]) f
  | LocalList => set_mLocalParameters (mLocalParameters f ++ [parameter]) f
  end.

Definition addParameter (parameterList : WhichList) (parameter : Param) : M unit :=
  f <- this ;;
  (* Check that parameter with the same name doest exist in input parameters list. *)
  if bool_decide (getParameterByName (mInputParameters f) (getName parameter) <> None)
  then OGRE_EXCEPT ERR_INVALIDPARAMS
         ("Parameter <" +:+ getName parameter +:+ "> already declared in function <"
            +:+ mName f +:+ ">")
         (Some "Function::addParameter")
  else
  (* Check that parameter with the same name doest exist in output parameters list. *)
  if bool_decide (getParameterByName (mOutputParameters f) (getName parameter) <> None)
  then OGRE_EXCEPT ERR_INVALIDPARAMS
         ("Parameter <" +:+ getName parameter +:+ "> already declared in function <"
            +:+ mName f +:+ ">")
         (Some "Function::addParameter")
  else
  (* Add to given parameters list. *)
  modify (push_back parameterList parameter).

(** [Function::addInputParameter]. *)
Definition addInputParameter (parameter : Param) : M unit :=
  f <- this ;;
  if bool_decide (getParameterBySemantic (mInputParameters f)
                    (getSemantic parameter) (getIndex parameter) <> None)
  then OGRE_EXCEPT ERR_INVALIDPARAMS
         ("Parameter <" +:+ getName parameter +:+ "> has equal sematic parameter in function <"
            +:+ mName f +:+ ">")
         (Some "Function::addInputParameter")
  else addParameter InputList parameter.

(** [Function::addOutputParameter]. *)
Definition addOutputParameter (parameter : Param) : M unit :=
  f <- this ;;
  if bool_decide (getParameterBySemantic (mOutputParameters f)
                    (getSemantic parameter) (getIndex parameter) <> None)
  then OGRE_EXCEPT ERR_INVALIDPARAMS
         ("Parameter <" +:+ getName parameter +:+ "> has equal sematic parameter in function <"
            +:+ mName f +:+ ">")
         (Some "Function::addOutputParameter")
  else addParameter OutputList parameter.

(** [Function::deleteInputParameter], [deleteOutputParameter] (through
    [Function::deleteParameter]), [deleteAllInputParameters] and
    [deleteAllOutputParameters]. *)
Definition deleteInputParameter (parameter : ParameterPtr) : M unit :=
  modify (fun f => set_mInputParameters (deleteParameter (mInputParameters f) parameter) f).

Definition deleteOutputParameter (parameter : ParameterPtr) : M unit :=
  modify (fun f => set_mOutputParameters (deleteParameter (mOutputParameters f) parameter) f).

Definition deleteAllInputParameters : M unit :=
  modify (set_mInputParameters []).

Definition deleteAllOutputParameters : M unit :=
  modify (set_mOutputParameters []).

(** The [switch] of [resolveInputParameter]: [param] is the pointer the
    function holds when it gets there, and the result is what it holds
    after. *)
Definition createInputBySemantic (semantic : Semantic) (index : Z)
    (content : Content) (type : GpuConstantType) (param : ParameterPtr)
    : M ParameterPtr :=
  match semantic with
  | SPS_POSITION =>
      assert_ (bool_decide (type = GCT_FLOAT4)) ;;;
      fromFactory (createInPosition index)
  | SPS_BLEND_WEIGHTS =>
      assert_ (bool_decide (type = GCT_FLOAT4)) ;;;
      fromFactory (createInWeights index)
  | SPS_BLEND_INDICES =>
      assert_ (bool_decide (type = GCT_FLOAT4)) ;;;
      fromFactory (createInIndices index)
  | SPS_NORMAL =>
      assert_ (bool_decide (type = GCT_FLOAT3)) ;;;
      fromFactory (createInNormal index)
  | SPS_COLOR =>
      assert_ (bool_decide (type = GCT_FLOAT4)) ;;;
      fromFactory (createInColor index)
  | SPS_TEXTURE_COORDINATES =>
      fromFactory (createInTexcoord type index content)
  | SPS_BINORMAL =>
      assert_ (bool_decide (type = GCT_FLOAT3)) ;;;
      fromFactory (createInBiNormal index)
  | SPS_TANGENT =>
      assert_ (bool_decide (type = GCT_FLOAT3)) ;;;
      fromFactory (createInTangent index)
  | SPS_UNKNOWN => ret param
  end.

(** The message of the type mismatch in [resolveInputParameter] and
    [resolveOutputParameter]. *)
Definition typeMismatchMessage (semantic : Semantic) (index : Z) (f : Function) : string :=
  "Can not resolve parameter - semantic: " +:+ toString_int (semanticValue semantic)
    +:+ " - index: " +:+ toString_int index
    +:+ " due to type mismatch. Function <" +:+ mName f +:+ ">".

(** [resolveInputParameter] from "No parameter found -> create new one" on. *)
Definition createAndAddInput (semantic : Semantic) (index : Z)
    (content : Content) (type : GpuConstantType) (param : ParameterPtr)
    : M ParameterPtr :=
  param <- createInputBySemantic semantic index content type param ;;
  match param with
  | Some p => addInputParameter p ;;; ret param
  | None => ret param
  end.

(** [Function::resolveInputParameter]. *)
Definition resolveInputParameter (semantic : Semantic) (index : Z)
    (content : Content) (type : GpuConstantType) : M ParameterPtr :=
  f <- this ;;
  (* Check if desired parameter already defined. *)
  param <- liftE (getParameterByContent (mInputParameters f) content type) ;;
  match param with
  | Some _ => ret param
  | None =>
      (* Case we have to create new parameter. *)
      if bool_decide (index = -1) then
        (* Find the next available index of the target semantic. *)
        createAndAddInput semantic (nextIndex (mInputParameters f) semantic 0)
                          content type param
      else
        (* Check if desired parameter already defined. *)
        let param := getParameterBySemantic (mInputParameters f) semantic index in
        match param with
        | Some p =>
            if bool_decide (getContent p = content) then
              if bool_decide (getType p = type) then ret param
              else OGRE_EXCEPT ERR_INVALIDPARAMS (typeMismatchMessage semantic index f)
                               (Some "Function::resolveInputParameter")
            else createAndAddInput semantic index content type param
        | None => createAndAddInput semantic index content type param
        end
  end.

(** The [switch] of [resolveOutputParameter]. *)
Definition createOutputBySemantic (semantic : Semantic) (index : Z)
    (content : Content) (type : GpuConstantType) (param : ParameterPtr)
    : M ParameterPtr :=
  match semantic with
  | SPS_POSITION =>
      assert_ (bool_decide (type = GCT_FLOAT4)) ;;;
      fromFactory (createOutPosition index)
  | SPS_BLEND_WEIGHTS
  | SPS_BLEND_INDICES =>
      f <- this ;;
      OGRE_EXCEPT ERR_INVALIDPARAMS
        ("Can not resolve parameter - semantic: " +:+ toString_int (semanticValue semantic)
           +:+ " - index: " +:+ toString_int index
           +:+ " since support in it is not implemented yet. Function <" +:+ mName f +:+ ">")
        (Some "Function::resolveOutputParameter")
  | SPS_NORMAL =>
      assert_ (bool_decide (type = GCT_FLOAT3)) ;;;
      fromFactory (createOutNormal index)
  | SPS_COLOR =>
      assert_ (bool_decide (type = GCT_FLOAT4)) ;;;
      fromFactory (createOutColor index)
  | SPS_TEXTURE_COORDINATES =>
      fromFactory (createOutTexcoord type index content)
  | SPS_BINORMAL =>
      assert_ (bool_decide (type = GCT_FLOAT3)) ;;;
      fromFactory (createOutBiNormal index)
  | SPS_TANGENT =>
      assert_ (bool_decide (type = GCT_FLOAT3)) ;;;
      fromFactory (createOutTangent index)
  | SPS_UNKNOWN => ret param
  end.

(** [resolveOutputParameter] from "No parameter found -> create new one" on. *)
Definition createAndAddOutput (semantic : Semantic) (index : Z)
    (content : Content) (type : GpuConstantType) (param : ParameterPtr)
    : M ParameterPtr :=
  param <- createOutputBySemantic semantic index content type param ;;
  match param with
  | Some p => addOutputParameter p ;;; ret param
  | None => ret param
  end.

(** [Function::resolveOutputParameter]. *)
Definition resolveOutputParameter (semantic : Semantic) (index : Z)
    (content : Content) (type : GpuConstantType) : M ParameterPtr :=
  f <- this ;;
  (* Check if desired parameter already defined. *)
  param <- liftE (getParameterByContent (mOutputParameters f) content type) ;;
  match param with
  | Some _ => ret param
  | None =>
      (* Case we have to create new parameter. *)
      if bool_decide (index = -1) then
        (* Find the next available index of the target semantic. *)
        createAndAddOutput semantic (nextIndex (mOutputParameters f) semantic 0)
                           content type param
      else
        (* Check if desired parameter already defined. *)
        let param := getParameterBySemantic (mOutputParameters f) semantic index in
        match param with
        | Some p =>
            if bool_decide (getContent p = content) then
              if bool_decide (getType p = type) then ret param
              else OGRE_EXCEPT ERR_INVALIDPARAMS (typeMismatchMessage semantic index f)
                               (Some "Function::resolveOutputParameter")
            else createAndAddOutput semantic index content type param
        | None => createAndAddOutput semantic index content type param
        end
  end.

(** [Function::resolveLocalParameter], the overload that takes a name. *)
Definition resolveLocalParameter_name (semantic : Semantic) (index : Z)
    (name : string) (type : GpuConstantType) : M ParameterPtr :=
  f <- this ;;
  match getParameterByName (mLocalParameters f) name with
  | Some p =>
      if bool_decide (getType p = type)
         && bool_decide (getSemantic p = semantic)
         && bool_decide (getIndex p = index)
      then ret (Some p)
      else OGRE_EXCEPT ERR_INVALIDPARAMS
             ("Can not resolve local parameter due to type mismatch. Function <"
                +:+ mName f +:+ ">")
             (Some "Function::resolveLocalParameter")
  | None =>
      p <- new_Parameter (mkArgs type name semantic index SPC_UNKNOWN) ;;
      addParameter LocalList p ;;;
      ret (Some p)
  end.

(** [Function::resolveLocalParameter], the overload that takes a content. *)
Definition resolveLocalParameter_content (semantic : Semantic) (index : Z)
    (content : Content) (type : GpuConstantType) : M ParameterPtr :=
  type <- (if bool_decide (type = GCT_UNKNOWN) then liftE (typeFromContent content)
           else ret type) ;;
  f <- this ;;
  param <- liftE (getParameterByContent (mLocalParameters f) content type) ;;
  match param with
  | Some _ => ret param
  | None =>
      p <- new_Parameter
             (mkArgs type
                     ("lLocalParam_" +:+ toString_size_t (length (mLocalParameters f)))
                     semantic index content) ;;
      addParameter LocalList p ;;;
      ret (Some p)
  end.

End Members.

(** ** The atom container *)

(** [mAtomInstances[k]] followed by a change [f] of the bucket it refers to:
    the entry is made, empty, if the key is new, at its place in key
    order. *)
Fixpoint at_key (m : AtomMap) (k : Z)
    (f : FunctionAtomInstanceList -> FunctionAtomInstanceList) : AtomMap :=
  match m with
  | [] => [(k, f [])]
  | (k', bucket) :: rest =>
      if k <? k' then (k, f []) :: m
      else if k =? k' then (k', f bucket) :: rest
      else (k', bucket) :: at_key rest k f
  end.

(** The bucket [mAtomInstances[k]] refers to. *)
Fixpoint bucket_at (m : AtomMap) (k : Z) : FunctionAtomInstanceList :=
  match m with
  | [] => []
  | (k', bucket) :: rest => if k =? k' then bucket else bucket_at rest k
  end.

(** Whether the loop of [deleteAtomInstance] finds the pointer. *)
Fixpoint findAtom (bucket : FunctionAtomInstanceList) (atomInstance : FunctionAtom) : bool :=
  match bucket with
  | [] => false
  | it :: rest => if atom_ptr_eqb it atomInstance then true else findAtom rest atomInstance
  end.

(** [erase(it)] at the first element that is the pointer. *)
Fixpoint eraseAtom (bucket : FunctionAtomInstanceList) (atomInstance : FunctionAtom)
    : FunctionAtomInstanceList :=
  match bucket with
  | [] => []
  | it :: rest =>
      if atom_ptr_eqb it atomInstance then rest
      else it :: eraseAtom rest atomInstance
  end.

(** The loop of [getAtomInstances]: each bucket, in iteration order, is
    inserted at the end of [sorted]. *)
Fixpoint appendBuckets (m : AtomMap) (sorted : FunctionAtomInstanceList)
    : FunctionAtomInstanceList :=
  match m with
  | [] => sorted
  | (_, bucket) :: rest => appendBuckets rest (sorted ++ bucket)
  end.

Section Atoms.
Local Open Scope fn_scope.

(** [Function::addAtomInstance]. *)
Definition addAtomInstance (atomInstance : FunctionAtom) : M unit :=
  modify (fun f =>
    set_mSortedAtomInstances []
      (set_mAtomInstances
         (at_key (mAtomInstances f) (to_size_t (getGroupExecutionOrder atomInstance))
                 (fun bucket => bucket ++ [atomInstance]))
         f)).

(** [OGRE_NEW] (or [new]) of an atom of one of the three classes, with its
    group order and operands. *)
Definition new_FunctionAtom (kind : AtomKind) (groupOrder : Z) (operands : list Operand)
    : M FunctionAtom :=
  fun m =>
    Returned (mkAtom (nextAddr m) kind groupOrder operands)
             (mkMachine (S (nextAddr m)) (self m)).

(** [Function::addAtomAssign]. *)
Definition addAtomAssign (lhs rhs : ParameterPtr) (groupOrder : Z) : M unit :=
  a <- new_FunctionAtom AssignmentAtom groupOrder
         [mkOperand lhs OPS_OUT; mkOperand rhs OPS_IN] ;;
  addAtomInstance a.

(** [FunctionStageRef::callFunction], [sampleTexture] and [assign] of the
    reference with the stage [mStage] on this function; the overload of
    [callFunction] that takes one operand is the call with a list of one.
    The stage is given where the constructor of the atom takes the group
    order, an [int] as in [addAtomAssign]: it is converted to [int]. *)
Definition callFunction (mStage : Z) (name : string) (params : list Operand) : M unit :=
  function <- new_FunctionAtom (FunctionInvocation name) (to_int mStage) params ;;
  addAtomInstance function.

Definition sampleTexture (mStage : Z) (params : list Operand) : M unit :=
  function <- new_FunctionAtom SampleTextureAtom (to_int mStage) params ;;
  addAtomInstance function.

Definition assign (mStage : Z) (params : list Operand) : M unit :=
  function <- new_FunctionAtom AssignmentAtom (to_int mStage) params ;;
  addAtomInstance function.

(** [Function::deleteAtomInstance].  [mAtomInstances[g]] makes the entry
    whether or not the atom is found. *)
Definition deleteAtomInstance (atomInstance : FunctionAtom) : M bool :=
  f <- this ;;
  let g := to_size_t (getGroupExecutionOrder atomInstance) in
  if findAtom (bucket_at (mAtomInstances f) g) atomInstance then
    modify (fun f =>
      set_mSortedAtomInstances []
        (set_mAtomInstances
           (at_key (mAtomInstances f) g (fun bucket => eraseAtom bucket atomInstance))
           f)) ;;;
    ret true
  else
    modify (fun f => set_mAtomInstances (at_key (mAtomInstances f) g (fun bucket => bucket)) f) ;;;
    ret false.

(** [Function::getAtomInstances]. *)
Definition getAtomInstances : M FunctionAtomInstanceList :=
  f <- this ;;
  match mSortedAtomInstances f with
  | _ :: _ => ret (mSortedAtomInstances f)
  | [] =>
      (* put atom instances into order *)
      let sorted := appendBuckets (mAtomInstances f) (mSortedAtomInstances f) in
      modify (set_mSortedAtomInstances sorted) ;;;
      ret sorted
  end.

(** [Function::getFunctionType]. *)
Definition getFunctionType : M FunctionType :=
  f <- this ;; ret (mFunctionType f).

(** The inner loop of [Function::~Function]: each pointer of the bucket is
    passed to [OGRE_DELETE]; [deleted] lists the pointers deleted so far, in
    the order of the deletions. *)
Fixpoint deleteBucket (bucket : FunctionAtomInstanceList) (deleted : list FunctionAtom)
    : list FunctionAtom :=
  match bucket with
  | [] => deleted
  | it :: rest => deleteBucket rest (deleted ++ [it])
  end.

(** The outer loop, over the buckets in iteration order. *)
Fixpoint deleteBuckets (m : AtomMap) (deleted : list FunctionAtom) : list FunctionAtom :=
  match m with
  | [] => deleted
  | (_, bucket) :: rest => deleteBuckets rest (deleteBucket bucket deleted)
  end.

(** [Function::~Function], as far as its body goes: the atoms are deleted,
    and the map and the three parameter lists are cleared ([reset] on the
    elements of a list that is cleared next leaves nothing to see).  The
    body does not touch [mSortedAtomInstances].  The result is the list of
    the pointers passed to [OGRE_DELETE]. *)
Definition Function_dtor : M (list FunctionAtom) :=
  f <- this ;;
  let deleted := deleteBuckets (mAtomInstances f) [] in
  modify (set_mAtomInstances []) ;;;
  modify (set_mInputParameters []) ;;;
  modify (set_mOutputParameters []) ;;;
  modify (set_mLocalParameters []) ;;;
  ret deleted.

End Atoms.

(** ** Callers *)

(** One call of a public member function of [Function], or of a
    [FunctionStageRef] on it, with its arguments. *)
Inductive Call : Type :=
| CallResolveInputParameter (semantic : Semantic) (index : Z)
    (content : Content) (type : GpuConstantType)
| CallResolveOutputParameter (semantic : Semantic) (index : Z)
    (content : Content) (type : GpuConstantType)
| CallResolveLocalParameter_name (semantic : Semantic) (index : Z)
    (name : string) (type : GpuConstantType)
| CallResolveLocalParameter_content (semantic : Semantic) (index : Z)
    (content : Content) (type : GpuConstantType)
| CallAddInputParameter (parameter : Param)
| CallAddOutputParameter (parameter : Param)
| CallDeleteInputParameter (parameter : ParameterPtr)
| CallDeleteOutputParameter (parameter : ParameterPtr)
| CallDeleteAllInputParameters
| CallDeleteAllOutputParameters
| CallAddAtomInstance (atomInstance : FunctionAtom)
| CallAddAtomAssign (lhs rhs : ParameterPtr) (groupOrder : Z)
| CallStageCallFunction (mStage : Z) (name : string) (params : list Operand)
| CallStageSampleTexture (mStage : Z) (params : list Operand)
| CallStageAssign (mStage : Z) (params : list Operand)
| CallDeleteAtomInstance (atomInstance : FunctionAtom)
| CallGetAtomInstances
| CallGetFunctionType.

Section Callers.
Context `{env : Externals}.
Local Open Scope fn_scope.

(** The call, its result dropped. *)
Definition call (c : Call) : M unit :=
  match c with
  | CallResolveInputParameter s i c t => resolveInputParameter s i c t ;;; ret tt
  | CallResolveOutputParameter s i c t => resolveOutputParameter s i c t ;;; ret tt
  | CallResolveLocalParameter_name s i n t => resolveLocalParameter_name s i n t ;;; ret tt
  | CallResolveLocalParameter_content s i c t => resolveLocalParameter_content s i c t ;;; ret tt
  | CallAddInputParameter p => addInputParameter p
  | CallAddOutputParameter p => addOutputParameter p
  | CallDeleteInputParameter p => deleteInputParameter p
  | CallDeleteOutputParameter p => deleteOutputParameter p
  | CallDeleteAllInputParameters => deleteAllInputParameters
  | CallDeleteAllOutputParameters => deleteAllOutputParameters
  | CallAddAtomInstance a => addAtomInstance a
  | CallAddAtomAssign l r g => addAtomAssign l r g
  | CallStageCallFunction s n ps => callFunction s n ps
  | CallStageSampleTexture s ps => sampleTexture s ps
  | CallStageAssign s ps => assign s ps
  | CallDeleteAtomInstance a => deleteAtomInstance a ;;; ret tt
  | CallGetAtomInstances => getAtomInstances ;;; ret tt
  | CallGetFunctionType => getFunctionType ;;; ret tt
  end.

(** The machine a caller goes on with: after a return, and after an
    exception it catches; a failed assertion ends the process. *)
Definition after {A} (o : Outcome A) : option Machine :=
  match o with
  | Returned _ m => Some m
  | Thrown _ m => Some m
  | Aborted => None
  end.

(** A caller that makes the calls of [cs] one after the other. *)
Fixpoint run (cs : list Call) (m : Machine) : option Machine :=
  match cs with
  | [] => Some m
  | c :: rest =>
      match after (call c m) with
      | Some m' => run rest m'
      | None => None
      end
  end.

End Callers.

(** ** A factory to run the functions with *)

(** Modelled from the spec: [ParameterFactory], defined outside this file;
    it "constructs canonical Parameters for standard semantics (position,
    normal, color, texcoord, etc.) given an index and, for texcoords, a type
    and content".  The spec fixes neither the names nor the content of the
    parameters with a fixed type; here the name is a prefix for the list and
    the semantic followed by the index, and the content is unknown. *)
Definition canonicalArgs (type : GpuConstantType) (prefix : string)
    (semantic : Semantic) (index : Z) (content : Content) : option ParameterArgs :=
  Some (mkArgs type (prefix +:+ toString_int index) semantic index content).

(** Modelled from the spec: the values of the [Semantic] enumerators, which
    the header declares and the spec does not give; here counted from zero,
    unknown first, then in the order of the cases of the switch of
    [resolveInputParameter]. *)
Definition declarationOrder (semantic : Semantic) : Z :=
  match semantic with
  | SPS_UNKNOWN => 0
  | SPS_POSITION => 1
  | SPS_BLEND_WEIGHTS => 2
  | SPS_BLEND_INDICES => 3
  | SPS_NORMAL => 4
  | SPS_COLOR => 5
  | SPS_TEXTURE_COORDINATES => 6
  | SPS_BINORMAL => 7
  | SPS_TANGENT => 8
  end.

Definition canonicalExternals (ndebug : bool) : Externals := {|
  NDEBUG := ndebug;
  semanticValue := declarationOrder;
  createInPosition i := canonicalArgs GCT_FLOAT4 "iPos_" SPS_POSITION i SPC_UNKNOWN;
  createInWeights i := canonicalArgs GCT_FLOAT4 "iBlendWeights_" SPS_BLEND_WEIGHTS i SPC_UNKNOWN;
  createInIndices i := canonicalArgs GCT_FLOAT4 "iBlendIndices_" SPS_BLEND_INDICES i SPC_UNKNOWN;
  createInNormal i := canonicalArgs GCT_FLOAT3 "iNormal_" SPS_NORMAL i SPC_UNKNOWN;
  createInColor i := canonicalArgs GCT_FLOAT4 "iColor_" SPS_COLOR i SPC_UNKNOWN;
  createInTexcoord t i c := canonicalArgs t "iTexcoord_" SPS_TEXTURE_COORDINATES i c;
  createInBiNormal i := canonicalArgs GCT_FLOAT3 "iBiNormal_" SPS_BINORMAL i SPC_UNKNOWN;
  createInTangent i := canonicalArgs GCT_FLOAT3 "iTangent_" SPS_TANGENT i SPC_UNKNOWN;
  createOutPosition i := canonicalArgs GCT_FLOAT4 "oPos_" SPS_POSITION i SPC_UNKNOWN;
  createOutNormal i := canonicalArgs GCT_FLOAT3 "oNormal_" SPS_NORMAL i SPC_UNKNOWN;
  createOutColor i := canonicalArgs GCT_FLOAT4 "oColor_" SPS_COLOR i SPC_UNKNOWN;
  createOutTexcoord t i c := canonicalArgs t "oTexcoord_" SPS_TEXTURE_COORDINATES i c;
  createOutBiNormal i := canonicalArgs GCT_FLOAT3 "oBiNormal_" SPS_BINORMAL i SPC_UNKNOWN;
  createOutTangent i := canonicalArgs GCT_FLOAT3 "oTangent_" SPS_TANGENT i SPC_UNKNOWN
|}.

(** A new [Function] on a machine that has allocated nothing else. *)
Definition freshMachine (name desc : string) (functionType : FunctionType) : Machine :=
  mkMachine 0 (Function_ctor name desc functionType).



(** * Vocabulary of the statements *)

(** A call that throws an invalid-parameter exception and leaves the machine
    as it found it. *)
Definition throwsInvalidParams {A} (o : Outcome A) (m : Machine) : Prop :=
  exists e, o = Thrown e m /\ excCode e = ERR_INVALIDPARAMS.

(** ** Deriving a type from a content *)

(** The exception of [typeFromContent]. *)
Definition cannotDerive : Exception :=
  mkException ERR_INVALIDPARAMS "cannot derive type from content" None.

(** An unknown type given with [content] stands for [type] wherever the file
    derives it. *)
Definition derives (content : Content) (type : GpuConstantType) : Prop :=
  typeFromContent content = Ok type
  /\ (forall l, getParameterByContent l content GCT_UNKNOWN
                = getParameterByContent l content type)
  /\ (forall semantic index m,
        resolveLocalParameter_content semantic index content GCT_UNKNOWN m
        = resolveLocalParameter_content semantic index content type m).

(** An unknown type given with [content] is an error wherever the file
    derives it, and nothing is registered. *)
Definition underivable (content : Content) : Prop :=
  typeFromContent content = Raise cannotDerive
  /\ (forall l, getParameterByContent l content GCT_UNKNOWN = Raise cannotDerive)
  /\ (forall semantic index m,
        resolveLocalParameter_content semantic index content GCT_UNKNOWN m
        = Thrown cannotDerive m)
  /\ (forall (env : Externals) semantic index m,
        resolveInputParameter semantic index content GCT_UNKNOWN m = Thrown cannotDerive m
        /\ resolveOutputParameter semantic index content GCT_UNKNOWN m = Thrown cannotDerive m).

(** The content roles of the derivation table. *)
Definition float4Contents : list Content :=
  [SPC_COLOR_DIFFUSE; SPC_COLOR_SPECULAR; SPC_POSITION_PROJECTIVE_SPACE;
   SPC_POSITION_WORLD_SPACE; SPC_POSITION_OBJECT_SPACE].
Definition float3Contents : list Content :=
  [SPC_NORMAL_TANGENT_SPACE; SPC_NORMAL_OBJECT_SPACE; SPC_NORMAL_WORLD_SPACE].
Definition float1Contents : list Content :=
  [SPC_POINTSPRITE_SIZE].

(** ** Adding a parameter *)

(** A parameter of [l] is bound to the semantic and index of [p]. *)
Definition bindingTaken (l : ShaderParameterList) (p : Param) : Prop :=
  exists q, q ∈ l /\ getSemantic q = getSemantic p /\ getIndex q = getIndex p.

(** An input or output parameter of [f] has the name of [p]. *)
Definition nameTaken (f : Function) (p : Param) : Prop :=
  exists q, (q ∈ mInputParameters f \/ q ∈ mOutputParameters f) /\ getName q = getName p.

(** The machine with another local parameter list. *)
Definition withLocals (l : ShaderParameterList) (m : Machine) : Machine :=
  mkMachine (nextAddr m) (set_mLocalParameters l (self m)).

(** The machine once [p] is pushed at the back of a list. *)
Definition pushed (which : WhichList) (p : Param) (m : Machine) : Machine :=
  mkMachine (nextAddr m) (push_back which p (self m)).

(** ** Resolving input and output parameters *)

(** The two resolve functions have the same shape; a statement that holds of
    both is made once, over the direction. *)
Inductive Direction : Type := Input | Output.

Definition parametersOf (d : Direction) (f : Function) : ShaderParameterList :=
  match d with
  | Input => mInputParameters f
  | Output => mOutputParameters f
  end.

Definition resolveParameter `{env : Externals} (d : Direction)
    : Semantic -> Z -> Content -> GpuConstantType -> M ParameterPtr :=
  match d with
  | Input => resolveInputParameter
  | Output => resolveOutputParameter
  end.

Definition resolveName (d : Direction) : string :=
  match d with
  | Input => "Function::resolveInputParameter"
  | Output => "Function::resolveOutputParameter"
  end.

(** The lookup by content finds nothing: the type is known, or derived from
    the content, and no parameter of the list has the content and that
    type (an unknown content is never looked for). *)
Definition missesByContent (l : ShaderParameterList) (content : Content)
    (type : GpuConstantType) : Prop :=
  getParameterByContent l content type = Ok None.

(** The index the function goes on with: counted when -1 is given. *)
Definition effectiveIndex (l : ShaderParameterList) (semantic : Semantic) (index : Z) : Z :=
  if bool_decide (index = -1) then nextIndex l semantic 0 else index.

(** The type each semantic of [resolveInputParameter] asserts. *)
Definition assertedInputType (semantic : Semantic) : option GpuConstantType :=
  match semantic with
  | SPS_POSITION | SPS_BLEND_WEIGHTS | SPS_BLEND_INDICES | SPS_COLOR => Some GCT_FLOAT4
  | SPS_NORMAL | SPS_BINORMAL | SPS_TANGENT => Some GCT_FLOAT3
  | SPS_TEXTURE_COORDINATES | SPS_UNKNOWN => None
  end.


(** The factory function [resolveInputParameter] calls for a semantic. *)
Definition inputFactory `{env : Externals} (semantic : Semantic)
    (type : GpuConstantType) (index : Z) (content : Content) : option ParameterArgs :=
  match semantic with
  | SPS_POSITION => createInPosition index
  | SPS_BLEND_WEIGHTS => createInWeights index
  | SPS_BLEND_INDICES => createInIndices index
  | SPS_NORMAL => createInNormal index
  | SPS_COLOR => createInColor index
  | SPS_TEXTURE_COORDINATES => createInTexcoord type index content
  | SPS_BINORMAL => createInBiNormal index
  | SPS_TANGENT => createInTangent index
  | SPS_UNKNOWN => None
  end.

(** The object [new_Parameter] makes at address [addr]. *)
Definition objectAt (addr : nat) (a : ParameterArgs) : Param :=
  mkParameter addr (argType a) (argName a) (argSemantic a) (argIndex a) (argContent a).

(** The machine after one allocation. *)
Definition allocated (m : Machine) : Machine :=
  mkMachine (S (nextAddr m)) (self m).

(** The exceptions of the resolve functions. *)
Definition typeMismatch `{env : Externals} (d : Direction) (semantic : Semantic)
    (index : Z) (f : Function) : Exception :=
  mkException ERR_INVALIDPARAMS
    ("Can not resolve parameter - semantic: " +:+ toString_int (semanticValue semantic)
       +:+ " - index: " +:+ toString_int index
       +:+ " due to type mismatch. Function <" +:+ mName f +:+ ">")
    (Some (resolveName d)).

Definition notImplemented `{env : Externals} (semantic : Semantic)
    (index : Z) (f : Function) : Exception :=
  mkException ERR_INVALIDPARAMS
    ("Can not resolve parameter - semantic: " +:+ toString_int (semanticValue semantic)
       +:+ " - index: " +:+ toString_int index
       +:+ " since support in it is not implemented yet. Function <" +:+ mName f +:+ ">")
    (Some "Function::resolveOutputParameter").

(** The exception of [addInputParameter] and [addOutputParameter]. *)
Definition equalSemantic (d : Direction) (p : Param) (f : Function) : Exception :=
  mkException ERR_INVALIDPARAMS
    ("Parameter <" +:+ getName p +:+ "> has equal sematic parameter in function <"
       +:+ mName f +:+ ">")
    (Some match d with
          | Input => "Function::addInputParameter"
          | Output => "Function::addOutputParameter"
          end).

(** ** Machines to run the functions on *)

(** A function named [main] with the given input and output parameters, on
    a machine whose allocator is past [next]. *)
Definition machineOf (next : nat) (inputs outputs : ShaderParameterList) : Machine :=
  mkMachine next (mkFunction "main" "entry" (FunctionTypeTag 0) inputs outputs [] [] []).

(** A caller that makes a parameter and adds it. *)
Definition makeAndAdd (d : Direction) (a : ParameterArgs) : M unit :=
  bind (new_Parameter a)
       (match d with Input => addInputParameter | Output => addOutputParameter end).

Definition texcoordArgs : ParameterArgs :=
  mkArgs GCT_FLOAT2 "iTexcoord_0" SPS_TEXTURE_COORDINATES 0 (SPC_OTHER 0).

Definition customArgs : ParameterArgs :=
  mkArgs GCT_FLOAT2 "custom" SPS_UNKNOWN 0 (SPC_OTHER 1).

Definition diffuseArgs : ParameterArgs :=
  mkArgs GCT_FLOAT4 "oColor_0" SPS_COLOR 0 SPC_COLOR_DIFFUSE.

(** ** What a call may change *)

(** Every machine a computation can leave behind, by a return or by a
    throw, is related to the machine it started on. *)
Definition steps {A} (R : Machine -> Machine -> Prop) (c : M A) : Prop :=
  forall m,
    match c m with
    | Returned _ m' => R m m'
    | Thrown _ m' => R m m'
    | Aborted => True
    end.

(** The local parameter list only grows at the back. *)
Definition localsGrow (m m' : Machine) : Prop :=
  mLocalParameters (self m) `prefix_of` mLocalParameters (self m').

(** The atom container and its cache are untouched. *)
Definition atomsKept (m m' : Machine) : Prop :=
  mAtomInstances (self m') = mAtomInstances (self m)
  /\ mSortedAtomInstances (self m') = mSortedAtomInstances (self m).

(** No two parameters of the list are bound to the same semantic and
    index. *)
Definition binding (p : Param) : Semantic * Z := (getSemantic p, getIndex p).
Definition bindingsUnique (l : ShaderParameterList) : Prop := NoDup (binding <$> l).

(** The inputs, and the outputs, of the function are bound one to one. *)
Definition wellBound (m : Machine) : Prop :=
  bindingsUnique (mInputParameters (self m))
  /\ bindingsUnique (mOutputParameters (self m)).

Definition keepsBindings (m m' : Machine) : Prop := wellBound m -> wellBound m'.

(** ** Local parameters resolved by content *)

(** The type [resolveLocalParameter] goes on with. *)
Definition effectiveType (content : Content) (type : GpuConstantType)
    : Except GpuConstantType :=
  if bool_decide (type = GCT_UNKNOWN) then typeFromContent content else Ok type.

(** The function object is untouched (the allocator may have moved). *)
Definition selfKept (m m' : Machine) : Prop := self m' = self m.

(** ** Resolving the same request again *)

(** The parameter is what the lookup by content looks for: it has the
    content, which is a known one, and the requested type, or the type the
    content derives when the requested type is unknown. *)
Definition answers (p : Param) (content : Content) (type : GpuConstantType) : Prop :=
  content <> SPC_UNKNOWN
  /\ getContent p = content
  /\ effectiveType content type = Ok (getType p).

(** ** Indices given out for index -1 *)

(** How many parameters of the list have the semantic. *)
Definition countSemantic (l : ShaderParameterList) (semantic : Semantic) : nat :=
  length (filter (fun p => getSemantic p = semantic) l).

Section Sequences.
Context `{env : Externals}.


End Sequences.

(** ** The atom container *)

(** The key an atom is filed under: its group execution order, converted to
    the key type of the map. *)
Definition key (a : FunctionAtom) : Z := to_size_t (getGroupExecutionOrder a).

(** The buckets of the map, one after the other in iteration order. *)
Definition flatten (m : AtomMap) : list FunctionAtom := concat (snd <$> m).

(** The atom the pointer is found at in a registration list: the first that
    is the pointer, among those filed under the key of the pointer. *)
Fixpoint unregister (reg : list FunctionAtom) (a : FunctionAtom) : list FunctionAtom :=
  match reg with
  | [] => []
  | x :: rest =>
      if atom_ptr_eqb x a && bool_decide (key x = key a) then rest
      else x :: unregister rest a
  end.

(** What a call does to the list of the atoms registered and not deleted,
    kept in the order of registration. *)
Definition registerStep (c : Call) (m : Machine) (reg : list FunctionAtom)
    : list FunctionAtom :=
  match c with
  | CallAddAtomInstance a => reg ++ [a]
  | CallAddAtomAssign lhs rhs groupOrder =>
      reg ++ [mkAtom (nextAddr m) AssignmentAtom groupOrder
                     [mkOperand lhs OPS_OUT; mkOperand rhs OPS_IN]]
  | CallStageCallFunction mStage name params =>
      reg ++ [mkAtom (nextAddr m) (FunctionInvocation name) (to_int mStage) params]
  | CallStageSampleTexture mStage params =>
      reg ++ [mkAtom (nextAddr m) SampleTextureAtom (to_int mStage) params]
  | CallStageAssign mStage params =>
      reg ++ [mkAtom (nextAddr m) AssignmentAtom (to_int mStage) params]
  | CallDeleteAtomInstance a => unregister reg a
  | _ => reg
  end.

Section Registered.
Context `{env : Externals}.

(** The atoms registered and not deleted after the calls of [cs], made from
    the machine [m] on. *)
Fixpoint registered (cs : list Call) (m : Machine) (reg : list FunctionAtom)
    : list FunctionAtom :=
  match cs with
  | [] => reg
  | c :: rest =>
      match after (call c m) with
      | Some m' => registered rest m' (registerStep c m reg)
      | None => reg
      end
  end.

End Registered.

(** The keys of the map ascend strictly, as in a [std::map]. *)
Definition keysAscend (m : AtomMap) : Prop := StronglySorted Z.lt (fst <$> m).

(** Every atom of a bucket is filed under the key of the bucket. *)
Definition keyed (m : AtomMap) : Prop :=
  Forall (fun kb => Forall (fun x => key x = fst kb) (snd kb)) m.

(** The container holds the registered atoms: each bucket has the atoms of
    its key in the order of registration, and the cache is empty or holds
    the buckets one after the other. *)
Definition holds (reg : list FunctionAtom) (m : Machine) : Prop :=
  keysAscend (mAtomInstances (self m))
  /\ keyed (mAtomInstances (self m))
  /\ (forall k, bucket_at (mAtomInstances (self m)) k = filter (fun x => key x = k) reg)
  /\ (mSortedAtomInstances (self m) = []
      \/ mSortedAtomInstances (self m) = flatten (mAtomInstances (self m))).




(** * Vocabulary of the further properties *)

(** ** Lookups and deletion in a parameter list *)

(** [r] is the first element of [l], in list order, that satisfies [P]; it
    is empty when no element does. *)
Definition firstThat (P : Param -> Prop) (l : ShaderParameterList) (r : ParameterPtr) : Prop :=
  match r with
  | Some p => exists l1 l2, l = l1 ++ p :: l2 /\ P p /\ forall q, q ∈ l1 -> ~ P q
  | None => forall q, q ∈ l -> ~ P q
  end.

(** The element is the object the pointer refers to. *)
Definition pointedBy (parameter : ParameterPtr) (q : Param) : Prop :=
  ptr_eqb (Some q) parameter = true.

(** The list a direction stands for, and its add and delete functions. *)
Definition listOf (d : Direction) : WhichList :=
  match d with
  | Input => InputList
  | Output => OutputList
  end.

Definition addOf (d : Direction) : Param -> M unit :=
  match d with
  | Input => addInputParameter
  | Output => addOutputParameter
  end.

Definition deleteOf (d : Direction) : ParameterPtr -> M unit :=
  match d with
  | Input => deleteInputParameter
  | Output => deleteOutputParameter
  end.

(** The parameter list of the other direction. *)
Definition opposite (d : Direction) : Direction :=
  match d with
  | Input => Output
  | Output => Input
  end.

(** ** Names of the input and output parameters *)

(** No two parameters among the inputs and the outputs have the same
    name. *)
Definition namesUnique (m : Machine) : Prop :=
  NoDup (getName <$> (mInputParameters (self m) ++ mOutputParameters (self m))).

Definition keepsNames (m m' : Machine) : Prop := namesUnique m -> namesUnique m'.

(** ** Local parameters resolved by name *)

(** The exception of [resolveLocalParameter] for a local parameter that has
    the name and not the requested type, semantic and index. *)
Definition localMismatch (f : Function) : Exception :=
  mkException ERR_INVALIDPARAMS
    ("Can not resolve local parameter due to type mismatch. Function <"
       +:+ mName f +:+ ">")
    (Some "Function::resolveLocalParameter").

(** The exception of [addParameter]. *)
Definition alreadyDeclared (p : Param) (f : Function) : Exception :=
  mkException ERR_INVALIDPARAMS
    ("Parameter <" +:+ getName p +:+ "> already declared in function <"
       +:+ mName f +:+ ">")
    (Some "Function::addParameter").

(** The local parameter has what the request by name asks for. *)
Definition asRequested (q : Param) (type : GpuConstantType) (semantic : Semantic)
    (index : Z) : Prop :=
  getType q = type /\ getSemantic q = semantic /\ getIndex q = index.

(** The object a request by name makes at address [addr]. *)
Definition namedLocal (addr : nat) (type : GpuConstantType) (name : string)
    (semantic : Semantic) (index : Z) : Param :=
  mkParameter addr type name semantic index SPC_UNKNOWN.

(** ** What a call may touch *)

(** The parts of a function that calls work on. *)
Inductive Part : Type :=
| InputParameters
| OutputParameters
| LocalParameters
| AtomInstances.

#[global] Instance Part_eq_dec : EqDecision Part.
Proof. solve_decision. Defined.

(** The part is the same after as before; for the atoms, the map and its
    cache. *)
Definition partKept (part : Part) (m m' : Machine) : Prop :=
  match part with
  | InputParameters => mInputParameters (self m') = mInputParameters (self m)
  | OutputParameters => mOutputParameters (self m') = mOutputParameters (self m)
  | LocalParameters => mLocalParameters (self m') = mLocalParameters (self m)
  | AtomInstances => atomsKept m m'
  end.

(** The part a call works on; none for the getter of the type. *)
Definition changes (c : Call) : option Part :=
  match c with
  | CallResolveInputParameter _ _ _ _
  | CallAddInputParameter _
  | CallDeleteInputParameter _
  | CallDeleteAllInputParameters => Some InputParameters
  | CallResolveOutputParameter _ _ _ _
  | CallAddOutputParameter _
  | CallDeleteOutputParameter _
  | CallDeleteAllOutputParameters => Some OutputParameters
  | CallResolveLocalParameter_name _ _ _ _
  | CallResolveLocalParameter_content _ _ _ _ => Some LocalParameters
  | CallAddAtomInstance _
  | CallAddAtomAssign _ _ _
  | CallStageCallFunction _ _ _
  | CallStageSampleTexture _ _
  | CallStageAssign _ _
  | CallDeleteAtomInstance _
  | CallGetAtomInstances => Some AtomInstances
  | CallGetFunctionType => None
  end.

(** What the constructor was given is the same after as before. *)
Definition constructionKept (m m' : Machine) : Prop :=
  mName (self m') = mName (self m)
  /\ mDescription (self m') = mDescription (self m)
  /\ mFunctionType (self m') = mFunctionType (self m).

(** Everything is kept but, at most, one part; the allocator does not go
    back. *)
Definition keptBut (touched : option Part) (m m' : Machine) : Prop :=
  constructionKept m m'
  /\ (nextAddr m <= nextAddr m')%nat
  /\ forall part, touched <> Some part -> partKept part m m'.

(** ** Names of the local parameters *)

(** The name [resolveLocalParameter] by content gives to the local
    parameter it makes when the local list has [n] elements. *)
Definition generatedName (n : nat) : string :=
  "lLocalParam_" +:+ toString_size_t n.

(** The local parameter at each position has the name generated for the
    position. *)
Definition localsNumbered (m : Machine) : Prop :=
  getName <$> mLocalParameters (self m)
  = generatedName <$> seq 0 (length (mLocalParameters (self m))).

(** The call is not a request for a local parameter by name. *)
Definition notByName (c : Call) : Prop :=
  match c with
  | CallResolveLocalParameter_name _ _ _ _ => False
  | _ => True
  end.

(** ** Exceptions *)

(** Whenever the computation throws, the function object is as it was when
    the computation started. *)
Definition throwsUnchanged {A} (c : M A) : Prop :=
  forall m e m', c m = Thrown e m' -> self m' = self m.

(** The computation does not throw. *)
Definition neverThrows {A} (c : M A) : Prop :=
  forall m e m', c m <> Thrown e m'.

(** The calls that have a [throw] on some path: the resolve functions and
    the two adds. *)
Definition mayThrow (c : Call) : Prop :=
  match c with
  | CallResolveInputParameter _ _ _ _
  | CallResolveOutputParameter _ _ _ _
  | CallResolveLocalParameter_name _ _ _ _
  | CallResolveLocalParameter_content _ _ _ _
  | CallAddInputParameter _
  | CallAddOutputParameter _ => True
  | _ => False
  end.

(** ** What the resolve functions return *)

(** The creating half of the resolve function of a direction. *)
Definition createAndAdd `{env : Externals} (d : Direction)
    : Semantic -> Z -> Content -> GpuConstantType -> ParameterPtr -> M ParameterPtr :=
  match d with
  | Input => createAndAddInput
  | Output => createAndAddOutput
  end.

(** What a resolve function has done when it returns [r]: nothing, or made
    the object [r] at the next address and pushed it at the back of the
    list. *)
Definition foundOrMade (which : WhichList) (r : ParameterPtr) (m m' : Machine) : Prop :=
  match r with
  | None => m' = m
  | Some p =>
      m' = m
      \/ (paramAddr p = nextAddr m /\ m' = pushed which p (allocated m))
  end.

(** ** Registering and deleting atoms *)

(** The atom a call registers, if it registers one: the one it is given, or
    the one it makes at the next address. *)
Definition created (c : Call) (m : Machine) : option FunctionAtom :=
  match c with
  | CallAddAtomInstance a => Some a
  | CallAddAtomAssign lhs rhs groupOrder =>
      Some (mkAtom (nextAddr m) AssignmentAtom groupOrder
                   [mkOperand lhs OPS_OUT; mkOperand rhs OPS_IN])
  | CallStageCallFunction mStage name params =>
      Some (mkAtom (nextAddr m) (FunctionInvocation name) (to_int mStage) params)
  | CallStageSampleTexture mStage params =>
      Some (mkAtom (nextAddr m) SampleTextureAtom (to_int mStage) params)
  | CallStageAssign mStage params =>
      Some (mkAtom (nextAddr m) AssignmentAtom (to_int mStage) params)
  | _ => None
  end.

(** The atom is the object the pointer refers to, filed where
    [deleteAtomInstance] looks for it. *)
Definition deletes (a x : FunctionAtom) : Prop :=
  atomAddr x = atomAddr a /\ key x = key a.

(** The call does not register an atom that its caller has made. *)
Definition makesItsAtoms (c : Call) : Prop :=
  match c with
  | CallAddAtomInstance _ => False
  | _ => True
  end.

(** The atoms registered are objects made before now, no two of them the
    same object. *)
Definition atomsDistinct (reg : list FunctionAtom) (m : Machine) : Prop :=
  Forall (fun x => (atomAddr x < nextAddr m)%nat) reg
  /\ NoDup (atomAddr <$> reg).

(** ** Requests that make a new parameter *)

(** The type each semantic of [resolveOutputParameter] asserts. *)
Definition assertedOutputType (semantic : Semantic) : option GpuConstantType :=
  match semantic with
  | SPS_POSITION | SPS_COLOR => Some GCT_FLOAT4
  | SPS_NORMAL | SPS_BINORMAL | SPS_TANGENT => Some GCT_FLOAT3
  | SPS_BLEND_WEIGHTS | SPS_BLEND_INDICES
  | SPS_TEXTURE_COORDINATES | SPS_UNKNOWN => None
  end.

(** The factory function [resolveOutputParameter] calls for a semantic;
    there is none for the blend semantics. *)
Definition outputFactory `{env : Externals} (semantic : Semantic)
    (type : GpuConstantType) (index : Z) (content : Content) : option ParameterArgs :=
  match semantic with
  | SPS_POSITION => createOutPosition index
  | SPS_NORMAL => createOutNormal index
  | SPS_COLOR => createOutColor index
  | SPS_TEXTURE_COORDINATES => createOutTexcoord type index content
  | SPS_BINORMAL => createOutBiNormal index
  | SPS_TANGENT => createOutTangent index
  | SPS_BLEND_WEIGHTS | SPS_BLEND_INDICES | SPS_UNKNOWN => None
  end.

(** The same for either direction. *)
Definition assertedType (d : Direction) : Semantic -> option GpuConstantType :=
  match d with
  | Input => assertedInputType
  | Output => assertedOutputType
  end.

Definition factoryOf `{env : Externals} (d : Direction)
    : Semantic -> GpuConstantType -> Z -> Content -> option ParameterArgs :=
  match d with
  | Input => inputFactory
  | Output => outputFactory
  end.

(** The semantic has a factory function in the switch of the direction. *)
Definition hasFactory (d : Direction) (semantic : Semantic) : Prop :=
  match d, semantic with
  | _, SPS_UNKNOWN => False
  | Output, (SPS_BLEND_WEIGHTS | SPS_BLEND_INDICES) => False
  | _, _ => True
  end.

(** The request passes the assertion of its semantic, or assertions are
    compiled out. *)
Definition passesAssert `{env : Externals} (d : Direction) (semantic : Semantic)
    (type : GpuConstantType) : Prop :=
  NDEBUG = true \/ forall t, assertedType d semantic = Some t -> type = t.

(** No parameter of the list answers the request: none is found by
    content, and, for an explicit index, the lookup by semantic and index
    finds none that has the requested content. *)
Definition nothingFound (l : ShaderParameterList) (semantic : Semantic) (index : Z)
    (content : Content) (type : GpuConstantType) : Prop :=
  missesByContent l content type
  /\ (index = -1
      \/ forall q, getParameterBySemantic l semantic index = Some q ->
                   getContent q <> content).

(** ** Parameters stay where they are *)

(** The call is not one that deletes parameters. *)
Definition notDeleting (c : Call) : Prop :=
  match c with
  | CallDeleteInputParameter _ | CallDeleteOutputParameter _
  | CallDeleteAllInputParameters | CallDeleteAllOutputParameters => False
  | _ => True
  end.

(** Each parameter list of before is the front part of the list of after:
    every parameter is still registered, at the position it had. *)
Definition parametersStay (m m' : Machine) : Prop :=
  mInputParameters (self m) `prefix_of` mInputParameters (self m')
  /\ mOutputParameters (self m) `prefix_of` mOutputParameters (self m')
  /\ mLocalParameters (self m) `prefix_of` mLocalParameters (self m').
(** * Properties *)

(** ** The lookup helpers *)

(** Turns the tests of a scanning loop into propositions. *)
Ltac reflect_tests :=
  repeat match goal with
  | H : bool_decide _ = true |- _ => apply bool_decide_eq_true in H
  | H : bool_decide _ = false |- _ => apply bool_decide_eq_false in H
  | H : _ && _ = true |- _ => apply andb_true_iff in H as [? ?]
  end.

Lemma getParameterByName_None (l : ShaderParameterList) (name : string) :
  getParameterByName l name = None <-> (forall q, q ∈ l -> getName q <> name).
Proof.
  induction l as [|p l IH]; simpl; [set_solver |].
  destruct (bool_decide _) eqn:Hn; reflect_tests; rewrite ?IH; set_solver.
Qed.

Lemma getParameterByName_Some (l : ShaderParameterList) (name : string) (p : Param) :
  getParameterByName l name = Some p -> p ∈ l /\ getName p = name.
Proof.
  induction l as [|q l IH]; simpl; [done |].
  destruct (bool_decide _) eqn:Hn; reflect_tests; set_solver.
Qed.

Lemma getParameterBySemantic_None (l : ShaderParameterList) (semantic : Semantic) (index : Z) :
  getParameterBySemantic l semantic index = None
  <-> (forall q, q ∈ l -> ~ (getSemantic q = semantic /\ getIndex q = index)).
Proof.
  induction l as [|p l IH]; simpl; [set_solver |].
  destruct (bool_decide (getSemantic p = _)) eqn:Hs;
    destruct (bool_decide (getIndex p = _)) eqn:Hi;
    simpl; reflect_tests; rewrite ?IH; set_solver.
Qed.

Lemma getParameterBySemantic_Some (l : ShaderParameterList) (semantic : Semantic)
    (index : Z) (p : Param) :
  getParameterBySemantic l semantic index = Some p ->
  p ∈ l /\ getSemantic p = semantic /\ getIndex p = index.
Proof.
  induction l as [|q l IH]; simpl; [done |].
  destruct (bool_decide (getSemantic q = _)) eqn:Hs;
    destruct (bool_decide (getIndex q = _)) eqn:Hi;
    simpl; reflect_tests; set_solver.
Qed.

Lemma findByContent_None (l : ShaderParameterList) (content : Content) (type : GpuConstantType) :
  findByContent l content type = None
  <-> (forall q, q ∈ l -> ~ (getContent q = content /\ getType q = type)).
Proof.
  induction l as [|p l IH]; simpl; [set_solver |].
  destruct (bool_decide (getContent p = _)) eqn:Hs;
    destruct (bool_decide (getType p = _)) eqn:Hi;
    simpl; reflect_tests; rewrite ?IH; set_solver.
Qed.

Lemma findByContent_Some (l : ShaderParameterList) (content : Content)
    (type : GpuConstantType) (p : Param) :
  findByContent l content type = Some p ->
  p ∈ l /\ getContent p = content /\ getType p = type.
Proof.
  induction l as [|q l IH]; simpl; [done |].
  destruct (bool_decide (getContent q = _)) eqn:Hs;
    destruct (bool_decide (getType q = _)) eqn:Hi;
    simpl; reflect_tests; set_solver.
Qed.

(** A parameter pushed at the back is found only if nothing before it is. *)
Lemma findByContent_app (l : ShaderParameterList) (p : Param)
    (content : Content) (type : GpuConstantType) :
  findByContent (l ++ [p]) content type =
  match findByContent l content type with
  | Some q => Some q
  | None => findByContent [p] content type
  end.
Proof.
  induction l as [|q l IH]; [done |].
  simpl. destruct (_ && _); [done | apply IH].
Qed.


(** ** Deriving a type from a content *)

Lemma derives_intro (content : Content) (type : GpuConstantType) :
  typeFromContent content = Ok type -> type <> GCT_UNKNOWN -> derives content type.
Proof.
  intros Hd Hk. split; [done |]. split.
  - intros l. unfold getParameterByContent.
    rewrite bool_decide_eq_true_2 by done. rewrite Hd.
    by rewrite (bool_decide_eq_false_2 (type = GCT_UNKNOWN)).
  - intros semantic index m. unfold resolveLocalParameter_content, bind, liftE, ret.
    rewrite bool_decide_eq_true_2 by done. rewrite Hd.
    by rewrite (bool_decide_eq_false_2 (type = GCT_UNKNOWN)).
Qed.

Lemma underivable_intro (content : Content) :
  typeFromContent content = Raise cannotDerive -> underivable content.
Proof.
  intros Hd.
  assert (Hl : forall l, getParameterByContent l content GCT_UNKNOWN = Raise cannotDerive).
  { intros l. unfold getParameterByContent.
    rewrite bool_decide_eq_true_2 by done. by rewrite Hd. }
  split; [done |]. split; [done |]. split.
  - intros semantic index m. unfold resolveLocalParameter_content, bind, liftE.
    rewrite bool_decide_eq_true_2 by done. by rewrite Hd.
  - intros env semantic index m.
    unfold resolveInputParameter, resolveOutputParameter, bind, liftE, this.
    by rewrite !Hl.
Qed.

(** C7: with an unknown type, diffuse and specular color and the three
    positions derive a 4-component float, the three normals a 3-component
    float, point-sprite size a 1-component float; every other content
    fails with the invalid-parameter exception of [typeFromContent], in the
    lookup by content and in every resolve function, and nothing is
    registered. *)
Theorem type_derived_from_content :
  Forall (fun c => derives c GCT_FLOAT4) float4Contents
  /\ Forall (fun c => derives c GCT_FLOAT3) float3Contents
  /\ Forall (fun c => derives c GCT_FLOAT1) float1Contents
  /\ (forall c, c ∉ (float4Contents ++ float3Contents ++ float1Contents) ->
        underivable c /\ excCode cannotDerive = ERR_INVALIDPARAMS).
Proof.
  split; [|split; [|split]].
  - repeat constructor; by apply derives_intro.
  - repeat constructor; by apply derives_intro.
  - repeat constructor; by apply derives_intro.
  - intros c Hc. split; [|done]. apply underivable_intro.
    destruct c; try done; exfalso; apply Hc;
      unfold float4Contents, float3Contents, float1Contents; set_solver.
Qed.

(** ** Adding a parameter *)

Lemma bindingTaken_lookup (l : ShaderParameterList) (p : Param) :
  bindingTaken l p <-> getParameterBySemantic l (getSemantic p) (getIndex p) <> None.
Proof.
  unfold bindingTaken. split.
  - intros (q & Hq & Hs & Hi) Hnone.
    rewrite getParameterBySemantic_None in Hnone. by apply (Hnone q).
  - destruct (getParameterBySemantic _ _ _) as [q|] eqn:Hq; [|done].
    intros _. apply getParameterBySemantic_Some in Hq. by exists q.
Qed.

Lemma nameTaken_lookup (f : Function) (p : Param) :
  nameTaken f p <->
  getParameterByName (mInputParameters f) (getName p) <> None
  \/ getParameterByName (mOutputParameters f) (getName p) <> None.
Proof.
  unfold nameTaken. split.
  - intros (q & [Hq|Hq] & Hn); [left | right]; intros Hnone;
      rewrite getParameterByName_None in Hnone; by apply (Hnone q).
  - intros [H|H].
    + destruct (getParameterByName (mInputParameters f) _) as [q|] eqn:Hq; [|done].
      apply getParameterByName_Some in Hq. exists q. tauto.
    + destruct (getParameterByName (mOutputParameters f) _) as [q|] eqn:Hq; [|done].
      apply getParameterByName_Some in Hq. exists q. tauto.
Qed.

(** [addParameter] throws exactly when the name is taken among the inputs
    and outputs; otherwise it pushes the parameter at the back. *)
Lemma addParameter_outcome (which : WhichList) (p : Param) (m : Machine) :
  (nameTaken (self m) p /\ throwsInvalidParams (addParameter which p m) m)
  \/ (~ nameTaken (self m) p /\ addParameter which p m = Returned tt (pushed which p m)).
Proof.
  rewrite nameTaken_lookup.
  unfold addParameter, bind, this, OGRE_EXCEPT, modify, throwsInvalidParams, pushed.
  case_bool_decide; [left | case_bool_decide; [left | right]];
    (split; [tauto |]); eauto.
Qed.

Lemma addInputParameter_outcome (p : Param) (m : Machine) :
  ((bindingTaken (mInputParameters (self m)) p \/ nameTaken (self m) p)
   /\ throwsInvalidParams (addInputParameter p m) m)
  \/ (~ (bindingTaken (mInputParameters (self m)) p \/ nameTaken (self m) p)
      /\ addInputParameter p m = Returned tt (pushed InputList p m)).
Proof.
  rewrite bindingTaken_lookup.
  unfold addInputParameter, bind, this. case_bool_decide as Hb.
  - left. split; [tauto |]. unfold OGRE_EXCEPT, throwsInvalidParams. eauto.
  - destruct (addParameter_outcome InputList p m) as [[Hn Ht]|[Hn Hr]];
      [left | right]; (split; [tauto | done]).
Qed.

Lemma addOutputParameter_outcome (p : Param) (m : Machine) :
  ((bindingTaken (mOutputParameters (self m)) p \/ nameTaken (self m) p)
   /\ throwsInvalidParams (addOutputParameter p m) m)
  \/ (~ (bindingTaken (mOutputParameters (self m)) p \/ nameTaken (self m) p)
      /\ addOutputParameter p m = Returned tt (pushed OutputList p m)).
Proof.
  rewrite bindingTaken_lookup.
  unfold addOutputParameter, bind, this. case_bool_decide as Hb.
  - left. split; [tauto |]. unfold OGRE_EXCEPT, throwsInvalidParams. eauto.
  - destruct (addParameter_outcome OutputList p m) as [[Hn Ht]|[Hn Hr]];
      [left | right]; (split; [tauto | done]).
Qed.

(** C6: [addInputParameter] (and [addOutputParameter]) throws an
    invalid-parameter exception exactly when the input (output) list holds a
    parameter with the same semantic and index, or the input or output list
    holds one with the same name; replacing the local list changes nothing
    to that; and when it does not throw it returns with the parameter pushed
    at the back of its list. *)
Theorem add_rejects_exactly_on_clash (parameter : Param) (m : Machine) :
  ((bindingTaken (mInputParameters (self m)) parameter \/ nameTaken (self m) parameter)
     <-> throwsInvalidParams (addInputParameter parameter m) m)
  /\ (~ (bindingTaken (mInputParameters (self m)) parameter \/ nameTaken (self m) parameter)
     <-> addInputParameter parameter m = Returned tt (pushed InputList parameter m))
  /\ ((bindingTaken (mOutputParameters (self m)) parameter \/ nameTaken (self m) parameter)
     <-> throwsInvalidParams (addOutputParameter parameter m) m)
  /\ (~ (bindingTaken (mOutputParameters (self m)) parameter \/ nameTaken (self m) parameter)
     <-> addOutputParameter parameter m = Returned tt (pushed OutputList parameter m))
  /\ (forall locals,
        (throwsInvalidParams (addInputParameter parameter (withLocals locals m))
                             (withLocals locals m)
         <-> throwsInvalidParams (addInputParameter parameter m) m)
        /\ (throwsInvalidParams (addOutputParameter parameter (withLocals locals m))
                                (withLocals locals m)
            <-> throwsInvalidParams (addOutputParameter parameter m) m))
  /\ mInputParameters (self (pushed InputList parameter m))
     = mInputParameters (self m) ++ [parameter]
  /\ mOutputParameters (self (pushed OutputList parameter m))
     = mOutputParameters (self m) ++ [parameter].
Proof.
  assert (Hin := addInputParameter_outcome parameter m).
  assert (Hout := addOutputParameter_outcome parameter m).
  assert (Hno : forall A (o : Outcome A) m1 m2 a,
             throwsInvalidParams o m1 -> o = Returned a m2 -> False).
  { intros A o m1 m2 a (e & -> & _). done. }
  split; [|split; [|split; [|split; [|split; [|done]]]]].
  - destruct Hin as [[? ?]|[? Hr]]; [tauto |].
    split; [tauto | intros Ht; exfalso; eauto].
  - destruct Hin as [[? ?]|[? Hr]]; [|tauto].
    split; [tauto | intros Ht; exfalso; eauto].
  - destruct Hout as [[? ?]|[? Hr]]; [tauto |].
    split; [tauto | intros Ht; exfalso; eauto].
  - destruct Hout as [[? ?]|[? Hr]]; [|tauto].
    split; [tauto | intros Ht; exfalso; eauto].
  - intros locals.
    assert (Hin' := addInputParameter_outcome parameter (withLocals locals m)).
    assert (Hout' := addOutputParameter_outcome parameter (withLocals locals m)).
    change (self (withLocals locals m))
      with (set_mLocalParameters locals (self m)) in Hin', Hout'.
    change (nameTaken (set_mLocalParameters locals (self m)) parameter)
      with (nameTaken (self m) parameter) in Hin', Hout'.
    simpl in Hin', Hout'.
    split; split; intros Ht.
    + destruct Hin as [[? ?]|[? Hr]]; [done |].
      destruct Hin' as [[? ?]|[? Hr']]; [tauto | exfalso; eauto].
    + destruct Hin' as [[? ?]|[? Hr']]; [done |].
      destruct Hin as [[? ?]|[? Hr]]; [tauto | exfalso; eauto].
    + destruct Hout as [[? ?]|[? Hr]]; [done |].
      destruct Hout' as [[? ?]|[? Hr']]; [tauto | exfalso; eauto].
    + destruct Hout' as [[? ?]|[? Hr']]; [done |].
      destruct Hout as [[? ?]|[? Hr]]; [tauto | exfalso; eauto].
Qed.

(** ** The paths of the resolve functions *)


Section Paths.
Context `{env : Externals}.

(** The lookup by content comes first: what it finds is returned, and what
    it throws is thrown. *)
Lemma resolve_found_by_content (d : Direction) (semantic : Semantic) (index : Z)
    (content : Content) (type : GpuConstantType) (m : Machine) (p : Param) :
  getParameterByContent (parametersOf d (self m)) content type = Ok (Some p) ->
  resolveParameter d semantic index content type m = Returned (Some p) m.
Proof.
  destruct d; simpl; intros Hc;
    unfold resolveInputParameter, resolveOutputParameter, bind, this, liftE;
    by rewrite Hc.
Qed.

Lemma resolve_lookup_throws (d : Direction) (semantic : Semantic) (index : Z)
    (content : Content) (type : GpuConstantType) (m : Machine) (e : Exception) :
  getParameterByContent (parametersOf d (self m)) content type = Raise e ->
  resolveParameter d semantic index content type m = Thrown e m.
Proof.
  destruct d; simpl; intros Hc;
    unfold resolveInputParameter, resolveOutputParameter, bind, this, liftE;
    by rewrite Hc.
Qed.

(** What the lookup by content throws is an invalid-parameter exception. *)
Lemma getParameterByContent_raises (l : ShaderParameterList) (content : Content)
    (type : GpuConstantType) (e : Exception) :
  getParameterByContent l content type = Raise e -> e = cannotDerive.
Proof.
  unfold getParameterByContent. case_bool_decide.
  - destruct content; simpl; try case_bool_decide; intros Heq;
      try discriminate; by inversion Heq.
  - case_bool_decide; discriminate.
Qed.

Lemma getParameterByContent_finds (l : ShaderParameterList) (content : Content)
    (type : GpuConstantType) (p : Param) :
  getParameterByContent l content type = Ok (Some p) -> p ∈ l.
Proof.
  unfold getParameterByContent.
  destruct (if bool_decide (type = GCT_UNKNOWN) then _ else _) as [t|]; [|done].
  case_bool_decide; [|done].
  intros [= Hf]. by apply findByContent_Some in Hf as [? _].
Qed.

(** With index -1 the index is the one the counting loop finds. *)
Lemma resolveInput_next_index (semantic : Semantic) (content : Content)
    (type : GpuConstantType) (m : Machine) :
  missesByContent (mInputParameters (self m)) content type ->
  resolveInputParameter semantic (-1) content type m
  = createAndAddInput semantic (nextIndex (mInputParameters (self m)) semantic 0)
                      content type None m.
Proof.
  intros Hc. unfold resolveInputParameter, bind at 1 2, this, liftE.
  by rewrite Hc.
Qed.

Lemma resolveOutput_next_index (semantic : Semantic) (content : Content)
    (type : GpuConstantType) (m : Machine) :
  missesByContent (mOutputParameters (self m)) content type ->
  resolveOutputParameter semantic (-1) content type m
  = createAndAddOutput semantic (nextIndex (mOutputParameters (self m)) semantic 0)
                       content type None m.
Proof.
  intros Hc. unfold resolveOutputParameter, bind at 1 2, this, liftE.
  by rewrite Hc.
Qed.

(** With an explicit index, the parameter at the semantic and index decides. *)
Lemma resolveInput_explicit (semantic : Semantic) (index : Z) (content : Content)
    (type : GpuConstantType) (m : Machine) :
  index <> -1 ->
  missesByContent (mInputParameters (self m)) content type ->
  resolveInputParameter semantic index content type m
  = match getParameterBySemantic (mInputParameters (self m)) semantic index with
    | Some p =>
        if bool_decide (getContent p = content) then
          if bool_decide (getType p = type) then Returned (Some p) m
          else Thrown (typeMismatch Input semantic index (self m)) m
        else createAndAddInput semantic index content type (Some p) m
    | None => createAndAddInput semantic index content type None m
    end.
Proof.
  intros Hi Hc. unfold resolveInputParameter, bind at 1 2, this, liftE.
  rewrite Hc. rewrite bool_decide_eq_false_2 by done.
  destruct (getParameterBySemantic _ _ _) as [p|]; [|done].
  by repeat case_bool_decide.
Qed.

Lemma resolveOutput_explicit (semantic : Semantic) (index : Z) (content : Content)
    (type : GpuConstantType) (m : Machine) :
  index <> -1 ->
  missesByContent (mOutputParameters (self m)) content type ->
  resolveOutputParameter semantic index content type m
  = match getParameterBySemantic (mOutputParameters (self m)) semantic index with
    | Some p =>
        if bool_decide (getContent p = content) then
          if bool_decide (getType p = type) then Returned (Some p) m
          else Thrown (typeMismatch Output semantic index (self m)) m
        else createAndAddOutput semantic index content type (Some p) m
    | None => createAndAddOutput semantic index content type None m
    end.
Proof.
  intros Hi Hc. unfold resolveOutputParameter, bind at 1 2, this, liftE.
  rewrite Hc. rewrite bool_decide_eq_false_2 by done.
  destruct (getParameterBySemantic _ _ _) as [p|]; [|done].
  by repeat case_bool_decide.
Qed.

End Paths.

(** ** Requests that meet a registered parameter *)

Section Resolve.
Context `{env : Externals}.

(** The parameter the lookup by semantic and index finds, when it has the
    requested content: returned if it has the requested type, a type
    mismatch otherwise. *)
Lemma resolve_at_index_same_content (d : Direction) (semantic : Semantic)
    (index : Z) (content : Content) (type : GpuConstantType) (m : Machine) (p : Param) :
  index <> -1 ->
  missesByContent (parametersOf d (self m)) content type ->
  getParameterBySemantic (parametersOf d (self m)) semantic index = Some p ->
  getContent p = content ->
  (getType p = type ->
     resolveParameter d semantic index content type m = Returned (Some p) m)
  /\ (getType p <> type ->
     resolveParameter d semantic index content type m
     = Thrown (mkException ERR_INVALIDPARAMS
                 ("Can not resolve parameter - semantic: "
                    +:+ toString_int (semanticValue semantic)
                    +:+ " - index: " +:+ toString_int index
                    +:+ " due to type mismatch. Function <" +:+ mName (self m) +:+ ">")
                 (Some (resolveName d)))
              m).
Proof.
  intros Hi Hc Hp Hcont.
  destruct d; simpl in *.
  - rewrite resolveInput_explicit by done. rewrite Hp.
    rewrite bool_decide_eq_true_2 by done.
    split; intros Ht; [by rewrite bool_decide_eq_true_2 | by rewrite bool_decide_eq_false_2].
  - rewrite resolveOutput_explicit by done. rewrite Hp.
    rewrite bool_decide_eq_true_2 by done.
    split; intros Ht; [by rewrite bool_decide_eq_true_2 | by rewrite bool_decide_eq_false_2].
Qed.

(** C9, amended: when the lookup by content finds nothing, a request with
    the unknown semantic and either index -1 or an index at which the list
    holds no parameter of unknown semantic returns the empty pointer and
    changes nothing. *)
Theorem resolve_unknown_semantic_is_empty (d : Direction) (index : Z)
    (content : Content) (type : GpuConstantType) (m : Machine) :
  missesByContent (parametersOf d (self m)) content type ->
  index = -1
  \/ (forall q, q ∈ parametersOf d (self m) ->
                ~ (getSemantic q = SPS_UNKNOWN /\ getIndex q = index)) ->
  resolveParameter d SPS_UNKNOWN index content type m = Returned None m.
Proof.
  intros Hc Hidx. rewrite <- getParameterBySemantic_None in Hidx.
  destruct (decide (index = -1)) as [->|Hi].
  - destruct d; simpl in *;
      [rewrite resolveInput_next_index by done | rewrite resolveOutput_next_index by done];
      done.
  - destruct Hidx as [?|Hs]; [done |].
    destruct d; simpl in *;
      [rewrite resolveInput_explicit by done | rewrite resolveOutput_explicit by done];
      by rewrite Hs.
Qed.

(** [addInputParameter] and [addOutputParameter] at a taken binding. *)
Lemma addInputParameter_taken (p : Param) (m : Machine) :
  bindingTaken (mInputParameters (self m)) p ->
  addInputParameter p m = Thrown (equalSemantic Input p (self m)) m.
Proof.
  rewrite bindingTaken_lookup. intros Hb.
  unfold addInputParameter, bind, this. by rewrite bool_decide_eq_true_2.
Qed.

Lemma addOutputParameter_taken (p : Param) (m : Machine) :
  bindingTaken (mOutputParameters (self m)) p ->
  addOutputParameter p m = Thrown (equalSemantic Output p (self m)) m.
Proof.
  rewrite bindingTaken_lookup. intros Hb.
  unfold addOutputParameter, bind, this. by rewrite bool_decide_eq_true_2.
Qed.




(** C4, amended: [resolveOutputParameter] with the blend-weights or the
    blend-indices semantic registers nothing and makes nothing: whatever it
    answers, the function and the allocator are as before.  What the lookup
    by content finds is returned, and what it throws (the invalid-parameter
    exception of a type that cannot be derived) is thrown.  When the lookup
    by content finds nothing and, the index being explicit, the list holds
    a parameter with the requested content at the semantic and index, that
    parameter is returned if it has the requested type, and the type
    mismatch is thrown otherwise.  In the remaining case, where the lookup
    by content finds nothing and the index is -1 or the list holds no
    parameter with the requested content at the semantic and index (or the
    lookup by semantic and index finds one with another content), the
    exception of the unsupported semantic is thrown.  So the call returns a
    parameter that is already in the output list, or it throws an
    invalid-parameter exception. *)
Theorem resolveOutput_blend_semantics (semantic : Semantic) (index : Z)
    (content : Content) (type : GpuConstantType) (m : Machine) :
  semantic = SPS_BLEND_WEIGHTS \/ semantic = SPS_BLEND_INDICES ->
  ((exists p, p ∈ mOutputParameters (self m)
              /\ resolveOutputParameter semantic index content type m = Returned (Some p) m)
   \/ throwsInvalidParams (resolveOutputParameter semantic index content type m) m)
  /\ (missesByContent (mOutputParameters (self m)) content type ->
      (index = -1
       \/ forall q, q ∈ mOutputParameters (self m) ->
                    getSemantic q = semantic -> getIndex q = index ->
                    getContent q <> content) ->
      resolveOutputParameter semantic index content type m
      = Thrown (mkException ERR_INVALIDPARAMS
                  ("Can not resolve parameter - semantic: "
                     +:+ toString_int (semanticValue semantic)
                     +:+ " - index: "
                     +:+ toString_int (effectiveIndex (mOutputParameters (self m))
                                                      semantic index)
                     +:+ " since support in it is not implemented yet. Function <"
                     +:+ mName (self m) +:+ ">")
                  (Some "Function::resolveOutputParameter"))
               m)
  /\ (forall p,
        getParameterByContent (mOutputParameters (self m)) content type = Ok (Some p) ->
        resolveOutputParameter semantic index content type m = Returned (Some p) m)
  /\ (forall e,
        getParameterByContent (mOutputParameters (self m)) content type = Raise e ->
        e = cannotDerive
        /\ resolveOutputParameter semantic index content type m = Thrown e m)
  /\ (forall q,
        missesByContent (mOutputParameters (self m)) content type ->
        index <> -1 ->
        getParameterBySemantic (mOutputParameters (self m)) semantic index = Some q ->
        (getContent q = content ->
         resolveOutputParameter semantic index content type m
         = if bool_decide (getType q = type) then Returned (Some q) m
           else Thrown (mkException ERR_INVALIDPARAMS
                          ("Can not resolve parameter - semantic: "
                             +:+ toString_int (semanticValue semantic)
                             +:+ " - index: " +:+ toString_int index
                             +:+ " due to type mismatch. Function <"
                             +:+ mName (self m) +:+ ">")
                          (Some "Function::resolveOutputParameter"))
                       m)
        /\ (getContent q <> content ->
            resolveOutputParameter semantic index content type m
            = Thrown (mkException ERR_INVALIDPARAMS
                        ("Can not resolve parameter - semantic: "
                           +:+ toString_int (semanticValue semantic)
                           +:+ " - index: " +:+ toString_int index
                           +:+ " since support in it is not implemented yet. Function <"
                           +:+ mName (self m) +:+ ">")
                        (Some "Function::resolveOutputParameter"))
                     m)).
Proof.
  intros Hsem.
  assert (Hcreate : forall i param,
            createAndAddOutput semantic i content type param m
            = Thrown (notImplemented semantic i (self m)) m).
  { intros i param. by destruct Hsem as [-> | ->]. }
  split; [|split; [|split; [|split]]].
  - destruct (getParameterByContent (mOutputParameters (self m)) content type)
      as [[p|]|e] eqn:Hc.
    + left. exists p. split; [by eapply getParameterByContent_finds |].
      by apply (resolve_found_by_content Output).
    + destruct (decide (index = -1)) as [->|Hi].
      * right. rewrite resolveOutput_next_index, Hcreate by done. by eexists.
      * rewrite resolveOutput_explicit by done.
        destruct (getParameterBySemantic _ _ _) as [p|] eqn:Hp.
        -- apply getParameterBySemantic_Some in Hp as (Hin & _).
           repeat case_bool_decide.
           ++ left. by exists p.
           ++ right. by eexists.
           ++ right. rewrite Hcreate. by eexists.
        -- right. rewrite Hcreate. by eexists.
    + right.
      pose proof (resolve_lookup_throws Output semantic index _ _ _ _ Hc) as Hr.
      simpl in Hr. rewrite Hr.
      apply getParameterByContent_raises in Hc as ->. by eexists.
  - intros Hc Hidx.
    destruct (decide (index = -1)) as [->|Hi].
    + by rewrite resolveOutput_next_index, Hcreate.
    + destruct Hidx as [?|Hno]; [done |].
      unfold effectiveIndex. rewrite (bool_decide_eq_false_2 (index = -1)) by done.
      rewrite resolveOutput_explicit by done.
      destruct (getParameterBySemantic _ _ _) as [p|] eqn:Hp; [|by rewrite Hcreate].
      apply getParameterBySemantic_Some in Hp as (Hin & Hps & Hpi).
      rewrite bool_decide_eq_false_2 by auto. by rewrite Hcreate.
  - intros p Hc. by apply (resolve_found_by_content Output).
  - intros e Hc. split; [by eapply getParameterByContent_raises |].
    by apply (resolve_lookup_throws Output).
  - intros q Hc Hi Hq. rewrite resolveOutput_explicit by done. rewrite Hq.
    split; intros Hqc.
    + by rewrite bool_decide_eq_true_2.
    + rewrite bool_decide_eq_false_2 by done. by rewrite Hcreate.
Qed.

End Resolve.

(** ** Runs *)

(** The derivation table at a content it does not list. *)
Lemma type_derived_from_content_witness :
  (SPC_OTHER 0 ∉ (float4Contents ++ float3Contents ++ float1Contents))
  /\ underivable (SPC_OTHER 0)
  /\ underivable SPC_UNKNOWN.
Proof.
  destruct type_derived_from_content as (_ & _ & _ & Hrest).
  assert (H0 : SPC_OTHER 0 ∉ (float4Contents ++ float3Contents ++ float1Contents))
    by (vm_compute; set_solver).
  assert (H1 : SPC_UNKNOWN ∉ (float4Contents ++ float3Contents ++ float1Contents))
    by (vm_compute; set_solver).
  split; [exact H0 |].
  split; [exact (proj1 (Hrest _ H0)) | exact (proj1 (Hrest _ H1))].
Defined.

(** The unknown semantic on a new function. *)
Lemma resolve_unknown_semantic_is_empty_witness :
  resolveOutputParameter (env := canonicalExternals false)
    SPS_UNKNOWN 3 SPC_COLOR_DIFFUSE GCT_UNKNOWN (freshMachine "main" "entry" (FunctionTypeTag 0))
  = Returned None (freshMachine "main" "entry" (FunctionTypeTag 0)).
Proof.
  apply (resolve_unknown_semantic_is_empty (env := canonicalExternals false) Output
           3 SPC_COLOR_DIFFUSE GCT_UNKNOWN (freshMachine "main" "entry" (FunctionTypeTag 0)));
    [reflexivity | right; intros q Hq; inversion Hq].
Defined.

(** C9, as stated, fails: a caller registers an input parameter of unknown
    semantic at index 0; a request with the unknown semantic, that index,
    the same content and another type finds no parameter with the content
    and type, and throws the type mismatch instead of returning the empty
    pointer. *)
Lemma unknown_semantic_can_throw :
  makeAndAdd Input customArgs (freshMachine "main" "entry" (FunctionTypeTag 0))
  = Returned tt (machineOf 1 [objectAt 0 customArgs] [])
  /\ missesByContent (mInputParameters (self (machineOf 1 [objectAt 0 customArgs] [])))
                     (SPC_OTHER 1) GCT_FLOAT4
  /\ resolveInputParameter (env := canonicalExternals false)
       SPS_UNKNOWN 0 (SPC_OTHER 1) GCT_FLOAT4 (machineOf 1 [objectAt 0 customArgs] [])
     = Thrown (mkException ERR_INVALIDPARAMS
                 "Can not resolve parameter - semantic: 0 - index: 0 due to type mismatch. Function <main>"
                 (Some "Function::resolveInputParameter"))
              (machineOf 1 [objectAt 0 customArgs] [])
  /\ resolveInputParameter (env := canonicalExternals false)
       SPS_UNKNOWN 0 (SPC_OTHER 1) GCT_FLOAT4 (machineOf 1 [objectAt 0 customArgs] [])
     <> Returned None (machineOf 1 [objectAt 0 customArgs] []).
Proof. repeat split; try reflexivity. vm_compute. discriminate. Qed.

(** The blend-weights semantic on a new function. *)
Lemma resolveOutput_blend_semantics_witness :
  resolveOutputParameter (env := canonicalExternals false)
    SPS_BLEND_WEIGHTS (-1) SPC_UNKNOWN GCT_FLOAT4 (freshMachine "main" "entry" (FunctionTypeTag 0))
  = Thrown (mkException ERR_INVALIDPARAMS
              "Can not resolve parameter - semantic: 2 - index: 0 since support in it is not implemented yet. Function <main>"
              (Some "Function::resolveOutputParameter"))
           (freshMachine "main" "entry" (FunctionTypeTag 0)).
Proof.
  apply (proj1 (proj2 (resolveOutput_blend_semantics (env := canonicalExternals false)
                         SPS_BLEND_WEIGHTS (-1) SPC_UNKNOWN GCT_FLOAT4
                         (freshMachine "main" "entry" (FunctionTypeTag 0))
                         (or_introl eq_refl))));
    [reflexivity | by left].
Defined.

(** C4, as stated, fails: once an output parameter with the diffuse color
    content and a 4-component type is registered, a request for blend
    weights with that content and type returns it. *)
Lemma blend_weights_can_return :
  makeAndAdd Output diffuseArgs (freshMachine "main" "entry" (FunctionTypeTag 0))
  = Returned tt (machineOf 1 [] [objectAt 0 diffuseArgs])
  /\ resolveOutputParameter (env := canonicalExternals false)
       SPS_BLEND_WEIGHTS 0 SPC_COLOR_DIFFUSE GCT_FLOAT4
       (machineOf 1 [] [objectAt 0 diffuseArgs])
     = Returned (Some (objectAt 0 diffuseArgs)) (machineOf 1 [] [objectAt 0 diffuseArgs])
  /\ ~ throwsInvalidParams
         (resolveOutputParameter (env := canonicalExternals false)
            SPS_BLEND_WEIGHTS 0 SPC_COLOR_DIFFUSE GCT_FLOAT4
            (machineOf 1 [] [objectAt 0 diffuseArgs]))
         (machineOf 1 [] [objectAt 0 diffuseArgs]).
Proof.
  repeat split; try reflexivity.
  intros (e & He & _). vm_compute in He. discriminate.
Qed.

(** ** What a call may change *)

Section Steps.
Context {R : Machine -> Machine -> Prop} `{!PreOrder R}.

Lemma steps_ret {A} (a : A) : steps R (ret a).
Proof. intros m. simpl. reflexivity. Qed.

Lemma steps_bind {A B} (c : M A) (k : A -> M B) :
  steps R c -> (forall a, steps R (k a)) -> steps R (bind c k).
Proof.
  intros Hc Hk m. unfold bind. specialize (Hc m).
  destruct (c m) as [a m'| |]; [|done..].
  specialize (Hk a m'). destruct (k a m'); [| |done]; by etrans.
Qed.

Lemma steps_OGRE_EXCEPT {A} code desc src : steps R (@OGRE_EXCEPT A code desc src).
Proof. intros m. simpl. reflexivity. Qed.

Lemma steps_liftE {A} (r : Except A) : steps R (liftE r).
Proof. intros m. unfold liftE. destruct r; reflexivity. Qed.

Lemma steps_this : steps R this.
Proof. intros m. simpl. reflexivity. Qed.

Lemma steps_assert `{env : Externals} (b : bool) : steps R (assert_ b).
Proof. intros m. unfold assert_. destruct NDEBUG, b; simpl; done. Qed.

Lemma steps_modify (f : Function -> Function) :
  (forall m, R m (mkMachine (nextAddr m) (f (self m)))) -> steps R (modify f).
Proof. intros Hf m. apply Hf. Qed.

Lemma steps_new_Parameter (a : ParameterArgs) :
  (forall m, R m (allocated m)) -> steps R (new_Parameter a).
Proof. intros Hf m. apply Hf. Qed.

Lemma steps_new_FunctionAtom kind g operands :
  (forall m, R m (allocated m)) -> steps R (new_FunctionAtom kind g operands).
Proof. intros Hf m. apply Hf. Qed.

End Steps.

(** Takes a member function apart along its binds and branches. *)
Ltac steps_structure :=
  repeat match goal with
  | |- steps _ (ret _) => apply steps_ret
  | |- steps _ (OGRE_EXCEPT _ _ _) => apply steps_OGRE_EXCEPT
  | |- steps _ (liftE _) => apply steps_liftE
  | |- steps _ this => apply steps_this
  | |- steps _ (assert_ _) => apply steps_assert
  | |- steps _ (bind _ _) => apply steps_bind; [| intros ?]
  | |- steps _ (if ?b then _ else _) => destruct b
  | |- steps _ (match ?x with _ => _ end) => destruct x
  end.

#[global] Instance localsGrow_preorder : PreOrder localsGrow.
Proof.
  split; [intros m; unfold localsGrow; reflexivity |].
  intros m1 m2 m3; unfold localsGrow; apply transitivity.
Qed.

#[global] Instance atomsKept_preorder : PreOrder atomsKept.
Proof.
  split; [by intros m |].
  intros m1 m2 m3 [? ?] [? ?]. split; congruence.
Qed.

Lemma deleteParameter_sublist (l : list Param) (parameter : option Param) :
  deleteParameter l parameter `sublist_of` l.
Proof.
  induction l as [|q l IH]; cbn [deleteParameter]; [done |].
  destruct (ptr_eqb (Some q) parameter).
  - apply sublist_cons. reflexivity.
  - by apply sublist_skip.
Qed.

(** The two adds, for a preorder that allows a push at the back of a list. *)
Section Adds.
Context {R : Machine -> Machine -> Prop} `{!PreOrder R}.
Hypothesis R_pushed : forall which p m, R m (pushed which p m).

Lemma steps_addParameter which p : steps R (addParameter which p).
Proof.
  unfold addParameter. steps_structure.
  apply steps_modify. intros m. apply R_pushed.
Qed.

Lemma steps_addInputParameter p : steps R (addInputParameter p).
Proof. unfold addInputParameter. steps_structure. apply steps_addParameter. Qed.

Lemma steps_addOutputParameter p : steps R (addOutputParameter p).
Proof. unfold addOutputParameter. steps_structure. apply steps_addParameter. Qed.

End Adds.

(** The member functions that work on the parameter lists relate the
    machines before and after by any preorder that allows an allocation, the
    two adds, a push at the back of the local list, and to take parameters
    out of the input or of the output list. *)
Section ParameterCalls.
Context `{env : Externals} {R : Machine -> Machine -> Prop} `{!PreOrder R}.
Hypothesis R_allocated : forall m, R m (allocated m).
Hypothesis R_addInput : forall p, steps R (addInputParameter p).
Hypothesis R_addOutput : forall p, steps R (addOutputParameter p).
Hypothesis R_local : forall p m, R m (pushed LocalList p m).
Hypothesis R_inputs :
  forall l m, l `sublist_of` mInputParameters (self m) ->
              R m (mkMachine (nextAddr m) (set_mInputParameters l (self m))).
Hypothesis R_outputs :
  forall l m, l `sublist_of` mOutputParameters (self m) ->
              R m (mkMachine (nextAddr m) (set_mOutputParameters l (self m))).

Lemma steps_addLocal p : steps R (addParameter LocalList p).
Proof.
  unfold addParameter. steps_structure.
  apply steps_modify. intros m. apply R_local.
Qed.

Lemma steps_fromFactory a : steps R (fromFactory a).
Proof. unfold fromFactory. steps_structure. by apply steps_new_Parameter. Qed.

Lemma steps_resolveInputParameter s i c t : steps R (resolveInputParameter s i c t).
Proof.
  unfold resolveInputParameter, createAndAddInput, createInputBySemantic.
  steps_structure; first [apply steps_fromFactory | apply R_addInput].
Qed.

Lemma steps_resolveOutputParameter s i c t : steps R (resolveOutputParameter s i c t).
Proof.
  unfold resolveOutputParameter, createAndAddOutput, createOutputBySemantic.
  steps_structure; first [apply steps_fromFactory | apply R_addOutput].
Qed.

Lemma steps_resolveLocalParameter_name s i n t :
  steps R (resolveLocalParameter_name s i n t).
Proof.
  unfold resolveLocalParameter_name. steps_structure;
    first [by apply steps_new_Parameter | apply steps_addLocal].
Qed.

Lemma steps_resolveLocalParameter_content s i c t :
  steps R (resolveLocalParameter_content s i c t).
Proof.
  unfold resolveLocalParameter_content. steps_structure;
    first [by apply steps_new_Parameter | apply steps_addLocal].
Qed.

(** The calls that work on the parameter lists. *)
Lemma steps_parameter_call (c : Call) :
  match c with
  | CallAddAtomInstance _ | CallAddAtomAssign _ _ _
  | CallStageCallFunction _ _ _ | CallStageSampleTexture _ _ | CallStageAssign _ _
  | CallDeleteAtomInstance _ | CallGetAtomInstances => True
  | _ => steps R (call c)
  end.
Proof.
  destruct c; simpl; try exact I.
  - steps_structure. apply steps_resolveInputParameter.
  - steps_structure. apply steps_resolveOutputParameter.
  - steps_structure. apply steps_resolveLocalParameter_name.
  - steps_structure. apply steps_resolveLocalParameter_content.
  - apply R_addInput.
  - apply R_addOutput.
  - apply steps_modify. intros m. apply R_inputs, deleteParameter_sublist.
  - apply steps_modify. intros m. apply R_outputs, deleteParameter_sublist.
  - apply steps_modify. intros m. apply R_inputs, sublist_nil_l.
  - apply steps_modify. intros m. apply R_outputs, sublist_nil_l.
  - unfold getFunctionType. steps_structure.
Qed.

(** The calls that work on the atom container, for a preorder that allows
    any change of the container and its cache. *)
Hypothesis R_atoms :
  forall a s m,
    R m (mkMachine (nextAddr m)
           (set_mSortedAtomInstances s (set_mAtomInstances a (self m)))).

Lemma steps_call (c : Call) : steps R (call c).
Proof.
  assert (Hparam := steps_parameter_call c).
  assert (Hmap : forall a m, R m (mkMachine (nextAddr m) (set_mAtomInstances a (self m)))).
  { intros a m.
    pose proof (R_atoms a (mSortedAtomInstances (self m)) m) as Hr.
    by destruct m as [n []]. }
  assert (Hcache : forall s m,
            R m (mkMachine (nextAddr m) (set_mSortedAtomInstances s (self m)))).
  { intros s m.
    pose proof (R_atoms (mAtomInstances (self m)) s m) as Hr.
    by destruct m as [n []]. }
  assert (Hadd : forall a, steps R (addAtomInstance a)).
  { intros a. apply steps_modify. intros m. apply R_atoms. }
  assert (Hnew : forall kind g ops,
            steps R (bind (new_FunctionAtom kind g ops) addAtomInstance)).
  { intros kind g ops. apply steps_bind; [by apply steps_new_FunctionAtom | done]. }
  destruct c; try exact Hparam; clear Hparam; cbn [call].
  - apply Hadd.
  - apply Hnew.
  - apply Hnew.
  - apply Hnew.
  - apply Hnew.
  - unfold deleteAtomInstance. steps_structure; apply steps_modify; intros m;
      [apply R_atoms | apply Hmap].
  - unfold getAtomInstances. steps_structure. apply steps_modify. intros m. apply Hcache.
Qed.

End ParameterCalls.

(** ** One parameter for a semantic and index *)

#[global] Instance keepsBindings_preorder : PreOrder keepsBindings.
Proof.
  split; [intros m; unfold keepsBindings; tauto |].
  intros m1 m2 m3. unfold keepsBindings. tauto.
Qed.

Lemma bindingsUnique_sublist (l l' : list Param) :
  l' `sublist_of` l -> bindingsUnique l -> bindingsUnique l'.
Proof.
  unfold bindingsUnique. intros Hs Hl.
  eapply sublist_NoDup; [exact Hl |]. by apply fmap_sublist.
Qed.

Lemma bindingsUnique_push (l : list Param) (p : Param) :
  ~ bindingTaken l p -> bindingsUnique l -> bindingsUnique (l ++ [p]).
Proof.
  unfold bindingsUnique. intros Hfree Hl.
  rewrite fmap_app. apply NoDup_app. split; [done |]. split.
  - intros b (q & -> & Hq)%list_elem_of_fmap [= Hs Hi]%list_elem_of_singleton.
    apply Hfree. by exists q.
  - apply NoDup_singleton.
Qed.

(** Where the bindings are unique, the lookup by semantic and index finds
    the parameter that has them. *)
Lemma getParameterBySemantic_unique (l : list Param) (p : Param) :
  bindingsUnique l -> p ∈ l ->
  getParameterBySemantic l (getSemantic p) (getIndex p) = Some p.
Proof.
  unfold bindingsUnique. induction l as [|q l IH]; intros Hl Hp; [by inversion Hp |].
  rewrite fmap_cons in Hl. apply NoDup_cons in Hl as [Hq Hl].
  cbn [getParameterBySemantic].
  apply elem_of_cons in Hp as [->|Hp].
  - by rewrite !bool_decide_eq_true_2.
  - destruct (bool_decide (getSemantic q = getSemantic p)) eqn:Hs;
      destruct (bool_decide (getIndex q = getIndex p)) eqn:Hi; simpl; auto.
    reflect_tests. exfalso. apply Hq.
    apply list_elem_of_fmap. exists p. split; [|done].
    unfold binding. by rewrite Hs, Hi.
Qed.

Lemma keepsBindings_same (m : Machine) (f : Function) (n : nat) :
  mInputParameters f = mInputParameters (self m) ->
  mOutputParameters f = mOutputParameters (self m) ->
  keepsBindings m (mkMachine n f).
Proof. intros Hi Ho. unfold keepsBindings, wellBound. simpl. by rewrite Hi, Ho. Qed.

Lemma keepsBindings_addInputParameter (p : Param) :
  steps keepsBindings (addInputParameter p).
Proof.
  intros m.
  destruct (addInputParameter_outcome p m) as [[_ (e & -> & _)]|[Hfree ->]]; [done |].
  intros [Hi Ho]. split; [|done]. simpl.
  apply bindingsUnique_push; [tauto | done].
Qed.

Lemma keepsBindings_addOutputParameter (p : Param) :
  steps keepsBindings (addOutputParameter p).
Proof.
  intros m.
  destruct (addOutputParameter_outcome p m) as [[_ (e & -> & _)]|[Hfree ->]]; [done |].
  intros [Hi Ho]. split; [done |]. simpl.
  apply bindingsUnique_push; [tauto | done].
Qed.

Section Bindings.
Context `{env : Externals}.

(** Every call keeps the bindings of the inputs, and of the outputs,
    unique. *)
Lemma keepsBindings_call (c : Call) : steps keepsBindings (call c).
Proof.
  apply steps_call; try (by intros; apply keepsBindings_same).
  - apply keepsBindings_addInputParameter.
  - apply keepsBindings_addOutputParameter.
  - intros l m Hl [Hi Ho]. split; [|done]. simpl. by eapply bindingsUnique_sublist.
  - intros l m Hl [Hi Ho]. split; [done |]. simpl. by eapply bindingsUnique_sublist.
Qed.

(** A function reached by calls from a new one has them unique. *)
Lemma wellBound_run (cs : list Call) (m m' : Machine) :
  wellBound m -> run cs m = Some m' -> wellBound m'.
Proof.
  revert m. induction cs as [|c cs IH]; intros m Hm Hrun; simpl in Hrun.
  - by simplify_eq.
  - pose proof (keepsBindings_call c m) as Hstep.
    destruct (call c m) as [[] m1|e m1|]; simpl in Hrun; [| |done];
      (eapply IH; [by apply Hstep | done]).
Qed.

Lemma wellBound_fresh name desc functionType :
  wellBound (freshMachine name desc functionType).
Proof. split; apply NoDup_nil; done. Qed.

End Bindings.

(** ** Requests at the index of a registered parameter *)

(** C5: on a function reached by calls from a new one, when the lookup by
    content finds nothing and the list holds, at the requested semantic and
    explicit index, a parameter with the requested content, the resolve
    function of either direction returns that parameter if its type is the
    requested type, and otherwise throws an invalid-parameter exception
    whose message has the number of the semantic, the index and the name of
    the function; nothing changes. *)
Theorem resolve_same_content_at_index `{env : Externals} (d : Direction)
    (cs : list Call) (name desc : string) (functionType : FunctionType) (m : Machine)
    (semantic : Semantic) (index : Z) (content : Content) (type : GpuConstantType)
    (p : Param) :
  run cs (freshMachine name desc functionType) = Some m ->
  index <> -1 ->
  missesByContent (parametersOf d (self m)) content type ->
  p ∈ parametersOf d (self m) ->
  getSemantic p = semantic -> getIndex p = index -> getContent p = content ->
  (getType p = type ->
     resolveParameter d semantic index content type m = Returned (Some p) m)
  /\ (getType p <> type ->
     resolveParameter d semantic index content type m
     = Thrown (mkException ERR_INVALIDPARAMS
                 ("Can not resolve parameter - semantic: "
                    +:+ toString_int (semanticValue semantic)
                    +:+ " - index: " +:+ toString_int index
                    +:+ " due to type mismatch. Function <" +:+ mName (self m) +:+ ">")
                 (Some (resolveName d)))
              m).
Proof.
  intros Hrun Hi Hmiss Hp Hs Hx Hc.
  apply resolve_at_index_same_content; try done.
  rewrite <- Hs, <- Hx. apply getParameterBySemantic_unique; [|done].
  pose proof (wellBound_run cs _ m (wellBound_fresh name desc functionType) Hrun)
    as [Hin Hout].
  by destruct d.
Qed.


(** A texture coordinate registered with a 2-component type, asked for with
    the same content and a 3-component type at its index. *)
Lemma resolve_same_content_at_index_witness :
  resolveInputParameter (env := canonicalExternals false)
    SPS_TEXTURE_COORDINATES 0 (SPC_OTHER 0) GCT_FLOAT3
    (machineOf 1 [objectAt 0 texcoordArgs] [])
  = Thrown (mkException ERR_INVALIDPARAMS
              "Can not resolve parameter - semantic: 6 - index: 0 due to type mismatch. Function <main>"
              (Some "Function::resolveInputParameter"))
           (machineOf 1 [objectAt 0 texcoordArgs] []).
Proof.
  apply (resolve_same_content_at_index (env := canonicalExternals false) Input
           [CallResolveInputParameter SPS_TEXTURE_COORDINATES (-1) (SPC_OTHER 0) GCT_FLOAT2]
           "main" "entry" (FunctionTypeTag 0)
           (machineOf 1 [objectAt 0 texcoordArgs] [])
           SPS_TEXTURE_COORDINATES 0 (SPC_OTHER 0) GCT_FLOAT3 (objectAt 0 texcoordArgs));
    [reflexivity | done | reflexivity | by left | reflexivity | reflexivity
    | reflexivity | done].
Defined.



Section LocalsGrow.
Context `{env : Externals}.

(** No call of a public member function takes a local parameter away. *)
Lemma localsGrow_call (c : Call) : steps localsGrow (call c).
Proof.
  assert (Hsame : forall m f, mLocalParameters f = mLocalParameters (self m) ->
                              localsGrow m (mkMachine (nextAddr m) f)).
  { intros m f Hf. unfold localsGrow. simpl. by rewrite Hf. }
  assert (Hpushed : forall which p m, localsGrow m (pushed which p m)).
  { intros [] p m; unfold localsGrow; simpl; [done | done | by apply prefix_app_r]. }
  apply steps_call; try (by intros; apply Hsame).
  - intros p. by apply steps_addInputParameter.
  - intros p. by apply steps_addOutputParameter.
  - intros p m. apply Hpushed.
Qed.

End LocalsGrow.

(** ** Local parameters resolved by content *)

Lemma effectiveType_known (content : Content) (type t : GpuConstantType) :
  effectiveType content type = Ok t -> t <> GCT_UNKNOWN.
Proof.
  unfold effectiveType. case_bool_decide.
  - destruct content; simpl; congruence.
  - congruence.
Qed.

(** A request that finds no local parameter makes one, named after the
    number of local parameters, and registers it unless the name is that of
    an input or output parameter. *)
Lemma resolveLocalParameter_content_creates (semantic : Semantic) (index : Z)
    (content : Content) (type t : GpuConstantType) (m : Machine) :
  effectiveType content type = Ok t ->
  missesByContent (mLocalParameters (self m)) content t ->
  let p := mkParameter (nextAddr m) t
             ("lLocalParam_" +:+ toString_size_t (length (mLocalParameters (self m))))
             semantic index content in
  (~ nameTaken (self m) p ->
     resolveLocalParameter_content semantic index content type m
     = Returned (Some p) (pushed LocalList p (allocated m)))
  /\ (nameTaken (self m) p ->
     throwsInvalidParams (resolveLocalParameter_content semantic index content type m)
                         (allocated m)).
Proof.
  intros Ht Hmiss p.
  assert (Hrun : resolveLocalParameter_content semantic index content type m
                 = bind (addParameter LocalList p) (fun _ => ret (Some p)) (allocated m)).
  { unfold resolveLocalParameter_content, bind at 1.
    unfold effectiveType in Ht.
    destruct (bool_decide (type = GCT_UNKNOWN)); simpl.
    - unfold liftE at 1. rewrite Ht. unfold bind at 1 2, this, liftE.
      by rewrite Hmiss.
    - injection Ht as ->. unfold bind at 1 2, this, liftE. by rewrite Hmiss. }
  rewrite Hrun. unfold bind.
  destruct (addParameter_outcome LocalList p (allocated m))
    as [[Hn (e & -> & He)]|[Hn ->]].
  - split; [done |]. intros _. by exists e.
  - split; [done |]. intros Hn'. by destruct Hn.
Qed.

(** C8: when [resolveLocalParameter] by content finds no local parameter
    with the content and type, the parameter it makes is named
    [lLocalParam_<n>], [n] being the number of local parameters, and is
    pushed at the back of the local list (the add throws if an input or
    output parameter has that name); no call of a public member function
    takes a local parameter away, so the count never goes down and a later
    request counts higher; and on a new function the first such call makes
    [lLocalParam_0] and a second one, for another content or type, makes
    [lLocalParam_1]. *)
Theorem local_parameter_names :
  (forall semantic index content type t m,
     effectiveType content type = Ok t ->
     missesByContent (mLocalParameters (self m)) content t ->
     let p := mkParameter (nextAddr m) t
                ("lLocalParam_" +:+ toString_size_t (length (mLocalParameters (self m))))
                semantic index content in
     (~ nameTaken (self m) p ->
        resolveLocalParameter_content semantic index content type m
        = Returned (Some p) (pushed LocalList p (allocated m))
        /\ length (mLocalParameters (self (pushed LocalList p (allocated m))))
           = S (length (mLocalParameters (self m))))
     /\ (nameTaken (self m) p ->
        throwsInvalidParams (resolveLocalParameter_content semantic index content type m)
                            (allocated m)))
  /\ (forall (env : Externals) (c : Call) m m',
        after (call c m) = Some m' ->
        mLocalParameters (self m) `prefix_of` mLocalParameters (self m')
        /\ (length (mLocalParameters (self m)) <= length (mLocalParameters (self m')))%nat)
  /\ (forall name desc functionType semantic index content type t
             semantic' index' content' type' t',
        effectiveType content type = Ok t ->
        effectiveType content' type' = Ok t' ->
        content' = SPC_UNKNOWN \/ content' <> content \/ t' <> t ->
        exists p0 m1 p1 m2,
          resolveLocalParameter_content semantic index content type
            (freshMachine name desc functionType) = Returned (Some p0) m1
          /\ getName p0 = "lLocalParam_0" /\ getType p0 = t
          /\ resolveLocalParameter_content semantic' index' content' type' m1
             = Returned (Some p1) m2
          /\ getName p1 = "lLocalParam_1" /\ getType p1 = t'
          /\ mLocalParameters (self m2) = [p0; p1]).
Proof.
  split; [|split].
  - intros semantic index content type t m Ht Hmiss p.
    destruct (resolveLocalParameter_content_creates semantic index content type t m Ht Hmiss)
      as [Hok Hthrow].
    split; [|done].
    intros Hn. split; [by apply Hok |].
    simpl. rewrite length_app. simpl. lia.
  - intros env c m m' Hafter.
    pose proof (localsGrow_call c m) as Hg.
    assert (Hp : localsGrow m m').
    { destruct (call c m); simpl in Hafter; by simplify_eq. }
    split; [done | by apply prefix_length].
  - intros name desc functionType semantic index content type t
           semantic' index' content' type' t' Ht Ht' Hother.
    set (m0 := freshMachine name desc functionType).
    destruct (resolveLocalParameter_content_creates semantic index content type t m0 Ht)
      as [Hok0 _].
    { unfold missesByContent, getParameterByContent.
      rewrite bool_decide_eq_false_2 by (by eapply effectiveType_known).
      by case_bool_decide. }
    simpl in Hok0.
    set (p0 := mkParameter 0 t "lLocalParam_0" semantic index content) in *.
    set (m1 := pushed LocalList p0 (allocated m0)) in *.
    destruct (resolveLocalParameter_content_creates semantic' index' content' type' t' m1 Ht')
      as [Hok1 _].
    { unfold missesByContent, getParameterByContent.
      rewrite bool_decide_eq_false_2 by (by eapply effectiveType_known).
      case_bool_decide as Hk; [|done]. f_equal. simpl.
      destruct Hother as [?|[?|?]]; [done | |].
      - by rewrite bool_decide_eq_false_2 by congruence.
      - rewrite (bool_decide_eq_false_2 (t = t')) by congruence.
        by rewrite andb_false_r. }
    simpl in Hok1.
    eexists p0, m1, _, _.
    split; [apply Hok0; by intros (q & [Hq|Hq] & _); inversion Hq |].
    split; [done |]. split; [done |].
    split; [apply Hok1; by intros (q & [Hq|Hq] & _); inversion Hq |].
    done.
Qed.

(** The scenario of the diffuse color with an unknown type, on a function
    with no parameters. *)
Lemma local_parameter_names_witness :
  resolveLocalParameter_content SPS_UNKNOWN 0 SPC_COLOR_DIFFUSE GCT_UNKNOWN
    (freshMachine "main" "entry" (FunctionTypeTag 0))
  = Returned
      (Some (mkParameter 0 GCT_FLOAT4 "lLocalParam_0" SPS_UNKNOWN 0 SPC_COLOR_DIFFUSE))
      (pushed LocalList
         (mkParameter 0 GCT_FLOAT4 "lLocalParam_0" SPS_UNKNOWN 0 SPC_COLOR_DIFFUSE)
         (allocated (freshMachine "main" "entry" (FunctionTypeTag 0)))).
Proof.
  apply (proj1 local_parameter_names SPS_UNKNOWN 0 SPC_COLOR_DIFFUSE GCT_UNKNOWN GCT_FLOAT4
           (freshMachine "main" "entry" (FunctionTypeTag 0)));
    [reflexivity | reflexivity |].
  by intros (q & [Hq|Hq] & _); inversion Hq.
Defined.

(** ** Resolving the same request again *)

#[global] Instance selfKept_preorder : PreOrder selfKept.
Proof.
  split; [by intros m |].
  intros m1 m2 m3. unfold selfKept. congruence.
Qed.

Lemma getParameterBySemantic_last (l : list Param) (p : Param)
    (semantic : Semantic) (index : Z) :
  getSemantic p = semantic -> getIndex p = index ->
  getParameterBySemantic l semantic index = None ->
  getParameterBySemantic (l ++ [p]) semantic index = Some p.
Proof.
  intros Hs Hi. induction l as [|q l IH]; simpl.
  - intros _. by rewrite !bool_decide_eq_true_2.
  - destruct (_ && _); [done | apply IH].
Qed.

Lemma bindingTaken_lookup_None (l : list Param) (p : Param) :
  ~ bindingTaken l p -> getParameterBySemantic l (getSemantic p) (getIndex p) = None.
Proof.
  rewrite bindingTaken_lookup.
  destruct (getParameterBySemantic _ _ _); [|done].
  intros Hno. by destruct Hno.
Qed.

Section Again.
Context `{env : Externals}.

Lemma selfKept_createInputBySemantic s i c t param :
  steps selfKept (createInputBySemantic s i c t param).
Proof.
  unfold createInputBySemantic, fromFactory. steps_structure;
    by apply steps_new_Parameter.
Qed.


Lemma getParameterByContent_answer (l : ShaderParameterList) (p : Param)
    (content : Content) (type : GpuConstantType) :
  answers p content type ->
  getParameterByContent l content type = Ok None ->
  getParameterByContent (l ++ [p]) content type = Ok (Some p).
Proof.
  intros (Hk & Hc & Ht). unfold getParameterByContent.
  fold (effectiveType content type). rewrite Ht.
  rewrite bool_decide_eq_true_2 by done.
  intros [= Hnone]. rewrite findByContent_app, Hnone. simpl.
  by rewrite !bool_decide_eq_true_2.
Qed.




(** What the creating half returns, coming from an empty pointer, is an
    object made at the next address. *)
Lemma createAndAddInput_new s i c t (m m1 : Machine) (p : Param) :
  createAndAddInput s i c t None m = Returned (Some p) m1 ->
  paramAddr p = nextAddr m /\ nextAddr m1 = S (nextAddr m).
Proof.
  unfold createAndAddInput, bind at 1.
  assert (Hnew : forall a r m',
            fromFactory a m = Returned (Some r) m' ->
            paramAddr r = nextAddr m /\ m' = allocated m).
  { intros [a|] r m'; simpl; unfold bind, new_Parameter, ret; [|done].
    by intros [= <- <-]. }
  assert (Hassert : forall b m', assert_ b m = Returned tt m' -> m' = m).
  { intros b m'. unfold assert_. destruct NDEBUG, b; simpl; congruence. }
  destruct (createInputBySemantic s i c t None m) as [[p'|] m'| |] eqn:Hc; [| done..].
  assert (paramAddr p' = nextAddr m /\ m' = allocated m) as [Ha ->].
  { destruct s; simpl in Hc; unfold bind in Hc; try done;
      try (destruct (assert_ _ m) as [[] m0| |] eqn:Hb; [|done..];
           apply Hassert in Hb as ->);
      by eapply Hnew. }
  unfold bind, ret.
  destruct (addInputParameter_outcome p' (allocated m)) as [[_ (e & -> & _)]|[_ ->]];
    [done |].
  by intros [= <- <-].
Qed.

(** With the unknown content and index -1, whatever the factory, two equal
    calls that return parameters return two objects. *)
Lemma resolveInput_unknown_content_twice (semantic : Semantic) (type : GpuConstantType)
    (m m1 m2 : Machine) (p q : Param) :
  resolveInputParameter semantic (-1) SPC_UNKNOWN type m = Returned (Some p) m1 ->
  resolveInputParameter semantic (-1) SPC_UNKNOWN type m1 = Returned (Some q) m2 ->
  ptr_eqb (Some p) (Some q) = false.
Proof.
  intros Hp Hq.
  assert (Hlook : forall l, getParameterByContent l SPC_UNKNOWN type
                            = if bool_decide (type = GCT_UNKNOWN)
                              then Raise cannotDerive else Ok None).
  { intros l. unfold getParameterByContent. by destruct (bool_decide (type = GCT_UNKNOWN)). }
  destruct (bool_decide (type = GCT_UNKNOWN)) eqn:Ht.
  - pose proof (resolve_lookup_throws Input semantic (-1) _ _ m _ (Hlook _)) as Hr.
    simpl in Hr. by rewrite Hr in Hp.
  - rewrite resolveInput_next_index in Hp, Hq by apply Hlook.
    apply createAndAddInput_new in Hp as [Hpa Hn], Hq as [Hqa _].
    simpl. apply bool_decide_eq_false_2. lia.
Qed.






End Again.



(** ** Indices given out for index -1 *)

Lemma wrap_int_small (z : Z) : - 2 ^ 31 <= z <= INT_MAX -> wrap_int z = z.
Proof.
  unfold wrap_int, INT_MAX. intros Hz.
  rewrite Z.mod_small by lia. lia.
Qed.

Lemma countSemantic_cons (p : Param) (l : ShaderParameterList) (semantic : Semantic) :
  countSemantic (p :: l) semantic
  = if bool_decide (getSemantic p = semantic)
    then S (countSemantic l semantic) else countSemantic l semantic.
Proof.
  unfold countSemantic. case_bool_decide.
  - by rewrite filter_cons_True.
  - by rewrite filter_cons_False.
Qed.


(** The counting loop counts, as long as the count fits an [int]. *)
Lemma nextIndex_count (l : ShaderParameterList) (semantic : Semantic) (index : Z) :
  0 <= index ->
  index + Z.of_nat (countSemantic l semantic) <= INT_MAX ->
  nextIndex l semantic index = index + Z.of_nat (countSemantic l semantic).
Proof.
  revert index. induction l as [|p l IH]; intros index H0 Hmax; simpl.
  - unfold countSemantic. simpl. lia.
  - rewrite countSemantic_cons in *. case_bool_decide.
    + rewrite wrap_int_small by (unfold INT_MAX in *; lia).
      rewrite IH by lia. lia.
    + by rewrite IH.
Qed.

Section NextIndex.
Context `{env : Externals}.







End NextIndex.



(** ** The atom container *)

Lemma at_key_keys (m : list (Z * list FunctionAtom)) (k : Z) f (k' : Z) :
  k' ∈ fst <$> at_key m k f <-> k' = k \/ k' ∈ fst <$> m.
Proof.
  induction m as [|[k0 b] m IH]; simpl.
  - set_solver.
  - destruct (k <? k0) eqn:Hlt; [set_solver |].
    destruct (k =? k0) eqn:Heq.
    + apply Z.eqb_eq in Heq as ->. set_solver.
    + rewrite fmap_cons, !elem_of_cons, IH. simpl. tauto.
Qed.

Lemma at_key_keysAscend (m : list (Z * list FunctionAtom)) (k : Z) f :
  keysAscend m -> keysAscend (at_key m k f).
Proof.
  unfold keysAscend. induction m as [|[k0 b] m IH]; simpl; intros Hs.
  - by repeat constructor.
  - apply StronglySorted_inv in Hs as [Hm Hall]. simpl in Hall.
    destruct (k <? k0) eqn:Hlt.
    + apply Z.ltb_lt in Hlt. simpl. constructor.
      * by constructor.
      * constructor; [done |].
        eapply Forall_impl; [exact Hall |]. simpl. lia.
    + destruct (k =? k0) eqn:Heq.
      * simpl. by constructor.
      * apply Z.ltb_ge in Hlt. apply Z.eqb_neq in Heq.
        simpl. constructor; [by apply IH |].
        apply Forall_forall. intros k' [->|Hk']%at_key_keys; [lia |].
        by eapply Forall_forall in Hall.
Qed.

Lemma bucket_at_absent (m : list (Z * list FunctionAtom)) (k : Z) :
  k ∉ fst <$> m -> bucket_at m k = [].
Proof.
  induction m as [|[k0 b] m IH]; simpl; [done |].
  intros Hk. destruct (k =? k0) eqn:Heq.
  - apply Z.eqb_eq in Heq as ->. set_solver.
  - apply IH. set_solver.
Qed.

Lemma bucket_at_at_key (m : list (Z * list FunctionAtom)) (k : Z) f (k' : Z) :
  keysAscend m ->
  bucket_at (at_key m k f) k'
  = if decide (k' = k) then f (bucket_at m k) else bucket_at m k'.
Proof.
  unfold keysAscend. induction m as [|[k0 b] m IH]; simpl; intros Hs.
  - case_decide as Hk; [by rewrite (proj2 (Z.eqb_eq _ _) Hk) |].
    by rewrite (proj2 (Z.eqb_neq _ _) Hk).
  - apply StronglySorted_inv in Hs as [Hm Hall]. simpl in Hall.
    destruct (k <? k0) eqn:Hlt.
    + apply Z.ltb_lt in Hlt. simpl.
      rewrite (proj2 (Z.eqb_neq k k0)) by lia.
      rewrite (bucket_at_absent m k).
      * case_decide as Hk; [by rewrite (proj2 (Z.eqb_eq _ _) Hk) |].
        by rewrite (proj2 (Z.eqb_neq _ _) Hk).
      * intros Hin. eapply Forall_forall in Hall; [|done]. lia.
    + destruct (k =? k0) eqn:Heq; simpl.
      * apply Z.eqb_eq in Heq as ->.
        case_decide as Hk; [by rewrite (proj2 (Z.eqb_eq _ _) Hk) |].
        by rewrite (proj2 (Z.eqb_neq _ _) Hk).
      * rewrite IH by done. apply Z.eqb_neq in Heq.
        destruct (k' =? k0) eqn:Hk'; [|done].
        apply Z.eqb_eq in Hk' as ->. by rewrite decide_False.
Qed.

Lemma at_key_keyed (m : list (Z * list FunctionAtom)) (k : Z) f :
  (forall b, Forall (fun x => key x = k) b -> Forall (fun x => key x = k) (f b)) ->
  keyed m -> keyed (at_key m k f).
Proof.
  intros Hf. unfold keyed. induction m as [|[k0 b] m IH]; simpl; intros Hm.
  - repeat constructor. by apply Hf.
  - apply Forall_cons in Hm as [Hb Hm]. simpl in Hb.
    destruct (k <? k0); [|destruct (k =? k0) eqn:Heq].
    + constructor; [by apply Hf | by constructor].
    + apply Z.eqb_eq in Heq as ->. constructor; [by apply Hf | done].
    + constructor; [done | by apply IH].
Qed.

Lemma appendBuckets_flatten (m : list (Z * list FunctionAtom)) (sorted : list FunctionAtom) :
  appendBuckets m sorted = sorted ++ flatten m.
Proof.
  revert sorted. induction m as [|[k b] m IH]; intros sorted; simpl.
  - by rewrite app_nil_r.
  - rewrite IH. unfold flatten. simpl. by rewrite app_assoc.
Qed.

Lemma filter_keyed_same (b : list FunctionAtom) (k : Z) :
  Forall (fun x => key x = k) b -> filter (fun x => key x = k) b = b.
Proof.
  induction 1 as [|x b Hx Hb IH]; [done |].
  by rewrite filter_cons_True, IH.
Qed.

Lemma filter_keyed_other (b : list FunctionAtom) (k k' : Z) :
  k <> k' -> Forall (fun x => key x = k) b -> filter (fun x => key x = k') b = [].
Proof.
  intros Hk. induction 1 as [|x b Hx Hb IH]; [done |].
  rewrite filter_cons_False by congruence. done.
Qed.

Lemma flatten_cons (k : Z) (b : list FunctionAtom) (m : list (Z * list FunctionAtom)) :
  flatten ((k, b) :: m) = b ++ flatten m.
Proof. done. Qed.

(** The atoms of a key, picked from the flattened map, are its bucket. *)
Lemma filter_flatten (m : list (Z * list FunctionAtom)) (k : Z) :
  keysAscend m -> keyed m ->
  filter (fun x => key x = k) (flatten m) = bucket_at m k.
Proof.
  unfold keysAscend, keyed.
  induction m as [|[k0 b] m IH]; intros Hs Hm; [done |].
  rewrite fmap_cons in Hs. cbn [fst] in Hs.
  apply StronglySorted_inv in Hs as [Hs Hall].
  apply Forall_cons in Hm as [Hb Hm]. cbn [fst snd] in Hb.
  rewrite flatten_cons, filter_app, IH by done. cbn [bucket_at].
  destruct (k =? k0) eqn:Heq.
  - apply Z.eqb_eq in Heq as ->.
    rewrite filter_keyed_same by done.
    rewrite bucket_at_absent; [by rewrite app_nil_r |].
    intros Hin. eapply Forall_forall in Hall; [|done]. lia.
  - apply Z.eqb_neq in Heq.
    by rewrite (filter_keyed_other b k0 k) by done.
Qed.

Lemma flatten_keys (m : list (Z * list FunctionAtom)) (x : FunctionAtom) :
  keyed m -> x ∈ flatten m -> key x ∈ fst <$> m.
Proof.
  unfold keyed. induction m as [|[k0 b] m IH]; intros Hm Hx.
  - inversion Hx.
  - apply Forall_cons in Hm as [Hb Hm]. cbn [fst snd] in Hb.
    rewrite flatten_cons in Hx. rewrite fmap_cons. cbn [fst].
    apply elem_of_app in Hx as [Hx|Hx].
    + eapply Forall_forall in Hb; [|done]. rewrite Hb. by left.
    + right. by apply IH.
Qed.


(** Deleting from a bucket and from the registration list agree. *)
Lemma eraseAtom_unregister (reg : list FunctionAtom) (a : FunctionAtom) :
  eraseAtom (filter (fun x => key x = key a) reg) a
  = filter (fun x => key x = key a) (unregister reg a).
Proof.
  induction reg as [|x reg IH]; [done |].
  cbn [unregister]. destruct (decide (key x = key a)) as [Hk|Hk].
  - rewrite filter_cons_True by done. cbn [eraseAtom].
    rewrite (bool_decide_eq_true_2 (key x = key a)) by done. rewrite andb_true_r.
    destruct (atom_ptr_eqb x a); [done |].
    by rewrite filter_cons_True, IH.
  - rewrite filter_cons_False by done.
    rewrite (bool_decide_eq_false_2 (key x = key a)) by done. rewrite andb_false_r.
    by rewrite filter_cons_False.
Qed.

Lemma filter_unregister_other (reg : list FunctionAtom) (a : FunctionAtom) (k : Z) :
  k <> key a ->
  filter (fun x => key x = k) (unregister reg a) = filter (fun x => key x = k) reg.
Proof.
  intros Hk. induction reg as [|x reg IH]; [done |].
  cbn [unregister]. destruct (atom_ptr_eqb x a && bool_decide (key x = key a)) eqn:Hx.
  - apply andb_true_iff in Hx as [_ Hx%bool_decide_eq_true].
    rewrite filter_cons_False by congruence. done.
  - rewrite !filter_cons, IH. done.
Qed.

Lemma eraseAtom_not_found (b : list FunctionAtom) (a : FunctionAtom) :
  findAtom b a = false -> eraseAtom b a = b.
Proof.
  induction b as [|x b IH]; [done |]. simpl.
  destruct (atom_ptr_eqb x a); [done |]. intros Hf. by rewrite IH.
Qed.

Lemma eraseAtom_keyed (b : list FunctionAtom) (a : FunctionAtom) (k : Z) :
  Forall (fun x => key x = k) b -> Forall (fun x => key x = k) (eraseAtom b a).
Proof.
  induction 1 as [|x b Hx Hb IH]; [done |]. simpl.
  destruct (atom_ptr_eqb x a); [done | by constructor].
Qed.


Lemma filter_never (P : FunctionAtom -> Prop) `{!forall x, Decision (P x)}
    (l : list FunctionAtom) :
  (forall x, ~ P x) -> filter P l = [].
Proof.
  intros Hp. induction l as [|x l IH]; [done |].
  by rewrite filter_cons_False.
Qed.

(** The flattened map has the registered atoms, all of them and no more. *)
Lemma flatten_Permutation (m : list (Z * list FunctionAtom)) (reg : list FunctionAtom) :
  keysAscend m -> keyed m ->
  (forall k, bucket_at m k = filter (fun x => key x = k) reg) ->
  flatten m ≡ₚ reg.
Proof.
  unfold keysAscend. revert reg.
  induction m as [|[k0 b] m IH]; intros reg Hs Hm Hb.
  - destruct reg as [|x reg]; [done |]. exfalso.
    specialize (Hb (key x)). cbn [bucket_at] in Hb.
    rewrite filter_cons_True in Hb by done. discriminate.
  - rewrite fmap_cons in Hs. cbn [fst] in Hs.
    apply StronglySorted_inv in Hs as [Hs Hall].
    apply Forall_cons in Hm as [_ Hm].
    rewrite flatten_cons.
    rewrite <- (filter_app_complement (fun x => key x = k0) reg).
    apply Permutation_app.
    + specialize (Hb k0). cbn [bucket_at] in Hb. rewrite Z.eqb_refl in Hb. by rewrite Hb.
    + apply IH; [done | done |]. intros k.
      destruct (decide (k = k0)) as [->|Hk].
      * rewrite bucket_at_absent.
        -- rewrite list_filter_filter. symmetry. apply filter_never. tauto.
        -- intros Hin. eapply Forall_forall in Hall; [|done]. lia.
      * specialize (Hb k). cbn [bucket_at] in Hb.
        rewrite (proj2 (Z.eqb_neq k k0)) in Hb by done. rewrite Hb.
        symmetry. apply list_filter_filter_l. congruence.
Qed.

(** ** The container holds the registered atoms *)

Lemma holds_ext (reg : list FunctionAtom) (m m' : Machine) :
  atomsKept m m' -> holds reg m -> holds reg m'.
Proof. intros [Ha Hs] H. unfold holds. by rewrite Ha, Hs. Qed.

Lemma holds_fresh name desc functionType : holds [] (freshMachine name desc functionType).
Proof.
  unfold holds, keysAscend, keyed. simpl.
  split; [constructor |]. split; [constructor |]. split; [done | by left].
Qed.

Lemma flatten_at_key_same (m : list (Z * list FunctionAtom)) (k : Z) :
  flatten (at_key m k (fun bucket => bucket)) = flatten m.
Proof.
  induction m as [|[k0 b] m IH]; [done |].
  cbn [at_key]. destruct (k <? k0); [done |]. destruct (k =? k0); [done |].
  by rewrite !flatten_cons, IH.
Qed.

(** [addAtomInstance] files the atom at the back of the bucket of its key
    and empties the cache. *)
Lemma holds_addAtomInstance (reg : list FunctionAtom) (a : FunctionAtom) (m : Machine) :
  holds reg m ->
  exists m', addAtomInstance a m = Returned tt m'
             /\ holds (reg ++ [a]) m'
             /\ mSortedAtomInstances (self m') = []
             /\ mAtomInstances (self m')
                = at_key (mAtomInstances (self m)) (key a) (fun bucket => bucket ++ [a]).
Proof.
  intros (Hs & Hk & Hb & Hc). eexists. split; [done |].
  split; [|done]. unfold holds. simpl. fold (key a).
  split; [by apply at_key_keysAscend |].
  split.
  { apply at_key_keyed; [|done]. intros b Hbk.
    apply Forall_app. split; [done | by repeat constructor]. }
  split; [|by left].
  intros k. rewrite bucket_at_at_key by done. rewrite filter_app.
  case_decide as Hka.
  - subst k. rewrite Hb. by rewrite filter_cons_True.
  - rewrite Hb. rewrite filter_cons_False by congruence. by rewrite app_nil_r.
Qed.

(** [deleteAtomInstance] takes the first atom that is the pointer out of the
    bucket of its key, and empties the cache, or finds none. *)
Lemma holds_deleteAtomInstance (reg : list FunctionAtom) (a : FunctionAtom) (m : Machine) :
  holds reg m ->
  exists found m', deleteAtomInstance a m = Returned found m'
                   /\ holds (unregister reg a) m'
                   /\ (found = true -> mSortedAtomInstances (self m') = []).
Proof.
  intros (Hs & Hk & Hb & Hc).
  unfold deleteAtomInstance, bind at 1, this. fold (key a).
  destruct (findAtom (bucket_at (mAtomInstances (self m)) (key a)) a) eqn:Hfind.
  - eexists true, _. split; [done |]. split; [|done].
    unfold holds. simpl.
    split; [by apply at_key_keysAscend |].
    split; [by apply at_key_keyed; [intros b; apply eraseAtom_keyed |] |].
    split; [|by left].
    intros k. rewrite bucket_at_at_key by done. case_decide as Hka.
    + subst k. by rewrite Hb, eraseAtom_unregister.
    + by rewrite Hb, filter_unregister_other.
  - eexists false, _. split; [done |]. split; [|done].
    unfold holds. simpl.
    assert (Hsame : forall k,
              bucket_at (at_key (mAtomInstances (self m)) (key a) (fun bucket => bucket)) k
              = bucket_at (mAtomInstances (self m)) k).
    { intros k. rewrite bucket_at_at_key by done. case_decide; by subst. }
    split; [by apply at_key_keysAscend |].
    split; [by apply at_key_keyed |].
    split.
    + intros k. rewrite Hsame. destruct (decide (k = key a)) as [->|Hka].
      * rewrite <- eraseAtom_unregister, <- Hb. by rewrite eraseAtom_not_found.
      * by rewrite Hb, filter_unregister_other.
    + destruct Hc as [Hc|Hc]; [by left |]. right.
      by rewrite Hc, flatten_at_key_same.
Qed.

(** [getAtomInstances] returns the buckets one after the other, keeps them
    in the cache, and returns the same when asked again. *)
Lemma holds_getAtomInstances (reg : list FunctionAtom) (m : Machine) :
  holds reg m ->
  exists m', getAtomInstances m = Returned (flatten (mAtomInstances (self m))) m'
             /\ holds reg m'
             /\ mAtomInstances (self m') = mAtomInstances (self m)
             /\ mSortedAtomInstances (self m') = flatten (mAtomInstances (self m))
             /\ getAtomInstances m' = Returned (flatten (mAtomInstances (self m))) m'.
Proof.
  intros (Hs & Hk & Hb & Hc).
  destruct m as [next [n d t i o l atoms cache]]. simpl in *.
  unfold getAtomInstances, bind at 1, this. simpl.
  destruct cache as [|x cache].
  - rewrite appendBuckets_flatten. simpl.
    eexists. split; [done |]. split; [by repeat split; try done; right |].
    split; [done |]. split; [done |].
    unfold getAtomInstances, bind, this, modify, ret. simpl.
    destruct (flatten atoms) eqn:Hf; [|done].
    simpl. by rewrite appendBuckets_flatten, Hf.
  - destruct Hc as [Hc|Hc]; [done |]. rewrite <- Hc.
    eexists. split; [done |]. split; [by repeat split; try done; right |].
    split; [done |]. split; [done |].
    unfold getAtomInstances, bind, this, ret. by simpl.
Qed.

(** A new atom registered at once. *)
Lemma holds_new_atom (reg : list FunctionAtom) (kind : AtomKind) (groupOrder : Z)
    (operands : list Operand) (m m' : Machine) :
  holds reg m ->
  after (bind (new_FunctionAtom kind groupOrder operands) addAtomInstance m) = Some m' ->
  holds (reg ++ [mkAtom (nextAddr m) kind groupOrder operands]) m'.
Proof.
  intros Hh Hafter. unfold bind, new_FunctionAtom in Hafter.
  set (a := mkAtom _ _ _ _) in *.
  destruct (holds_addAtomInstance reg a (allocated m)) as (m1 & Hr & Hh1 & _).
  { by apply (holds_ext reg m). }
  change (mkMachine (S (nextAddr m)) (self m)) with (allocated m) in Hafter.
  rewrite Hr in Hafter. simpl in Hafter. by simplify_eq.
Qed.

Section Container.
Context `{env : Externals}.

(** Every call keeps the container in step with the registration list. *)
Lemma holds_call (c : Call) (reg : list FunctionAtom) (m m' : Machine) :
  holds reg m -> after (call c m) = Some m' -> holds (registerStep c m reg) m'.
Proof.
  intros Hh Hafter.
  assert (Hkept : forall f, mAtomInstances f = mAtomInstances (self m) ->
                    mSortedAtomInstances f = mSortedAtomInstances (self m) ->
                    forall n, atomsKept m (mkMachine n f)).
  { by intros f ? ? n. }
  assert (Hpushed : forall which p m0, atomsKept m0 (pushed which p m0)).
  { by intros [] ? [? ?]. }
  assert (Hparam := steps_parameter_call (R := atomsKept)
                      ltac:(by intros [? ?])
                      ltac:(by intros; apply steps_addInputParameter)
                      ltac:(by intros; apply steps_addOutputParameter)
                      ltac:(by intros ? [? ?])
                      ltac:(by intros ? [? ?])
                      ltac:(by intros ? [? ?]) c).
  destruct c;
    try (unfold steps in Hparam; specialize (Hparam m);
         match type of Hafter with
         | after ?o = _ => destruct o; simpl in Hafter; simplify_eq;
                           by apply (holds_ext reg m m')
         end);
    cbn [call] in Hafter.
  - destruct (holds_addAtomInstance reg atomInstance m Hh) as (m1 & Hr & Hh1 & _).
    rewrite Hr in Hafter. simpl in Hafter. simplify_eq. exact Hh1.
  - by apply (holds_new_atom reg AssignmentAtom groupOrder
                [mkOperand lhs OPS_OUT; mkOperand rhs OPS_IN]).
  - by apply (holds_new_atom reg (FunctionInvocation name) (to_int mStage) params).
  - by apply (holds_new_atom reg SampleTextureAtom (to_int mStage) params).
  - by apply (holds_new_atom reg AssignmentAtom (to_int mStage) params).
  - destruct (holds_deleteAtomInstance reg atomInstance m Hh) as (found & m1 & Hr & Hh1 & _).
    unfold bind in Hafter. rewrite Hr in Hafter. simpl in Hafter. simplify_eq. exact Hh1.
  - destruct (holds_getAtomInstances reg m Hh) as (m1 & Hr & Hh1 & _).
    unfold bind in Hafter. rewrite Hr in Hafter. simpl in Hafter. simplify_eq. exact Hh1.
Qed.

Lemma holds_run (cs : list Call) (reg : list FunctionAtom) (m m' : Machine) :
  holds reg m -> run cs m = Some m' -> holds (registered cs m reg) m'.
Proof.
  revert reg m. induction cs as [|c cs IH]; intros reg m Hh Hrun; simpl in *.
  - by simplify_eq.
  - destruct (after (call c m)) as [m1|] eqn:Hafter; [|done].
    eapply IH; [|done]. by eapply holds_call.
Qed.

End Container.






(** * Further properties *)

(** ** Lookups return the first match *)

Lemma getParameterByName_first (l : list Param) (name : string) :
  firstThat (fun q => getName q = name) l (getParameterByName l name).
Proof.
  induction l as [|x l IH]; simpl; [by intros q Hq; inversion Hq |].
  case_bool_decide as Hx.
  - exists [], l. split; [done |]. split; [done |]. by intros q Hq; inversion Hq.
  - destruct (getParameterByName l name) as [p|]; simpl in *.
    + destruct IH as (l1 & l2 & -> & Hp & Hno).
      exists (x :: l1), l2. split; [done |]. split; [done |].
      intros q [->|Hq]%elem_of_cons; auto.
    + intros q [->|Hq]%elem_of_cons; auto.
Qed.

Lemma getParameterBySemantic_first (l : list Param) (semantic : Semantic) (index : Z) :
  firstThat (fun q => getSemantic q = semantic /\ getIndex q = index) l
            (getParameterBySemantic l semantic index).
Proof.
  induction l as [|x l IH]; simpl; [by intros q Hq; inversion Hq |].
  destruct (bool_decide (getSemantic x = semantic) && bool_decide (getIndex x = index))
    eqn:Hx.
  - reflect_tests.
    exists [], l. split; [done |]. split; [done |]. by intros q Hq; inversion Hq.
  - assert (Hnx : ~ (getSemantic x = semantic /\ getIndex x = index)).
    { intros [? ?]. by rewrite !bool_decide_eq_true_2 in Hx. }
    destruct (getParameterBySemantic l semantic index) as [p|]; simpl in *.
    + destruct IH as (l1 & l2 & -> & Hp & Hno).
      exists (x :: l1), l2. split; [done |]. split; [done |].
      intros q [->|Hq]%elem_of_cons; auto.
    + intros q [->|Hq]%elem_of_cons; auto.
Qed.

Lemma findByContent_first (l : list Param) (content : Content) (type : GpuConstantType) :
  firstThat (fun q => getContent q = content /\ getType q = type) l
            (findByContent l content type).
Proof.
  induction l as [|x l IH]; simpl; [by intros q Hq; inversion Hq |].
  destruct (bool_decide (getContent x = content) && bool_decide (getType x = type))
    eqn:Hx.
  - reflect_tests.
    exists [], l. split; [done |]. split; [done |]. by intros q Hq; inversion Hq.
  - assert (Hnx : ~ (getContent x = content /\ getType x = type)).
    { intros [? ?]. by rewrite !bool_decide_eq_true_2 in Hx. }
    destruct (findByContent l content type) as [p|]; simpl in *.
    + destruct IH as (l1 & l2 & -> & Hp & Hno).
      exists (x :: l1), l2. split; [done |]. split; [done |].
      intros q [->|Hq]%elem_of_cons; auto.
    + intros q [->|Hq]%elem_of_cons; auto.
Qed.

(** X1: each of the three lookups returns the first parameter of the list,
    in list order, that matches (by name; by semantic and index; by content
    and type), and the empty pointer exactly when none matches.  The lookup
    by content, given a known type, never finds a parameter of unknown
    content, whatever the list holds. *)
Theorem lookups_return_first_match :
  (forall l name,
     firstThat (fun q => getName q = name) l (getParameterByName l name))
  /\ (forall l semantic index,
        firstThat (fun q => getSemantic q = semantic /\ getIndex q = index) l
                  (getParameterBySemantic l semantic index))
  /\ (forall l content type,
        type <> GCT_UNKNOWN -> content <> SPC_UNKNOWN ->
        exists r, getParameterByContent l content type = Ok r
                  /\ firstThat (fun q => getContent q = content /\ getType q = type) l r)
  /\ (forall l type,
        type <> GCT_UNKNOWN -> getParameterByContent l SPC_UNKNOWN type = Ok None).
Proof.
  split; [apply getParameterByName_first |].
  split; [apply getParameterBySemantic_first |].
  split.
  - intros l content type Ht Hc. unfold getParameterByContent.
    rewrite bool_decide_eq_false_2 by done.
    rewrite bool_decide_eq_true_2 by done.
    eexists. split; [done |]. apply findByContent_first.
  - intros l type Ht. unfold getParameterByContent.
    by rewrite bool_decide_eq_false_2 by done.
Qed.

(** Two parameters with the diffuse color as their content, the second one
    of another type: the lookup for the first type returns the first. *)
Lemma lookups_return_first_match_witness :
  exists r,
    getParameterByContent
      [mkParameter 0 GCT_FLOAT4 "a" SPS_COLOR 0 SPC_COLOR_DIFFUSE;
       mkParameter 1 GCT_FLOAT3 "b" SPS_COLOR 1 SPC_COLOR_DIFFUSE]
      SPC_COLOR_DIFFUSE GCT_FLOAT3 = Ok r
    /\ firstThat (fun q => getContent q = SPC_COLOR_DIFFUSE /\ getType q = GCT_FLOAT3)
         [mkParameter 0 GCT_FLOAT4 "a" SPS_COLOR 0 SPC_COLOR_DIFFUSE;
          mkParameter 1 GCT_FLOAT3 "b" SPS_COLOR 1 SPC_COLOR_DIFFUSE] r.
Proof.
  apply (proj1 (proj2 (proj2 lookups_return_first_match))); done.
Defined.

(** ** Deleting a parameter *)

Lemma deleteParameter_absent (l : list Param) (parameter : option Param) :
  (forall q, q ∈ l -> ~ pointedBy parameter q) -> deleteParameter l parameter = l.
Proof.
  unfold pointedBy. induction l as [|x l IH]; intros Hno; [done |].
  cbn [deleteParameter].
  destruct (ptr_eqb (Some x) parameter) eqn:Hx.
  - exfalso. apply (Hno x); [by left | done].
  - f_equal. apply IH. intros q Hq. apply Hno. by right.
Qed.

Lemma deleteParameter_first (l1 l2 : list Param) (q : Param) (parameter : option Param) :
  pointedBy parameter q ->
  (forall x, x ∈ l1 -> ~ pointedBy parameter x) ->
  deleteParameter (l1 ++ q :: l2) parameter = l1 ++ l2.
Proof.
  unfold pointedBy. intros Hq. induction l1 as [|x l1 IH]; intros Hno.
  - cbn [app deleteParameter]. by rewrite Hq.
  - cbn [app deleteParameter].
    destruct (ptr_eqb (Some x) parameter) eqn:Hx.
    + exfalso. apply (Hno x); [by left | done].
    + f_equal. apply IH. intros y Hy. apply Hno. by right.
Qed.

Lemma set_mInputParameters_same (m : Machine) :
  mkMachine (nextAddr m) (set_mInputParameters (mInputParameters (self m)) (self m)) = m.
Proof. by destruct m as [n []]. Qed.

Lemma set_mOutputParameters_same (m : Machine) :
  mkMachine (nextAddr m) (set_mOutputParameters (mOutputParameters (self m)) (self m)) = m.
Proof. by destruct m as [n []]. Qed.

(** X2: [deleteInputParameter] (and [deleteOutputParameter]) never throws
    and takes at most one element out of its list: the first one, in list
    order, that is the object the pointer refers to; the elements before
    and after it keep their order.  When no element is that object, as with
    the empty pointer, the function is left exactly as it was.  The other
    parameter lists, the atoms and the allocator are never touched. *)
Theorem delete_removes_first_pointer (d : Direction) (parameter : ParameterPtr)
    (m : Machine) :
  exists m',
    deleteOf d parameter m = Returned tt m'
    /\ nextAddr m' = nextAddr m
    /\ parametersOf (opposite d) (self m') = parametersOf (opposite d) (self m)
    /\ mLocalParameters (self m') = mLocalParameters (self m)
    /\ atomsKept m m'
    /\ ((forall q, q ∈ parametersOf d (self m) -> ~ pointedBy parameter q) -> m' = m)
    /\ (parameter = None -> m' = m)
    /\ (forall l1 q l2,
          parametersOf d (self m) = l1 ++ q :: l2 ->
          pointedBy parameter q ->
          (forall x, x ∈ l1 -> ~ pointedBy parameter x) ->
          parametersOf d (self m') = l1 ++ l2).
Proof.
  assert (Hnull : forall l, deleteParameter l None = l).
  { intros l. apply deleteParameter_absent. by intros q _. }
  destruct d; cbn [deleteOf parametersOf opposite];
    unfold deleteInputParameter, deleteOutputParameter, modify;
    eexists; (split; [reflexivity |]); cbn [nextAddr self];
    (split; [done |]); (split; [done |]); (split; [done |]); (split; [done |]).
  - split; [|split].
    + intros Hno. rewrite deleteParameter_absent by done.
      apply set_mInputParameters_same.
    + intros ->. rewrite Hnull. apply set_mInputParameters_same.
    + intros l1 q l2 Hl Hq Hno. simpl. rewrite Hl. by apply deleteParameter_first.
  - split; [|split].
    + intros Hno. rewrite deleteParameter_absent by done.
      apply set_mOutputParameters_same.
    + intros ->. rewrite Hnull. apply set_mOutputParameters_same.
    + intros l1 q l2 Hl Hq Hno. simpl. rewrite Hl. by apply deleteParameter_first.
Qed.

(** Three inputs, the second of which is deleted. *)
Lemma delete_removes_first_pointer_witness :
  exists m',
    deleteInputParameter
      (Some (mkParameter 1 GCT_FLOAT2 "iTexcoord_1" SPS_TEXTURE_COORDINATES 1 (SPC_OTHER 1)))
      (machineOf 3
         [mkParameter 0 GCT_FLOAT2 "iTexcoord_0" SPS_TEXTURE_COORDINATES 0 (SPC_OTHER 0);
          mkParameter 1 GCT_FLOAT2 "iTexcoord_1" SPS_TEXTURE_COORDINATES 1 (SPC_OTHER 1);
          mkParameter 2 GCT_FLOAT2 "iTexcoord_2" SPS_TEXTURE_COORDINATES 2 (SPC_OTHER 2)]
         [])
    = Returned tt m'
    /\ mInputParameters (self m')
       = [mkParameter 0 GCT_FLOAT2 "iTexcoord_0" SPS_TEXTURE_COORDINATES 0 (SPC_OTHER 0);
          mkParameter 2 GCT_FLOAT2 "iTexcoord_2" SPS_TEXTURE_COORDINATES 2 (SPC_OTHER 2)].
Proof.
  destruct (delete_removes_first_pointer Input
              (Some (mkParameter 1 GCT_FLOAT2 "iTexcoord_1" SPS_TEXTURE_COORDINATES 1
                       (SPC_OTHER 1)))
              (machineOf 3
                 [mkParameter 0 GCT_FLOAT2 "iTexcoord_0" SPS_TEXTURE_COORDINATES 0 (SPC_OTHER 0);
                  mkParameter 1 GCT_FLOAT2 "iTexcoord_1" SPS_TEXTURE_COORDINATES 1 (SPC_OTHER 1);
                  mkParameter 2 GCT_FLOAT2 "iTexcoord_2" SPS_TEXTURE_COORDINATES 2 (SPC_OTHER 2)]
                 []))
    as (m' & Hcall & _ & _ & _ & _ & _ & _ & Hfirst).
  exists m'. split; [exact Hcall |].
  apply (Hfirst
           [mkParameter 0 GCT_FLOAT2 "iTexcoord_0" SPS_TEXTURE_COORDINATES 0 (SPC_OTHER 0)]
           (mkParameter 1 GCT_FLOAT2 "iTexcoord_1" SPS_TEXTURE_COORDINATES 1 (SPC_OTHER 1))
           [mkParameter 2 GCT_FLOAT2 "iTexcoord_2" SPS_TEXTURE_COORDINATES 2 (SPC_OTHER 2)]);
    [reflexivity | reflexivity |].
  intros x Hx. apply list_elem_of_singleton in Hx. subst x. unfold pointedBy. simpl.
  discriminate.
Defined.

(** X3: a parameter added with [addInputParameter] (or
    [addOutputParameter]) and deleted at once with [deleteInputParameter]
    (or [deleteOutputParameter]) leaves the function exactly as it was
    before the add, provided no parameter of the list was the same object
    before. *)
Theorem add_then_delete_restores (d : Direction) (p : Param) (m m' : Machine) :
  addOf d p m = Returned tt m' ->
  (forall q, q ∈ parametersOf d (self m) -> paramAddr q <> paramAddr p) ->
  deleteOf d (Some p) m' = Returned tt m.
Proof.
  intros Hadd Hfresh.
  assert (Hdel : forall l, (forall q, q ∈ l -> paramAddr q <> paramAddr p) ->
                           deleteParameter (l ++ [p]) (Some p) = l).
  { intros l Hl. rewrite deleteParameter_first; [by rewrite app_nil_r | |].
    - unfold pointedBy. simpl. by rewrite bool_decide_eq_true_2.
    - intros x Hx. unfold pointedBy. simpl.
      rewrite bool_decide_eq_false_2 by auto. discriminate. }
  destruct d; cbn [addOf deleteOf parametersOf] in *.
  - destruct (addInputParameter_outcome p m) as [[_ (e & He & _)]|[_ Hr]]; [congruence |].
    rewrite Hr in Hadd. injection Hadd as <-.
    unfold deleteInputParameter, modify. f_equal. simpl.
    rewrite Hdel by done. by destruct m as [n []].
  - destruct (addOutputParameter_outcome p m) as [[_ (e & He & _)]|[_ Hr]]; [congruence |].
    rewrite Hr in Hadd. injection Hadd as <-.
    unfold deleteOutputParameter, modify. f_equal. simpl.
    rewrite Hdel by done. by destruct m as [n []].
Qed.

(** A color output added to a function that has a texture coordinate, and
    deleted again. *)
Lemma add_then_delete_restores_witness :
  deleteOutputParameter
    (Some (mkParameter 1 GCT_FLOAT4 "oColor_0" SPS_COLOR 0 SPC_COLOR_DIFFUSE))
    (pushed OutputList (mkParameter 1 GCT_FLOAT4 "oColor_0" SPS_COLOR 0 SPC_COLOR_DIFFUSE)
       (machineOf 2
          [] [mkParameter 0 GCT_FLOAT2 "oTexcoord_0" SPS_TEXTURE_COORDINATES 0 (SPC_OTHER 0)]))
  = Returned tt
      (machineOf 2
         [] [mkParameter 0 GCT_FLOAT2 "oTexcoord_0" SPS_TEXTURE_COORDINATES 0 (SPC_OTHER 0)]).
Proof.
  apply (add_then_delete_restores Output
           (mkParameter 1 GCT_FLOAT4 "oColor_0" SPS_COLOR 0 SPC_COLOR_DIFFUSE)
           (machineOf 2
              [] [mkParameter 0 GCT_FLOAT2 "oTexcoord_0" SPS_TEXTURE_COORDINATES 0
                    (SPC_OTHER 0)])).
  - reflexivity.
  - intros q Hq. apply list_elem_of_singleton in Hq. subst q. simpl. discriminate.
Defined.

(** ** What every call keeps *)

(** A property that every call keeps holds of every function reached from
    one that has it. *)
Lemma run_keeps `{env : Externals} (I : Machine -> Prop) :
  (forall c, steps (fun m m' => I m -> I m') (call c)) ->
  forall cs m m', I m -> run cs m = Some m' -> I m'.
Proof.
  intros Hstep cs. induction cs as [|c cs IH]; intros m m' Hm Hrun; simpl in Hrun.
  - by simplify_eq.
  - pose proof (Hstep c m) as Hc.
    destruct (call c m) as [[] m1|e m1|]; simpl in Hrun; [| |done];
      (eapply IH; [by apply Hc | done]).
Qed.

(** ** Names of the input and output parameters *)

#[global] Instance keepsNames_preorder : PreOrder keepsNames.
Proof.
  split; [intros m; unfold keepsNames; tauto |].
  intros m1 m2 m3. unfold keepsNames. tauto.
Qed.

Lemma keepsNames_same (m : Machine) (f : Function) (n : nat) :
  mInputParameters f = mInputParameters (self m) ->
  mOutputParameters f = mOutputParameters (self m) ->
  keepsNames m (mkMachine n f).
Proof. intros Hi Ho. unfold keepsNames, namesUnique. simpl. by rewrite Hi, Ho. Qed.

Lemma namesUnique_push (d : Direction) (p : Param) (m : Machine) :
  ~ nameTaken (self m) p -> namesUnique m -> namesUnique (pushed (listOf d) p m).
Proof.
  unfold namesUnique. intros Hfree Hm.
  assert (Hperm : mInputParameters (self (pushed (listOf d) p m))
                    ++ mOutputParameters (self (pushed (listOf d) p m))
                  ≡ₚ p :: (mInputParameters (self m) ++ mOutputParameters (self m))).
  { destruct d; simpl.
    - rewrite <- app_assoc. simpl. by rewrite <- Permutation_middle.
    - rewrite app_assoc. by rewrite <- Permutation_cons_append. }
  rewrite Hperm, fmap_cons. apply NoDup_cons. split; [|done].
  intros (q & Hn & Hq)%list_elem_of_fmap. apply Hfree.
  exists q. split; [by apply elem_of_app in Hq | done].
Qed.

Lemma keepsNames_add (d : Direction) (p : Param) : steps keepsNames (addOf d p).
Proof.
  intros m. destruct d; cbn [addOf].
  - destruct (addInputParameter_outcome p m) as [[_ (e & -> & _)]|[Hfree ->]]; [done |].
    intros Hm. apply (namesUnique_push Input); tauto.
  - destruct (addOutputParameter_outcome p m) as [[_ (e & -> & _)]|[Hfree ->]]; [done |].
    intros Hm. apply (namesUnique_push Output); tauto.
Qed.

Lemma keepsNames_call `{env : Externals} (c : Call) : steps keepsNames (call c).
Proof.
  apply steps_call; try (by intros; apply keepsNames_same).
  - apply (keepsNames_add Input).
  - apply (keepsNames_add Output).
  - intros l m Hl. unfold keepsNames, namesUnique. simpl. intros Hn.
    eapply sublist_NoDup; [exact Hn |]. by apply fmap_sublist, sublist_app.
  - intros l m Hl. unfold keepsNames, namesUnique. simpl. intros Hn.
    eapply sublist_NoDup; [exact Hn |]. by apply fmap_sublist, sublist_app.
Qed.

(** Where the names are unique, the lookup by name finds the parameter that
    has the name. *)
Lemma getParameterByName_unique (l : list Param) (p : Param) :
  NoDup (getName <$> l) -> p ∈ l -> getParameterByName l (getName p) = Some p.
Proof.
  induction l as [|q l IH]; intros Hl Hp; [by inversion Hp |].
  rewrite fmap_cons in Hl. apply NoDup_cons in Hl as [Hq Hl].
  cbn [getParameterByName].
  apply elem_of_cons in Hp as [->|Hp].
  - by rewrite bool_decide_eq_true_2.
  - case_bool_decide as Hn; [|auto].
    exfalso. apply Hq. apply list_elem_of_fmap. by exists p.
Qed.

(** X4: on every function reached by calls from a new one, no two
    parameters among the inputs and the outputs together have the same
    name; so the lookup by name of a registered input or output parameter
    finds that very parameter in its own list and nothing in the other, and
    no parameter is both an input and an output. *)
Theorem in_out_names_unique `{env : Externals} (cs : list Call)
    (name desc : string) (functionType : FunctionType) (m : Machine) :
  run cs (freshMachine name desc functionType) = Some m ->
  namesUnique m
  /\ (forall p, p ∈ mInputParameters (self m) -> p ∉ mOutputParameters (self m))
  /\ (forall d p,
        p ∈ parametersOf d (self m) ->
        getParameterByName (parametersOf d (self m)) (getName p) = Some p
        /\ getParameterByName (parametersOf (opposite d) (self m)) (getName p) = None).
Proof.
  intros Hrun.
  assert (Hm : namesUnique m).
  { eapply (run_keeps namesUnique); [apply keepsNames_call | | exact Hrun].
    unfold namesUnique. simpl. apply NoDup_nil. done. }
  split; [done |].
  unfold namesUnique in Hm. rewrite fmap_app in Hm.
  apply NoDup_app in Hm as (Hi & Hio & Ho).
  split.
  { intros p Hp Hp'. apply (Hio (getName p)); apply list_elem_of_fmap; by exists p. }
  intros d p Hp. destruct d; cbn [parametersOf opposite] in *.
  - split; [by apply getParameterByName_unique |].
    apply getParameterByName_None. intros q Hq Hn.
    apply (Hio (getName p)); apply list_elem_of_fmap; [by exists p | by exists q].
  - split; [by apply getParameterByName_unique |].
    apply getParameterByName_None. intros q Hq Hn.
    apply (Hio (getName p)); apply list_elem_of_fmap; [by exists q | by exists p].
Qed.

(** A texture coordinate resolved as an input and one as an output. *)
Lemma in_out_names_unique_witness :
  exists m,
    run (env := canonicalExternals false)
      [CallResolveInputParameter SPS_TEXTURE_COORDINATES (-1) (SPC_OTHER 0) GCT_FLOAT2;
       CallResolveOutputParameter SPS_TEXTURE_COORDINATES (-1) (SPC_OTHER 0) GCT_FLOAT2]
      (freshMachine "main" "entry" (FunctionTypeTag 0)) = Some m
    /\ namesUnique m.
Proof.
  eexists. split; [reflexivity |].
  apply (in_out_names_unique (env := canonicalExternals false)
           [CallResolveInputParameter SPS_TEXTURE_COORDINATES (-1) (SPC_OTHER 0) GCT_FLOAT2;
            CallResolveOutputParameter SPS_TEXTURE_COORDINATES (-1) (SPC_OTHER 0) GCT_FLOAT2]
           "main" "entry" (FunctionTypeTag 0) _ eq_refl).
Defined.

(** ** Local parameters resolved by name *)

Lemma addParameter_taken (which : WhichList) (p : Param) (m : Machine) :
  nameTaken (self m) p ->
  addParameter which p m = Thrown (alreadyDeclared p (self m)) m.
Proof.
  rewrite nameTaken_lookup. intros Hn.
  unfold addParameter, bind, this, OGRE_EXCEPT.
  case_bool_decide; [done |]. case_bool_decide; [done | tauto].
Qed.

Lemma addParameter_free (which : WhichList) (p : Param) (m : Machine) :
  ~ nameTaken (self m) p ->
  addParameter which p m = Returned tt (pushed which p m).
Proof.
  intros Hn. destruct (addParameter_outcome which p m) as [[? _]|[_ ?]]; done.
Qed.

Lemma getParameterByName_last (l : list Param) (p : Param) :
  getParameterByName l (getName p) = None ->
  getParameterByName (l ++ [p]) (getName p) = Some p.
Proof.
  induction l as [|q l IH]; simpl.
  - intros _. by rewrite bool_decide_eq_true_2.
  - case_bool_decide; [done | apply IH].
Qed.

(** A request by name, along its lookup. *)
Lemma resolveLocalParameter_name_paths (semantic : Semantic) (index : Z)
    (name : string) (type : GpuConstantType) (m : Machine) :
  resolveLocalParameter_name semantic index name type m
  = match getParameterByName (mLocalParameters (self m)) name with
    | Some q =>
        if bool_decide (getType q = type)
           && bool_decide (getSemantic q = semantic)
           && bool_decide (getIndex q = index)
        then Returned (Some q) m
        else Thrown (localMismatch (self m)) m
    | None =>
        let p := namedLocal (nextAddr m) type name semantic index in
        bind (addParameter LocalList p) (fun _ => ret (Some p)) (allocated m)
    end.
Proof.
  unfold resolveLocalParameter_name, bind at 1, this.
  destruct (getParameterByName (mLocalParameters (self m)) name) as [q|]; [|done].
  by destruct (_ && _).
Qed.

(** The four ways a request by name ends. *)
Lemma resolveLocalParameter_name_outcome (semantic : Semantic) (index : Z)
    (name : string) (type : GpuConstantType) (m : Machine) :
  match getParameterByName (mLocalParameters (self m)) name with
  | Some q =>
      (asRequested q type semantic index
       /\ resolveLocalParameter_name semantic index name type m = Returned (Some q) m)
      \/ (~ asRequested q type semantic index
          /\ resolveLocalParameter_name semantic index name type m
             = Thrown (localMismatch (self m)) m)
  | None =>
      let p := namedLocal (nextAddr m) type name semantic index in
      (nameTaken (self m) p
       /\ resolveLocalParameter_name semantic index name type m
          = Thrown (alreadyDeclared p (self m)) (allocated m))
      \/ (~ nameTaken (self m) p
          /\ resolveLocalParameter_name semantic index name type m
             = Returned (Some p) (pushed LocalList p (allocated m)))
  end.
Proof.
  rewrite resolveLocalParameter_name_paths. unfold asRequested.
  destruct (getParameterByName (mLocalParameters (self m)) name) as [q|].
  - destruct (bool_decide (getType q = type)) eqn:Ht;
      destruct (bool_decide (getSemantic q = semantic)) eqn:Hs;
      destruct (bool_decide (getIndex q = index)) eqn:Hi;
      reflect_tests; simpl; first [by left | right; split; [tauto | done]].
  - cbv zeta. set (p := namedLocal (nextAddr m) type name semantic index). unfold bind.
    destruct (addParameter_outcome LocalList p (allocated m)) as [[Hn _]|[Hn _]].
    + left. split; [done |].
      by rewrite (addParameter_taken LocalList p (allocated m)).
    + right. split; [done |].
      by rewrite (addParameter_free LocalList p (allocated m)).
Qed.

Lemma allocated_neq (m : Machine) : allocated m <> m.
Proof. intros H. apply (f_equal nextAddr) in H. simpl in H. lia. Qed.

(** X5: [resolveLocalParameter] by name throws in two cases only.  When
    the first local parameter with the name has not the requested type,
    semantic and index, it throws the type mismatch and leaves everything
    as it was.  When no local parameter has the name and an input or output
    parameter has it, the new object is made, [addParameter] throws, and
    the function is left as it was.  In every other case it returns: the
    local parameter found, or the new one, pushed at the back of the local
    list. *)
Theorem resolveLocalParameter_name_throws_exactly (semantic : Semantic) (index : Z)
    (name : string) (type : GpuConstantType) (m : Machine) :
  let p := namedLocal (nextAddr m) type name semantic index in
  ((exists q, getParameterByName (mLocalParameters (self m)) name = Some q
              /\ ~ asRequested q type semantic index)
   <-> resolveLocalParameter_name semantic index name type m
       = Thrown (localMismatch (self m)) m)
  /\ ((getParameterByName (mLocalParameters (self m)) name = None
       /\ nameTaken (self m) p)
      <-> resolveLocalParameter_name semantic index name type m
          = Thrown (alreadyDeclared p (self m)) (allocated m))
  /\ (forall e m',
        resolveLocalParameter_name semantic index name type m = Thrown e m' ->
        self m' = self m
        /\ (e = localMismatch (self m) \/ e = alreadyDeclared p (self m)))
  /\ (forall q,
        getParameterByName (mLocalParameters (self m)) name = Some q ->
        asRequested q type semantic index ->
        resolveLocalParameter_name semantic index name type m = Returned (Some q) m)
  /\ (getParameterByName (mLocalParameters (self m)) name = None ->
      ~ nameTaken (self m) p ->
      resolveLocalParameter_name semantic index name type m
      = Returned (Some p) (pushed LocalList p (allocated m))).
Proof.
  intros p.
  pose proof (resolveLocalParameter_name_outcome semantic index name type m) as Hout.
  pose proof (allocated_neq m) as Hneq.
  destruct (getParameterByName (mLocalParameters (self m)) name) as [q|].
  - destruct Hout as [[Hq Hr]|[Hq Hr]]; rewrite Hr.
    + split; [split; [by intros (q' & [= <-] & ?) | done] |].
      split; [split; [by intros [? _] | done] |].
      split; [done |]. split; [|done]. by intros q' [= <-].
    + split; [split; [done | by exists q] |].
      split; [split; [by intros [? _] | intros [= _ Hm]; by destruct Hneq] |].
      split; [intros e m' [= <- <-]; split; [done | by left] |].
      split; [|done]. by intros q' [= <-].
  - cbv zeta in Hout. fold p in Hout.
    destruct Hout as [[Hn Hr]|[Hn Hr]]; rewrite Hr.
    + split; [split; [by intros (q' & ? & _) | intros [= _ Hm]; by destruct Hneq] |].
      split; [done |].
      split; [intros e m' [= <- <-]; split; [done | by right] |].
      split; [done |]. by intros _ ?.
    + split; [split; [by intros (q' & ? & _) | done] |].
      split; [split; [by intros [_ ?] | done] |].
      done.
Qed.

(** X6: when [resolveLocalParameter] by name returns, it returns a
    parameter of the local list that has the requested name, type, semantic
    and index: one that was there, the function being left as it was, or a
    new one of unknown content pushed at the back.  The same request made
    again returns the very same object and changes nothing, and a request
    for the same name with another type, semantic or index throws the type
    mismatch and changes nothing. *)
Theorem resolveLocalParameter_name_again (semantic : Semantic) (index : Z)
    (name : string) (type : GpuConstantType) (m m1 : Machine) (r : ParameterPtr) :
  resolveLocalParameter_name semantic index name type m = Returned r m1 ->
  exists p,
    r = Some p
    /\ p ∈ mLocalParameters (self m1)
    /\ getName p = name /\ asRequested p type semantic index
    /\ (m1 = m
        \/ (p = namedLocal (nextAddr m) type name semantic index
            /\ m1 = pushed LocalList p (allocated m)))
    /\ resolveLocalParameter_name semantic index name type m1 = Returned (Some p) m1
    /\ (forall semantic' index' type',
          ~ asRequested p type' semantic' index' ->
          resolveLocalParameter_name semantic' index' name type' m1
          = Thrown (localMismatch (self m1)) m1).
Proof.
  intros Hcall.
  assert (Hagain : forall p,
            getParameterByName (mLocalParameters (self m1)) name = Some p ->
            asRequested p type semantic index ->
            resolveLocalParameter_name semantic index name type m1 = Returned (Some p) m1
            /\ (forall semantic' index' type',
                  ~ asRequested p type' semantic' index' ->
                  resolveLocalParameter_name semantic' index' name type' m1
                  = Thrown (localMismatch (self m1)) m1)).
  { intros p Hp Hreq. split.
    - pose proof (resolveLocalParameter_name_outcome semantic index name type m1) as Ho.
      rewrite Hp in Ho. by destruct Ho as [[_ ?]|[? _]].
    - intros semantic' index' type' Hno.
      pose proof (resolveLocalParameter_name_outcome semantic' index' name type' m1) as Ho.
      rewrite Hp in Ho. by destruct Ho as [[? _]|[_ ?]]. }
  pose proof (resolveLocalParameter_name_outcome semantic index name type m) as Hout.
  destruct (getParameterByName (mLocalParameters (self m)) name) as [q|] eqn:Hq.
  - destruct Hout as [[Hreq Hr]|[_ Hr]]; rewrite Hr in Hcall; [|done].
    injection Hcall as <- <-.
    pose proof (getParameterByName_Some _ _ _ Hq) as [Hin Hname].
    exists q. destruct (Hagain q Hq Hreq) as [H1 H2].
    split; [done |]. split; [done |]. split; [done |]. split; [done |].
    split; [by left |]. done.
  - cbv zeta in Hout. set (p := namedLocal (nextAddr m) type name semantic index) in *.
    destruct Hout as [[_ Hr]|[_ Hr]]; rewrite Hr in Hcall; [done |].
    injection Hcall as <- <-.
    assert (Hp : getParameterByName (mLocalParameters (self (pushed LocalList p (allocated m))))
                   name = Some p).
    { simpl. by apply (getParameterByName_last _ p). }
    assert (Hreq : asRequested p type semantic index) by done.
    exists p. destruct (Hagain p Hp Hreq) as [H1 H2].
    split; [done |]. split; [simpl; set_solver |]. split; [done |]. split; [done |].
    split; [by right |]. done.
Qed.

(** A local parameter resolved by name on a new function. *)
Lemma resolveLocalParameter_name_again_witness :
  exists p,
    Some (namedLocal 0 GCT_FLOAT4 "lTemp" SPS_UNKNOWN (-1)) = Some p
    /\ resolveLocalParameter_name SPS_UNKNOWN (-1) "lTemp" GCT_FLOAT4
         (pushed LocalList (namedLocal 0 GCT_FLOAT4 "lTemp" SPS_UNKNOWN (-1))
            (allocated (freshMachine "main" "entry" (FunctionTypeTag 0))))
       = Returned (Some p)
           (pushed LocalList (namedLocal 0 GCT_FLOAT4 "lTemp" SPS_UNKNOWN (-1))
              (allocated (freshMachine "main" "entry" (FunctionTypeTag 0)))).
Proof.
  destruct (resolveLocalParameter_name_again SPS_UNKNOWN (-1) "lTemp" GCT_FLOAT4
              (freshMachine "main" "entry" (FunctionTypeTag 0))
              (pushed LocalList (namedLocal 0 GCT_FLOAT4 "lTemp" SPS_UNKNOWN (-1))
                 (allocated (freshMachine "main" "entry" (FunctionTypeTag 0))))
              (Some (namedLocal 0 GCT_FLOAT4 "lTemp" SPS_UNKNOWN (-1)))
              eq_refl)
    as (p & Hr & _ & _ & _ & _ & Hagain & _).
  exists p. split; [exact Hr | exact Hagain].
Defined.

(** ** What a call may touch *)

#[global] Instance keptBut_preorder (touched : option Part) : PreOrder (keptBut touched).
Proof.
  split.
  - intros m. split; [done |]. split; [done |]. by intros [] _.
  - intros m1 m2 m3 ((Hn1 & Hd1 & Ht1) & Ha1 & H1) ((Hn2 & Hd2 & Ht2) & Ha2 & H2).
    split; [unfold constructionKept; repeat split; congruence |].
    split; [lia |].
    intros part Hp. specialize (H1 part Hp). specialize (H2 part Hp).
    destruct part; simpl in *; try congruence.
    destruct H1, H2. split; congruence.
Qed.

Lemma keptBut_allocated (touched : option Part) (m : Machine) :
  keptBut touched m (allocated m).
Proof. split; [done |]. split; [simpl; lia |]. by intros [] _. Qed.

Lemma keptBut_pushed (d : WhichList) (p : Param) (m : Machine) :
  keptBut (Some match d with
                | InputList => InputParameters
                | OutputList => OutputParameters
                | LocalList => LocalParameters
                end) m (pushed d p m).
Proof.
  split; [by destruct d |]. split; [done |].
  intros part Hp. destruct d, part; by simpl.
Qed.

Lemma keptBut_addInputParameter (p : Param) :
  steps (keptBut (Some InputParameters)) (addInputParameter p).
Proof.
  intros m.
  destruct (addInputParameter_outcome p m) as [[_ (e & -> & _)]|[_ ->]]; [reflexivity |].
  apply (keptBut_pushed InputList).
Qed.

Lemma keptBut_addOutputParameter (p : Param) :
  steps (keptBut (Some OutputParameters)) (addOutputParameter p).
Proof.
  intros m.
  destruct (addOutputParameter_outcome p m) as [[_ (e & -> & _)]|[_ ->]]; [reflexivity |].
  apply (keptBut_pushed OutputList).
Qed.

(** Every call keeps what the constructor was given and all the parts of
    the function but the one it works on. *)
Lemma keptBut_call `{env : Externals} (c : Call) : steps (keptBut (changes c)) (call c).
Proof.
  assert (Hatoms : forall a s m,
            keptBut (Some AtomInstances) m
              (mkMachine (nextAddr m)
                 (set_mSortedAtomInstances s (set_mAtomInstances a (self m))))).
  { intros a s m. split; [done |]. split; [done |]. by intros [] ?. }
  assert (Hmap : forall a m,
            keptBut (Some AtomInstances) m
              (mkMachine (nextAddr m) (set_mAtomInstances a (self m)))).
  { intros a m. split; [done |]. split; [done |]. by intros [] ?. }
  assert (Hcache : forall s m,
            keptBut (Some AtomInstances) m
              (mkMachine (nextAddr m) (set_mSortedAtomInstances s (self m)))).
  { intros s m. split; [done |]. split; [done |]. by intros [] ?. }
  assert (Hnew : forall kind g ops,
            steps (keptBut (Some AtomInstances))
                  (bind (new_FunctionAtom kind g ops) addAtomInstance)).
  { intros kind g ops. apply steps_bind.
    - apply steps_new_FunctionAtom. apply keptBut_allocated.
    - intros a. apply steps_modify. intros m. apply Hatoms. }
  destruct c; cbn [call changes].
  - steps_structure.
    apply steps_resolveInputParameter;
      [apply keptBut_allocated | apply keptBut_addInputParameter].
  - steps_structure.
    apply steps_resolveOutputParameter;
      [apply keptBut_allocated | apply keptBut_addOutputParameter].
  - steps_structure.
    apply steps_resolveLocalParameter_name;
      [apply keptBut_allocated | intros p m; apply (keptBut_pushed LocalList)].
  - steps_structure.
    apply steps_resolveLocalParameter_content;
      [apply keptBut_allocated | intros p m; apply (keptBut_pushed LocalList)].
  - apply keptBut_addInputParameter.
  - apply keptBut_addOutputParameter.
  - apply steps_modify. intros m. split; [done |]. split; [done |]. by intros [] ?.
  - apply steps_modify. intros m. split; [done |]. split; [done |]. by intros [] ?.
  - apply steps_modify. intros m. split; [done |]. split; [done |]. by intros [] ?.
  - apply steps_modify. intros m. split; [done |]. split; [done |]. by intros [] ?.
  - apply steps_modify. intros m. apply Hatoms.
  - apply Hnew.
  - apply Hnew.
  - apply Hnew.
  - apply Hnew.
  - unfold deleteAtomInstance. steps_structure; apply steps_modify; intros m;
      [apply Hatoms | apply Hmap].
  - unfold getAtomInstances. steps_structure. apply steps_modify. intros m. apply Hcache.
  - unfold getFunctionType. steps_structure.
Qed.

(** X7: a call of a public member function works on one part of the
    function only: the input parameters, the output parameters, the local
    parameters, or the atoms with their cache.  Whether it returns or
    throws, it leaves the other parts as they were, and never changes the
    name, the description or the type the constructor was given; the getter
    of the type changes nothing at all. *)
Theorem call_changes_one_part `{env : Externals} (c : Call) (m m' : Machine) :
  after (call c m) = Some m' ->
  constructionKept m m'
  /\ (forall part, changes c <> Some part -> partKept part m m')
  /\ (c = CallGetFunctionType -> m' = m).
Proof.
  intros Hafter.
  pose proof (keptBut_call c m) as Hk.
  assert (Hkept : keptBut (changes c) m m').
  { destruct (call c m); simpl in Hafter; by simplify_eq. }
  destruct Hkept as (Hc & _ & Hp).
  split; [done |]. split; [done |].
  intros ->. simpl in Hafter. by simplify_eq.
Qed.

(** A texture coordinate resolved as an output: the inputs, the locals and
    the atoms are as they were. *)
Lemma call_changes_one_part_witness :
  partKept InputParameters
    (machineOf 1 [mkParameter 0 GCT_FLOAT2 "iTexcoord_0" SPS_TEXTURE_COORDINATES 0 (SPC_OTHER 0)]
       [])
    (pushed OutputList
       (mkParameter 1 GCT_FLOAT2 "oTexcoord_0" SPS_TEXTURE_COORDINATES 0 (SPC_OTHER 0))
       (allocated
          (machineOf 1
             [mkParameter 0 GCT_FLOAT2 "iTexcoord_0" SPS_TEXTURE_COORDINATES 0 (SPC_OTHER 0)]
             []))).
Proof.
  apply (call_changes_one_part (env := canonicalExternals false)
           (CallResolveOutputParameter SPS_TEXTURE_COORDINATES (-1) (SPC_OTHER 0) GCT_FLOAT2)
           (machineOf 1
              [mkParameter 0 GCT_FLOAT2 "iTexcoord_0" SPS_TEXTURE_COORDINATES 0 (SPC_OTHER 0)]
              [])
           _ eq_refl).
  discriminate.
Defined.

(** X8: on every function reached by calls from a new one,
    [getFunctionType] returns the type the constructor was given and
    changes nothing, and the name and description are those the constructor
    was given: no member function changes them. *)
Theorem construction_data_kept `{env : Externals} (cs : list Call)
    (name desc : string) (functionType : FunctionType) (m : Machine) :
  run cs (freshMachine name desc functionType) = Some m ->
  getFunctionType m = Returned functionType m
  /\ mName (self m) = name
  /\ mDescription (self m) = desc.
Proof.
  intros Hrun.
  assert (Hk : constructionKept (freshMachine name desc functionType) m).
  { apply (run_keeps (constructionKept (freshMachine name desc functionType)))
      with (cs := cs) (m := freshMachine name desc functionType); [|done | done].
    intros c m1. pose proof (keptBut_call c m1) as Hc.
    destruct (call c m1) as [a m2|e m2|]; [| |done];
      destruct Hc as ((? & ? & ?) & _); intros (? & ? & ?);
      unfold constructionKept; repeat split; congruence. }
  destruct Hk as (Hn & Hd & Ht). simpl in *.
  unfold getFunctionType, bind, this, ret. by rewrite Ht.
Qed.

(** A function that has resolved a local parameter and registered an
    assignment. *)
Lemma construction_data_kept_witness :
  exists m,
    run (env := canonicalExternals false)
      [CallResolveLocalParameter_name SPS_UNKNOWN (-1) "lTemp" GCT_FLOAT4;
       CallAddAtomAssign None None 0]
      (freshMachine "main" "entry" (FunctionTypeTag 7)) = Some m
    /\ getFunctionType m = Returned (FunctionTypeTag 7) m.
Proof.
  eexists. split; [reflexivity |].
  apply (construction_data_kept (env := canonicalExternals false)
           [CallResolveLocalParameter_name SPS_UNKNOWN (-1) "lTemp" GCT_FLOAT4;
            CallAddAtomAssign None None 0]
           "main" "entry" (FunctionTypeTag 7) _ eq_refl).
Defined.

(** ** Names of the local parameters *)

Lemma generatedName_inj : Inj (=) (=) generatedName.
Proof.
  intros i j Hij. unfold generatedName in Hij. simpl in Hij.
  injection Hij as Hij. by apply (inj toString_size_t).
Qed.

(** The ways a request by content ends. *)
Lemma resolveLocalParameter_content_outcome (semantic : Semantic) (index : Z)
    (content : Content) (type : GpuConstantType) (m : Machine) :
  match effectiveType content type with
  | Raise e =>
      resolveLocalParameter_content semantic index content type m = Thrown e m
  | Ok t =>
      match getParameterByContent (mLocalParameters (self m)) content t with
      | Raise e =>
          resolveLocalParameter_content semantic index content type m = Thrown e m
      | Ok (Some q) =>
          resolveLocalParameter_content semantic index content type m = Returned (Some q) m
      | Ok None =>
          let p := mkParameter (nextAddr m) t
                     (generatedName (length (mLocalParameters (self m))))
                     semantic index content in
          (nameTaken (self m) p
           /\ resolveLocalParameter_content semantic index content type m
              = Thrown (alreadyDeclared p (self m)) (allocated m))
          \/ (~ nameTaken (self m) p
              /\ resolveLocalParameter_content semantic index content type m
                 = Returned (Some p) (pushed LocalList p (allocated m)))
      end
  end.
Proof.
  assert (Hrun : resolveLocalParameter_content semantic index content type m
                 = match effectiveType content type with
                   | Raise e => Thrown e m
                   | Ok t =>
                       match getParameterByContent (mLocalParameters (self m)) content t with
                       | Raise e => Thrown e m
                       | Ok (Some q) => Returned (Some q) m
                       | Ok None =>
                           let p := mkParameter (nextAddr m) t
                                      (generatedName (length (mLocalParameters (self m))))
                                      semantic index content in
                           bind (addParameter LocalList p) (fun _ => ret (Some p))
                                (allocated m)
                       end
                   end).
  { unfold resolveLocalParameter_content, effectiveType, bind at 1.
    destruct (bool_decide (type = GCT_UNKNOWN)).
    - unfold liftE at 1. destruct (typeFromContent content) as [t|e]; [|done].
      unfold bind at 1 2, this, liftE.
      by destruct (getParameterByContent (mLocalParameters (self m)) content t) as [[q|]|e].
    - unfold ret at 1, bind at 1 2, this, liftE.
      by destruct (getParameterByContent (mLocalParameters (self m)) content type)
        as [[q|]|e]. }
  rewrite Hrun. clear Hrun. destruct (effectiveType content type) as [t|e]; [|done].
  destruct (getParameterByContent (mLocalParameters (self m)) content t) as [[q|]|e];
    [done | | done].
  cbv zeta. set (p := mkParameter _ _ _ _ _ _). unfold bind.
  destruct (addParameter_outcome LocalList p (allocated m)) as [[Hn _]|[Hn _]].
  - left. split; [done |].
    by rewrite (addParameter_taken LocalList p (allocated m)).
  - right. split; [done |].
    by rewrite (addParameter_free LocalList p (allocated m)).
Qed.

Lemma localsNumbered_push (p : Param) (m : Machine) :
  getName p = generatedName (length (mLocalParameters (self m))) ->
  localsNumbered m -> localsNumbered (pushed LocalList p (allocated m)).
Proof.
  unfold localsNumbered. simpl. intros Hp Hm.
  rewrite fmap_app, length_app, Hm. simpl.
  rewrite Nat.add_1_r, seq_S, fmap_app. simpl. by rewrite Hp.
Qed.

(** Every call but a request by name keeps the local parameters named after
    their positions. *)
Lemma localsNumbered_call `{env : Externals} (c : Call) (m m' : Machine) :
  notByName c -> after (call c m) = Some m' -> localsNumbered m -> localsNumbered m'.
Proof.
  intros Hc Hafter Hm.
  assert (Hsame : mLocalParameters (self m') = mLocalParameters (self m) ->
                  localsNumbered m').
  { intros Hl. unfold localsNumbered. by rewrite Hl. }
  destruct (decide (changes c = Some LocalParameters)) as [Hl|Hl].
  - destruct c; try done. clear Hc Hl. cbn [call] in Hafter. unfold bind in Hafter.
    pose proof (resolveLocalParameter_content_outcome semantic index content type m) as Ho.
    destruct (effectiveType content type) as [t|e];
      [|rewrite Ho in Hafter; simpl in Hafter; by simplify_eq].
    destruct (getParameterByContent (mLocalParameters (self m)) content t) as [[q|]|e];
      [rewrite Ho in Hafter; simpl in Hafter; by simplify_eq | |
       rewrite Ho in Hafter; simpl in Hafter; by simplify_eq].
    destruct Ho as [[_ Ho]|[_ Ho]]; rewrite Ho in Hafter; simpl in Hafter; simplify_eq.
    + by apply Hsame.
    + by apply localsNumbered_push.
  - pose proof (keptBut_call c m) as Hk.
    assert (Hkept : keptBut (changes c) m m').
    { destruct (call c m); simpl in Hafter; by simplify_eq. }
    destruct Hkept as (_ & _ & Hp). by apply Hsame, (Hp LocalParameters).
Qed.

(** X9: on a function reached from a new one by calls none of which is a
    request for a local parameter by name, the local parameter at position
    [i] of the local list is named [lLocalParam_<i>]; so no two local
    parameters have the same name. *)
Theorem generated_local_names `{env : Externals} (cs : list Call)
    (name desc : string) (functionType : FunctionType) (m : Machine) :
  Forall notByName cs ->
  run cs (freshMachine name desc functionType) = Some m ->
  (forall i p, mLocalParameters (self m) !! i = Some p -> getName p = generatedName i)
  /\ NoDup (getName <$> mLocalParameters (self m)).
Proof.
  intros Hcs Hrun.
  assert (Hm : localsNumbered m).
  { assert (H0 : localsNumbered (freshMachine name desc functionType)) by done.
    revert Hcs Hrun H0. generalize (freshMachine name desc functionType).
    induction cs as [|c cs IH]; intros m0 Hcs Hrun H0; simpl in Hrun.
    - by simplify_eq.
    - apply Forall_cons in Hcs as [Hc Hcs].
      destruct (after (call c m0)) as [m1|] eqn:Hafter; [|done].
      apply (IH m1); [done | done |]. by eapply localsNumbered_call. }
  unfold localsNumbered in Hm. split.
  - intros i p Hi.
    assert (Hn : (getName <$> mLocalParameters (self m)) !! i = Some (getName p)).
    { by rewrite list_lookup_fmap, Hi. }
    rewrite Hm, list_lookup_fmap in Hn.
    destruct (seq 0 (length (mLocalParameters (self m))) !! i) as [j|] eqn:Hj; [|done].
    apply lookup_seq in Hj as [-> _]. simpl in Hn. by injection Hn as <-.
  - rewrite Hm. apply NoDup_fmap; [apply generatedName_inj | apply NoDup_seq].
Qed.

(** Two local parameters resolved by content on a new function. *)
Lemma generated_local_names_witness :
  exists m,
    run (env := canonicalExternals false)
      [CallResolveLocalParameter_content SPS_UNKNOWN (-1) SPC_COLOR_DIFFUSE GCT_UNKNOWN;
       CallResolveLocalParameter_content SPS_UNKNOWN (-1) SPC_NORMAL_WORLD_SPACE GCT_UNKNOWN]
      (freshMachine "main" "entry" (FunctionTypeTag 0)) = Some m
    /\ NoDup (getName <$> mLocalParameters (self m)).
Proof.
  eexists. split; [reflexivity |].
  apply (generated_local_names (env := canonicalExternals false)
           [CallResolveLocalParameter_content SPS_UNKNOWN (-1) SPC_COLOR_DIFFUSE GCT_UNKNOWN;
            CallResolveLocalParameter_content SPS_UNKNOWN (-1) SPC_NORMAL_WORLD_SPACE
              GCT_UNKNOWN]
           "main" "entry" (FunctionTypeTag 0) _); [|reflexivity].
  repeat constructor.
Defined.

(** ** Exceptions leave the function as it was *)

Lemma throwsUnchanged_kept {A} (c : M A) : steps selfKept c -> throwsUnchanged c.
Proof. intros Hc m e m' Hm. specialize (Hc m). by rewrite Hm in Hc. Qed.

Lemma throwsUnchanged_never {A} (c : M A) : neverThrows c -> throwsUnchanged c.
Proof. intros Hc m e m' Hm. by apply Hc in Hm. Qed.

(** A computation that touches nothing, followed by another. *)
Lemma throwsUnchanged_bind {A B} (c : M A) (k : A -> M B) :
  steps selfKept c -> (forall a, throwsUnchanged (k a)) -> throwsUnchanged (bind c k).
Proof.
  intros Hc Hk m e m'. unfold bind. specialize (Hc m).
  destruct (c m) as [a m1|e1 m1|]; [| |done].
  - intros Hm. apply Hk in Hm. unfold selfKept in Hc. congruence.
  - by intros [= <- <-].
Qed.

(** A computation followed by one that does not throw. *)
Lemma throwsUnchanged_then {A B} (c : M A) (k : A -> M B) :
  throwsUnchanged c -> (forall a, neverThrows (k a)) -> throwsUnchanged (bind c k).
Proof.
  intros Hc Hk m e m'. unfold bind. specialize (Hc m).
  destruct (c m) as [a m1|e1 m1|]; [| |done].
  - intros Hm. by apply Hk in Hm.
  - intros [= <- <-]. by eapply Hc.
Qed.

Lemma neverThrows_ret {A} (a : A) : neverThrows (ret a).
Proof. by intros m e m'. Qed.

Lemma neverThrows_modify (f : Function -> Function) : neverThrows (modify f).
Proof. by intros m e m'. Qed.

Lemma neverThrows_bind {A B} (c : M A) (k : A -> M B) :
  neverThrows c -> (forall a, neverThrows (k a)) -> neverThrows (bind c k).
Proof.
  intros Hc Hk m e m'. unfold bind. specialize (Hc m).
  destruct (c m) as [a m1|e1 m1|]; [apply Hk | by destruct (Hc e1 m1) | done].
Qed.

Lemma throwsUnchanged_addParameter (which : WhichList) (p : Param) :
  throwsUnchanged (addParameter which p).
Proof.
  intros m e m' Hm.
  destruct (addParameter_outcome which p m) as [[_ (e' & He & _)]|[_ Hr]];
    rewrite Hm in *; by simplify_eq.
Qed.

Lemma throwsUnchanged_addInputParameter (p : Param) :
  throwsUnchanged (addInputParameter p).
Proof.
  intros m e m' Hm.
  destruct (addInputParameter_outcome p m) as [[_ (e' & He & _)]|[_ Hr]];
    rewrite Hm in *; by simplify_eq.
Qed.

Lemma throwsUnchanged_addOutputParameter (p : Param) :
  throwsUnchanged (addOutputParameter p).
Proof.
  intros m e m' Hm.
  destruct (addOutputParameter_outcome p m) as [[_ (e' & He & _)]|[_ Hr]];
    rewrite Hm in *; by simplify_eq.
Qed.

(** Takes a member function apart along its binds and branches, the
    computations in front touching nothing. *)
Ltac throws_structure :=
  repeat match goal with
  | |- throwsUnchanged (ret _) => apply throwsUnchanged_never, neverThrows_ret
  | |- throwsUnchanged (OGRE_EXCEPT _ _ _) =>
      apply throwsUnchanged_kept, steps_OGRE_EXCEPT
  | |- throwsUnchanged (bind (addInputParameter _) _) =>
      apply throwsUnchanged_then;
      [apply throwsUnchanged_addInputParameter | intros ?; apply neverThrows_ret]
  | |- throwsUnchanged (bind (addOutputParameter _) _) =>
      apply throwsUnchanged_then;
      [apply throwsUnchanged_addOutputParameter | intros ?; apply neverThrows_ret]
  | |- throwsUnchanged (bind (addParameter _ _) _) =>
      apply throwsUnchanged_then;
      [apply throwsUnchanged_addParameter | intros ?; apply neverThrows_ret]
  | |- throwsUnchanged (bind _ _) => apply throwsUnchanged_bind; [| intros ?]
  | |- throwsUnchanged (if ?b then _ else _) => destruct b
  | |- throwsUnchanged (match ?x with _ => _ end) => destruct x
  end.

Section Throws.
Context `{env : Externals}.

Lemma selfKept_createOutputBySemantic s i c t param :
  steps selfKept (createOutputBySemantic s i c t param).
Proof.
  unfold createOutputBySemantic, fromFactory. steps_structure;
    by apply steps_new_Parameter.
Qed.

Lemma throwsUnchanged_resolveInputParameter s i c t :
  throwsUnchanged (resolveInputParameter s i c t).
Proof.
  unfold resolveInputParameter, createAndAddInput.
  throws_structure;
    first [apply steps_this | apply steps_liftE | apply selfKept_createInputBySemantic].
Qed.

Lemma throwsUnchanged_resolveOutputParameter s i c t :
  throwsUnchanged (resolveOutputParameter s i c t).
Proof.
  unfold resolveOutputParameter, createAndAddOutput.
  throws_structure;
    first [apply steps_this | apply steps_liftE | apply selfKept_createOutputBySemantic].
Qed.

Lemma throwsUnchanged_resolveLocalParameter_name s i n t :
  throwsUnchanged (resolveLocalParameter_name s i n t).
Proof.
  unfold resolveLocalParameter_name.
  throws_structure; first [apply steps_this | by apply steps_new_Parameter].
Qed.

Lemma throwsUnchanged_resolveLocalParameter_content s i c t :
  throwsUnchanged (resolveLocalParameter_content s i c t).
Proof.
  unfold resolveLocalParameter_content.
  throws_structure; steps_structure; by apply steps_new_Parameter.
Qed.

Lemma neverThrows_new_atom kind g ops :
  neverThrows (bind (new_FunctionAtom kind g ops) addAtomInstance).
Proof. by intros m e m'. Qed.

Lemma neverThrows_deleteAtomInstance a : neverThrows (deleteAtomInstance a).
Proof.
  intros m e m'. unfold deleteAtomInstance, bind, this, modify, ret.
  by destruct (findAtom _ _).
Qed.

Lemma neverThrows_getAtomInstances : neverThrows getAtomInstances.
Proof.
  intros m e m'. unfold getAtomInstances, bind, this, modify, ret.
  by destruct (mSortedAtomInstances (self m)).
Qed.

Lemma throwsUnchanged_call (c : Call) : throwsUnchanged (call c).
Proof.
  assert (Hdrop : forall A (c : M A),
            throwsUnchanged c -> throwsUnchanged (bind c (fun _ => ret tt))).
  { intros A c0 Hc. apply throwsUnchanged_then; [done |].
    intros ?. apply neverThrows_ret. }
  destruct c; cbn [call].
  - apply Hdrop, throwsUnchanged_resolveInputParameter.
  - apply Hdrop, throwsUnchanged_resolveOutputParameter.
  - apply Hdrop, throwsUnchanged_resolveLocalParameter_name.
  - apply Hdrop, throwsUnchanged_resolveLocalParameter_content.
  - apply throwsUnchanged_addInputParameter.
  - apply throwsUnchanged_addOutputParameter.
  - apply throwsUnchanged_never, neverThrows_modify.
  - apply throwsUnchanged_never, neverThrows_modify.
  - apply throwsUnchanged_never, neverThrows_modify.
  - apply throwsUnchanged_never, neverThrows_modify.
  - apply throwsUnchanged_never, neverThrows_modify.
  - apply throwsUnchanged_never, neverThrows_new_atom.
  - apply throwsUnchanged_never, neverThrows_new_atom.
  - apply throwsUnchanged_never, neverThrows_new_atom.
  - apply throwsUnchanged_never, neverThrows_new_atom.
  - apply Hdrop, throwsUnchanged_never, neverThrows_deleteAtomInstance.
  - apply Hdrop, throwsUnchanged_never, neverThrows_getAtomInstances.
  - by intros m e m'.
Qed.

End Throws.

(** X10: a call of a public member function that throws has changed
    nothing of the function: the three parameter lists, the atoms and their
    cache are as they were when the call was made.  Only the resolve
    functions and the two adds throw; the functions that delete
    parameters, those that work on the atoms and the getter never do. *)
Theorem throwing_call_changes_nothing `{env : Externals} (c : Call)
    (m m' : Machine) (e : Exception) :
  call c m = Thrown e m' ->
  self m' = self m /\ mayThrow c.
Proof.
  intros Hcall.
  split; [by eapply throwsUnchanged_call |].
  destruct c; cbn [mayThrow]; try exact I; exfalso; cbn [call] in Hcall;
    revert Hcall;
    first [ apply neverThrows_modify
          | apply neverThrows_new_atom
          | apply neverThrows_bind;
            [first [ apply neverThrows_deleteAtomInstance
                   | apply neverThrows_getAtomInstances
                   | by intros ? ? ? ]
            | intros ?; apply neverThrows_ret] ].
Qed.

(** A texture coordinate asked for as an input at an index that a
    parameter of the semantic with another content has: the factory makes a
    parameter, the add throws, and the function is as it was. *)
Lemma throwing_call_changes_nothing_witness :
  exists e m',
    call (env := canonicalExternals false)
      (CallResolveInputParameter SPS_TEXTURE_COORDINATES 0 (SPC_OTHER 1) GCT_FLOAT2)
      (machineOf 1
         [mkParameter 0 GCT_FLOAT2 "iTexcoord_0" SPS_TEXTURE_COORDINATES 0 (SPC_OTHER 0)] [])
    = Thrown e m'
    /\ self m'
       = self (machineOf 1
                 [mkParameter 0 GCT_FLOAT2 "iTexcoord_0" SPS_TEXTURE_COORDINATES 0
                    (SPC_OTHER 0)] []).
Proof.
  eexists _, _. split; [reflexivity |].
  apply (throwing_call_changes_nothing (env := canonicalExternals false)
           (CallResolveInputParameter SPS_TEXTURE_COORDINATES 0 (SPC_OTHER 1) GCT_FLOAT2)
           (machineOf 1
              [mkParameter 0 GCT_FLOAT2 "iTexcoord_0" SPS_TEXTURE_COORDINATES 0
                 (SPC_OTHER 0)] [])
           _ _ eq_refl).
Defined.

(** ** What the resolve functions return *)

Section Returns.
Context `{env : Externals}.

(** What the switch of a resolve function returns: the pointer it was
    given, for the unknown semantic; nothing; or a new object. *)
Lemma createInputBySemantic_returns s i c t param (m m1 : Machine) (r : option Param) :
  createInputBySemantic s i c t param m = Returned r m1 ->
  (s = SPS_UNKNOWN /\ r = param /\ m1 = m)
  \/ (r = None /\ m1 = m)
  \/ (exists a, r = Some (objectAt (nextAddr m) a) /\ m1 = allocated m).
Proof.
  assert (Hfac : forall a, fromFactory a m = Returned r m1 ->
            (r = None /\ m1 = m)
            \/ (exists a, r = Some (objectAt (nextAddr m) a) /\ m1 = allocated m)).
  { intros [a|]; simpl; unfold bind, new_Parameter, ret; intros [= <- <-];
      [right; by exists a | by left]. }
  destruct s; simpl; unfold bind, assert_;
    try (destruct NDEBUG); try (destruct (bool_decide _)); simpl;
    try done;
    try (intros H; right; exact (Hfac _ H)).
  all: intros [= <- <-]; by left.
Qed.

Lemma createOutputBySemantic_returns s i c t param (m m1 : Machine) (r : option Param) :
  createOutputBySemantic s i c t param m = Returned r m1 ->
  (s = SPS_UNKNOWN /\ r = param /\ m1 = m)
  \/ (r = None /\ m1 = m)
  \/ (exists a, r = Some (objectAt (nextAddr m) a) /\ m1 = allocated m).
Proof.
  assert (Hfac : forall a, fromFactory a m = Returned r m1 ->
            (r = None /\ m1 = m)
            \/ (exists a, r = Some (objectAt (nextAddr m) a) /\ m1 = allocated m)).
  { intros [a|]; simpl; unfold bind, new_Parameter, ret; intros [= <- <-];
      [right; by exists a | by left]. }
  destruct s; simpl; unfold bind, assert_, this, OGRE_EXCEPT;
    try (destruct NDEBUG); try (destruct (bool_decide _)); simpl;
    try done;
    try (intros H; right; exact (Hfac _ H)).
  all: intros [= <- <-]; by left.
Qed.

(** The creating half, entered with an empty pointer or with a parameter of
    the list: when it returns, it has done nothing and returns nothing, or
    it has made an object and pushed it. *)
Lemma createAndAdd_returns (d : Direction) s i c t param (m m1 : Machine)
    (r : option Param) :
  (forall q, param = Some q -> bindingTaken (parametersOf d (self m)) q) ->
  createAndAdd d s i c t param m = Returned r m1 ->
  match r with
  | None => m1 = m
  | Some p => paramAddr p = nextAddr m /\ m1 = pushed (listOf d) p (allocated m)
  end.
Proof.
  intros Hparam.
  destruct d; cbn [createAndAdd parametersOf listOf] in *.
  - unfold createAndAddInput, bind at 1.
    destruct (createInputBySemantic s i c t param m) as [r0 m0| |] eqn:Hc; [|done..].
    apply createInputBySemantic_returns in Hc
      as [(_ & -> & ->)|[(-> & ->)|(a & -> & ->)]].
    + destruct param as [q|]; [|by intros [= <- <-]].
      unfold bind. by rewrite addInputParameter_taken by auto.
    + by intros [= <- <-].
    + unfold bind, ret.
      destruct (addInputParameter_outcome (objectAt (nextAddr m) a) (allocated m))
        as [[_ (e & -> & _)]|[_ ->]]; [done |].
      by intros [= <- <-].
  - unfold createAndAddOutput, bind at 1.
    destruct (createOutputBySemantic s i c t param m) as [r0 m0| |] eqn:Hc; [|done..].
    apply createOutputBySemantic_returns in Hc
      as [(_ & -> & ->)|[(-> & ->)|(a & -> & ->)]].
    + destruct param as [q|]; [|by intros [= <- <-]].
      unfold bind. by rewrite addOutputParameter_taken by auto.
    + by intros [= <- <-].
    + unfold bind, ret.
      destruct (addOutputParameter_outcome (objectAt (nextAddr m) a) (allocated m))
        as [[_ (e & -> & _)]|[_ ->]]; [done |].
      by intros [= <- <-].
Qed.

(** A resolve function along its lookups. *)
Lemma resolve_paths (d : Direction) semantic index content type (m : Machine) :
  resolveParameter d semantic index content type m
  = match getParameterByContent (parametersOf d (self m)) content type with
    | Raise e => Thrown e m
    | Ok (Some p) => Returned (Some p) m
    | Ok None =>
        if bool_decide (index = -1) then
          createAndAdd d semantic (nextIndex (parametersOf d (self m)) semantic 0)
                       content type None m
        else
          match getParameterBySemantic (parametersOf d (self m)) semantic index with
          | Some p =>
              if bool_decide (getContent p = content) then
                if bool_decide (getType p = type) then Returned (Some p) m
                else Thrown (typeMismatch d semantic index (self m)) m
              else createAndAdd d semantic index content type (Some p) m
          | None => createAndAdd d semantic index content type None m
          end
    end.
Proof.
  destruct (getParameterByContent (parametersOf d (self m)) content type)
    as [[p|]|e] eqn:Hc.
  - by apply resolve_found_by_content.
  - case_bool_decide as Hi.
    + subst index. destruct d; cbn [resolveParameter createAndAdd parametersOf] in *;
        [by apply resolveInput_next_index | by apply resolveOutput_next_index].
    + destruct d; cbn [resolveParameter createAndAdd parametersOf] in *;
        [by apply resolveInput_explicit | by apply resolveOutput_explicit].
  - by apply resolve_lookup_throws.
Qed.

End Returns.

(** X11: when [resolveInputParameter] (or [resolveOutputParameter])
    returns a parameter, the parameter is in the input (output) list: it
    was there before the call, which then has changed nothing, or the call
    has made it as a new object and pushed it at the back of the list.  When
    it returns the empty pointer, it has changed nothing.  So the call
    registers at most one parameter, and never returns one that is not
    registered. *)
Theorem resolve_returns_registered `{env : Externals} (d : Direction)
    (semantic : Semantic) (index : Z) (content : Content) (type : GpuConstantType)
    (m m' : Machine) (r : ParameterPtr) :
  resolveParameter d semantic index content type m = Returned r m' ->
  foundOrMade (listOf d) r m m'
  /\ (forall p, r = Some p ->
        p ∈ parametersOf d (self m')
        /\ (m' = m -> p ∈ parametersOf d (self m))
        /\ (m' <> m -> parametersOf d (self m') = parametersOf d (self m) ++ [p])).
Proof.
  intros Hcall.
  assert (Hmade : forall param,
            (forall q, param = Some q -> bindingTaken (parametersOf d (self m)) q) ->
            forall i, createAndAdd d semantic i content type param m = Returned r m' ->
            foundOrMade (listOf d) r m m'
            /\ (forall p, r = Some p -> m' <> m /\ p ∈ parametersOf d (self m'))).
  { intros param Hparam i Hc.
    apply createAndAdd_returns in Hc; [|done].
    destruct r as [p|]; [|by split].
    destruct Hc as [Ha ->]. split; [by right |].
    intros ? [= <-]. split.
    - intros Hm. apply (f_equal nextAddr) in Hm. simpl in Hm. lia.
    - destruct d; simpl; set_solver. }
  assert (Hfound : forall p, p ∈ parametersOf d (self m) -> r = Some p -> m' = m ->
            foundOrMade (listOf d) r m m'
            /\ (forall p, r = Some p ->
                  p ∈ parametersOf d (self m')
                  /\ (m' = m -> p ∈ parametersOf d (self m))
                  /\ (m' <> m -> parametersOf d (self m') = parametersOf d (self m) ++ [p]))).
  { intros p Hp -> ->. split; [by left |]. by intros ? [= <-]. }
  assert (Hfinish : foundOrMade (listOf d) r m m'
                    /\ (forall p, r = Some p -> m' <> m /\ p ∈ parametersOf d (self m')) ->
            foundOrMade (listOf d) r m m'
            /\ (forall p, r = Some p ->
                  p ∈ parametersOf d (self m')
                  /\ (m' = m -> p ∈ parametersOf d (self m))
                  /\ (m' <> m -> parametersOf d (self m') = parametersOf d (self m) ++ [p]))).
  { intros [Hf Hp]. split; [done |]. intros p ->.
    destruct (Hp p eq_refl) as [Hneq Hin]. split; [done |]. split; [done |].
    intros _. destruct Hf as [?|[_ ->]]; [done |]. by destruct d. }
  rewrite resolve_paths in Hcall.
  destruct (getParameterByContent (parametersOf d (self m)) content type)
    as [[p|]|e] eqn:Hc; [| |done].
  - injection Hcall as <- <-.
    apply (Hfound p); [by eapply getParameterByContent_finds | done..].
  - case_bool_decide as Hi; [by eapply Hfinish, (Hmade None) |].
    destruct (getParameterBySemantic (parametersOf d (self m)) semantic index)
      as [p|] eqn:Hp; [|by eapply Hfinish, (Hmade None)].
    apply getParameterBySemantic_Some in Hp as (Hin & Hs & Hx).
    case_bool_decide as Hpc.
    + case_bool_decide as Hpt; [|done].
      injection Hcall as <- <-. by apply (Hfound p).
    + eapply Hfinish, (Hmade (Some p)); [|done].
      intros q [= <-]. by exists p.
Qed.

(** A texture coordinate resolved as an input on a new function. *)
Lemma resolve_returns_registered_witness :
  foundOrMade InputList
    (Some (mkParameter 0 GCT_FLOAT2 "iTexcoord_0" SPS_TEXTURE_COORDINATES 0 (SPC_OTHER 0)))
    (freshMachine "main" "entry" (FunctionTypeTag 0))
    (pushed InputList
       (mkParameter 0 GCT_FLOAT2 "iTexcoord_0" SPS_TEXTURE_COORDINATES 0 (SPC_OTHER 0))
       (allocated (freshMachine "main" "entry" (FunctionTypeTag 0)))).
Proof.
  apply (resolve_returns_registered (env := canonicalExternals false) Input
           SPS_TEXTURE_COORDINATES (-1) (SPC_OTHER 0) GCT_FLOAT2
           (freshMachine "main" "entry" (FunctionTypeTag 0)) _ _ eq_refl).
Defined.

(** ** Local parameters resolved by content, again *)

(** With a known type, the lookup by content is the scan for the content
    and type, made for a known content only. *)
Lemma getParameterByContent_known (l : list Param) (content : Content)
    (t : GpuConstantType) :
  t <> GCT_UNKNOWN ->
  getParameterByContent l content t
  = Ok (if bool_decide (content <> SPC_UNKNOWN) then findByContent l content t else None).
Proof.
  intros Ht. unfold getParameterByContent.
  rewrite bool_decide_eq_false_2 by done. by case_bool_decide.
Qed.

(** X12: when [resolveLocalParameter] by content returns, it returns a
    parameter of the local list that has the requested content and the
    requested type, the type derived from the content when an unknown type
    was requested: one that was there, or a new one pushed at the back.
    For a known content, every later request for the content and type
    returns the very same object and changes nothing, whatever semantic and
    index it asks for.  For the unknown content the parameter is always a
    new one, and a later request that returns makes yet another. *)
Theorem resolveLocalParameter_content_again (semantic : Semantic) (index : Z)
    (content : Content) (type : GpuConstantType) (m m1 : Machine) (r : ParameterPtr) :
  resolveLocalParameter_content semantic index content type m = Returned r m1 ->
  exists p t,
    r = Some p
    /\ effectiveType content type = Ok t
    /\ p ∈ mLocalParameters (self m1)
    /\ getContent p = content /\ getType p = t
    /\ foundOrMade LocalList r m m1
    /\ (content <> SPC_UNKNOWN ->
        forall semantic' index',
          resolveLocalParameter_content semantic' index' content type m1
          = Returned (Some p) m1)
    /\ (content = SPC_UNKNOWN ->
        paramAddr p = nextAddr m
        /\ m1 = pushed LocalList p (allocated m)
        /\ forall semantic' index' r' m2,
             resolveLocalParameter_content semantic' index' content type m1
             = Returned r' m2 ->
             exists p', r' = Some p' /\ paramAddr p' = S (nextAddr m)
                        /\ mLocalParameters (self m2)
                           = mLocalParameters (self m) ++ [p; p']).
Proof.
  intros Hcall.
  pose proof (resolveLocalParameter_content_outcome semantic index content type m) as Ho.
  destruct (effectiveType content type) as [t|e] eqn:Ht; [|by rewrite Ho in Hcall].
  pose proof (effectiveType_known _ _ _ Ht) as Hknown.
  assert (Hagain : forall p m',
            findByContent (mLocalParameters (self m')) content t = Some p ->
            content <> SPC_UNKNOWN ->
            forall semantic' index',
              resolveLocalParameter_content semantic' index' content type m'
              = Returned (Some p) m').
  { intros p m' Hp Hc semantic' index'.
    pose proof (resolveLocalParameter_content_outcome semantic' index' content type m')
      as Ho'.
    rewrite Ht, getParameterByContent_known in Ho' by done.
    by rewrite bool_decide_eq_true_2, Hp in Ho' by done. }
  rewrite getParameterByContent_known in Ho by done.
  case_bool_decide as Hc.
  - destruct (findByContent (mLocalParameters (self m)) content t) as [q|] eqn:Hq.
    + rewrite Ho in Hcall. injection Hcall as <- <-.
      pose proof (findByContent_Some _ _ _ _ Hq) as (Hin & Hqc & Hqt).
      exists q, t. split; [done |]. split; [done |]. split; [done |].
      split; [done |]. split; [done |]. split; [by left |].
      split; [intros _; by apply Hagain | done].
    + cbv zeta in Ho. set (p := mkParameter _ _ _ _ _ _) in *.
      destruct Ho as [[_ Ho]|[_ Ho]]; rewrite Ho in Hcall; [done |].
      injection Hcall as <- <-.
      exists p, t. split; [done |]. split; [done |].
      split; [simpl; set_solver |].
      split; [done |]. split; [done |]. split; [by right |].
      split; [|done]. intros _. apply Hagain; [|done].
      simpl. rewrite findByContent_app, Hq. simpl.
      by rewrite !bool_decide_eq_true_2.
  - assert (content = SPC_UNKNOWN) as -> by (by destruct (decide (content = SPC_UNKNOWN))).
    cbv zeta in Ho. set (p := mkParameter _ _ _ _ _ _) in *.
    destruct Ho as [[_ Ho]|[_ Ho]]; rewrite Ho in Hcall; [done |].
    injection Hcall as <- <-.
    exists p, t. split; [done |]. split; [done |].
    split; [simpl; set_solver |].
    split; [done |]. split; [done |]. split; [by right |].
    split; [done |]. intros _. split; [done |]. split; [done |].
    intros semantic' index' r' m2 Hcall'.
    pose proof (resolveLocalParameter_content_outcome semantic' index' SPC_UNKNOWN type
                  (pushed LocalList p (allocated m))) as Ho'.
    rewrite Ht, getParameterByContent_known in Ho' by done.
    rewrite bool_decide_eq_false_2 in Ho' by (by intros ?).
    cbv zeta in Ho'.
    destruct Ho' as [[_ Ho']|[_ Ho']]; rewrite Ho' in Hcall'; [done |].
    injection Hcall' as <- <-.
    eexists. split; [reflexivity |]. split; [reflexivity |].
    simpl. by rewrite <- app_assoc.
Qed.

(** The diffuse color resolved as a local parameter on a new function, and
    asked for again with another semantic and index. *)
Lemma resolveLocalParameter_content_again_witness :
  resolveLocalParameter_content SPS_COLOR 3 SPC_COLOR_DIFFUSE GCT_UNKNOWN
    (pushed LocalList
       (mkParameter 0 GCT_FLOAT4 "lLocalParam_0" SPS_UNKNOWN (-1) SPC_COLOR_DIFFUSE)
       (allocated (freshMachine "main" "entry" (FunctionTypeTag 0))))
  = Returned
      (Some (mkParameter 0 GCT_FLOAT4 "lLocalParam_0" SPS_UNKNOWN (-1) SPC_COLOR_DIFFUSE))
      (pushed LocalList
         (mkParameter 0 GCT_FLOAT4 "lLocalParam_0" SPS_UNKNOWN (-1) SPC_COLOR_DIFFUSE)
         (allocated (freshMachine "main" "entry" (FunctionTypeTag 0)))).
Proof.
  destruct (resolveLocalParameter_content_again SPS_UNKNOWN (-1) SPC_COLOR_DIFFUSE
              GCT_UNKNOWN (freshMachine "main" "entry" (FunctionTypeTag 0)) _ _ eq_refl)
    as (p & t & [= <-] & _ & _ & _ & _ & _ & Hagain & _).
  apply Hagain. discriminate.
Defined.

(** ** Where an atom is inserted *)

Lemma filter_all {A} (P : A -> Prop) `{!forall x, Decision (P x)} (l : list A) :
  Forall P l -> filter P l = l.
Proof.
  induction 1 as [|x l Hx Hl IH]; [done |]. by rewrite filter_cons_True, IH.
Qed.

Lemma filter_none {A} (P : A -> Prop) `{!forall x, Decision (P x)} (l : list A) :
  Forall (fun x => ~ P x) l -> filter P l = [].
Proof.
  induction 1 as [|x l Hx Hl IH]; [done |]. by rewrite filter_cons_False.
Qed.

Lemma flatten_below (m : list (Z * list FunctionAtom)) (k : Z) :
  keyed m -> Forall (fun k' => k < k') (fst <$> m) ->
  filter (fun x => key x <= k) (flatten m) = []
  /\ filter (fun x => k < key x) (flatten m) = flatten m.
Proof.
  intros Hm Hall.
  assert (Hx : forall x, x ∈ flatten m -> k < key x).
  { intros x Hx. apply (flatten_keys m x Hm) in Hx.
    by eapply Forall_forall in Hall. }
  split.
  - apply filter_none, Forall_forall. intros x Hin. specialize (Hx x Hin). lia.
  - apply filter_all, Forall_forall. intros x Hin. by apply Hx.
Qed.

(** An atom filed under a key comes after the atoms of that key and of the
    keys below, and before the atoms of the keys above. *)
Lemma flatten_at_key_insert (m : list (Z * list FunctionAtom)) (a : FunctionAtom) (k : Z) :
  keysAscend m -> keyed m ->
  flatten (at_key m k (fun bucket => bucket ++ [a]))
  = filter (fun x => key x <= k) (flatten m) ++ a :: filter (fun x => k < key x) (flatten m).
Proof.
  unfold keysAscend. induction m as [|[k0 b] m IH]; intros Hs Hm; [done |].
  rewrite fmap_cons in Hs. cbn [fst] in Hs.
  apply StronglySorted_inv in Hs as [Hs Hall].
  pose proof Hm as Hm0.
  apply Forall_cons in Hm as [Hb Hm]. cbn [fst snd] in Hb.
  cbn [at_key]. destruct (k <? k0) eqn:Hlt; [|destruct (k =? k0) eqn:Heq].
  - apply Z.ltb_lt in Hlt.
    destruct (flatten_below ((k0, b) :: m) k) as [-> ->]; [done | | done].
    rewrite fmap_cons. constructor; [done |].
    eapply Forall_impl; [exact Hall |]. simpl. lia.
  - apply Z.eqb_eq in Heq as ->.
    destruct (flatten_below m k0) as [Hle Hgt]; [done | done |].
    rewrite !flatten_cons, !filter_app, Hle, Hgt, app_nil_r.
    rewrite (filter_all _ b)
      by (eapply Forall_impl; [exact Hb |]; simpl; lia).
    rewrite (filter_none (fun x => k0 < key x) b)
      by (eapply Forall_impl; [exact Hb |]; simpl; lia).
    by rewrite <- app_assoc.
  - apply Z.ltb_ge in Hlt. apply Z.eqb_neq in Heq.
    rewrite !flatten_cons, IH by done. rewrite !filter_app.
    rewrite (filter_all _ b)
      by (eapply Forall_impl; [exact Hb |]; simpl; lia).
    rewrite (filter_none (fun x => k < key x) b)
      by (eapply Forall_impl; [exact Hb |]; simpl; lia).
    by rewrite <- app_assoc.
Qed.

(** A call that registers an atom files it with [addAtomInstance], after an
    allocation if it makes the atom. *)
Lemma created_call `{env : Externals} (c : Call) (m : Machine) (a : FunctionAtom) :
  created c m = Some a ->
  exists m0, atomsKept m m0 /\ call c m = addAtomInstance a m0.
Proof.
  destruct c; cbn [created call]; try done; intros [= <-];
    first [by exists m | by exists (allocated m)].
Qed.

(** X13: on a function reached by calls from a new one, a call that
    registers an atom ([addAtomInstance], [addAtomAssign], and
    [callFunction], [sampleTexture] and [assign] of a stage reference, which
    make the atom with the stage converted to [int] as its group order)
    returns, and the next retrieval has the new atom after all the atoms
    whose key is at most its key and before all the atoms of a greater key,
    the key of an atom being its group order converted to [size_t]; the
    other atoms keep their places relative to one another. *)
Theorem atom_inserted_in_key_order `{env : Externals} (cs : list Call)
    (name desc : string) (functionType : FunctionType) (m : Machine)
    (c : Call) (a : FunctionAtom) :
  run cs (freshMachine name desc functionType) = Some m ->
  created c m = Some a ->
  exists atoms m0 m1 m2,
    getAtomInstances m = Returned atoms m0
    /\ call c m = Returned tt m1
    /\ getAtomInstances m1
       = Returned (filter (fun x => key x <= key a) atoms
                     ++ a :: filter (fun x => key a < key x) atoms) m2.
Proof.
  intros Hrun Hc.
  set (reg := registered cs (freshMachine name desc functionType) []).
  assert (Hh : holds reg m) by (by eapply holds_run; [apply holds_fresh |]).
  destruct (holds_getAtomInstances reg m Hh) as (m0 & Hget & _).
  destruct (created_call c m a Hc) as (ma & Hkept & Hcall).
  pose proof (holds_ext reg m ma Hkept Hh) as Hha.
  destruct (holds_addAtomInstance reg a ma Hha) as (m1 & Hadd & Hh1 & _ & Hmap).
  destruct (holds_getAtomInstances _ m1 Hh1) as (m2 & Hget1 & _).
  exists (flatten (mAtomInstances (self m))), m0, m1, m2.
  split; [done |]. split; [by rewrite Hcall |].
  rewrite Hget1, Hmap. destruct Hkept as [-> _].
  destruct Hh as (Hs & Hk & _).
  by rewrite flatten_at_key_insert.
Qed.

(** A function call emitted for the stage 4294967295 after assignments of
    the group orders 0 and -2: its atom has the group order -1 and the
    greatest key, and is retrieved last. *)
Lemma atom_inserted_in_key_order_witness :
  exists atoms m0 m1 m2,
    getAtomInstances
      (mkMachine 2
         (mkFunction "main" "entry" (FunctionTypeTag 0) [] [] []
            [(0, [mkAtom 0 AssignmentAtom 0 [mkOperand None OPS_OUT; mkOperand None OPS_IN]]);
             (18446744073709551614,
              [mkAtom 1 AssignmentAtom (-2) [mkOperand None OPS_OUT; mkOperand None OPS_IN]])]
            []))
    = Returned atoms m0
    /\ call (env := canonicalExternals false)
         (CallStageCallFunction 4294967295 "FFP_Transform" [])
         (mkMachine 2
            (mkFunction "main" "entry" (FunctionTypeTag 0) [] [] []
               [(0, [mkAtom 0 AssignmentAtom 0 [mkOperand None OPS_OUT; mkOperand None OPS_IN]]);
                (18446744073709551614,
                 [mkAtom 1 AssignmentAtom (-2)
                    [mkOperand None OPS_OUT; mkOperand None OPS_IN]])]
               []))
       = Returned tt m1
    /\ getAtomInstances m1
       = Returned
           (filter (fun x => key x <= key (mkAtom 2 (FunctionInvocation "FFP_Transform") (-1) []))
                   atoms
              ++ mkAtom 2 (FunctionInvocation "FFP_Transform") (-1) []
              :: filter (fun x => key (mkAtom 2 (FunctionInvocation "FFP_Transform") (-1) [])
                                  < key x) atoms)
           m2.
Proof.
  apply (atom_inserted_in_key_order (env := canonicalExternals false)
           [CallAddAtomAssign None None 0; CallAddAtomAssign None None (-2)]
           "main" "entry" (FunctionTypeTag 0) _
           (CallStageCallFunction 4294967295 "FFP_Transform" [])
           (mkAtom 2 (FunctionInvocation "FFP_Transform") (-1) [])
           eq_refl eq_refl).
Defined.

(** ** Deleting an atom *)

Lemma findAtom_true (b : list FunctionAtom) (a : FunctionAtom) :
  findAtom b a = true <-> exists x, x ∈ b /\ atomAddr x = atomAddr a.
Proof.
  induction b as [|y b IH]; simpl.
  - split; [done | by intros (x & Hx & _); inversion Hx].
  - unfold atom_ptr_eqb. case_bool_decide as Hy.
    + split; [intros _; exists y; split; [by left | done] | done].
    + rewrite IH. split.
      * intros (x & Hx & Ha). exists x. split; [by right | done].
      * intros (x & [->|Hx]%elem_of_cons & Ha); [done | by exists x].
Qed.

Lemma eraseAtom_split (b : list FunctionAtom) (a : FunctionAtom) :
  findAtom b a = true ->
  exists b1 x b2,
    b = b1 ++ x :: b2 /\ atomAddr x = atomAddr a
    /\ (forall y, y ∈ b1 -> atomAddr y <> atomAddr a)
    /\ eraseAtom b a = b1 ++ b2.
Proof.
  induction b as [|y b IH]; simpl; [done |].
  unfold atom_ptr_eqb. case_bool_decide as Hy.
  - intros _. exists [], y, b. split; [done |]. split; [done |].
    split; [by intros ? Hin; inversion Hin | done].
  - intros (b1 & x & b2 & -> & Hx & Hb1 & ->)%IH.
    exists (y :: b1), x, b2. split; [done |]. split; [done |].
    split; [|done]. intros z [->|Hz]%elem_of_cons; auto.
Qed.

(** Erasing the pointer from the bucket of its key takes out of the
    flattened map the first atom that is the pointer and has the key. *)
Lemma flatten_at_key_erase (m : list (Z * list FunctionAtom)) (a : FunctionAtom) :
  keysAscend m -> keyed m ->
  findAtom (bucket_at m (key a)) a = true ->
  exists l1 x l2,
    flatten m = l1 ++ x :: l2 /\ deletes a x
    /\ (forall y, y ∈ l1 -> ~ deletes a y)
    /\ flatten (at_key m (key a) (fun bucket => eraseAtom bucket a)) = l1 ++ l2.
Proof.
  unfold keysAscend. induction m as [|[k0 b] m IH]; intros Hs Hm Hfind; [done |].
  rewrite fmap_cons in Hs. cbn [fst] in Hs.
  apply StronglySorted_inv in Hs as [Hs Hall].
  apply Forall_cons in Hm as [Hb Hm]. cbn [fst snd] in Hb.
  cbn [bucket_at] in Hfind. cbn [at_key].
  destruct (key a =? k0) eqn:Heq.
  - apply Z.eqb_eq in Heq. rewrite Heq, Z.ltb_irrefl.
    destruct (eraseAtom_split b a Hfind) as (b1 & x & b2 & -> & Hx & Hb1 & ->).
    exists b1, x, (b2 ++ flatten m). rewrite !flatten_cons, <- !app_assoc.
    split; [done |]. split.
    { split; [done |].
      apply Forall_app in Hb as [_ Hb]. apply Forall_cons in Hb as [Hk _]. congruence. }
    split; [|done]. intros y Hy [Ha _]. by apply (Hb1 y).
  - apply Z.eqb_neq in Heq.
    destruct (key a <? k0) eqn:Hlt.
    + apply Z.ltb_lt in Hlt. rewrite bucket_at_absent in Hfind; [done |].
      intros Hin. eapply Forall_forall in Hall; [|done]. lia.
    + destruct (IH Hs Hm Hfind) as (l1 & x & l2 & Hf & Hx & Hl1 & He).
      exists (b ++ l1), x, l2. rewrite !flatten_cons, Hf, He, <- !app_assoc.
      split; [done |]. split; [done |]. split; [|done].
      intros y [Hy|Hy]%elem_of_app; [|by apply Hl1].
      intros [_ Hk]. eapply Forall_forall in Hb; [|done]. simpl in Hb. congruence.
Qed.

(** X14: on a function reached by calls from a new one,
    [deleteAtomInstance] returns true exactly when the retrieved sequence
    holds an atom that is the object the pointer refers to, filed under the
    key of the pointer.  It then takes the first such atom out of the
    sequence and leaves the other atoms in their order.  When it returns
    false, the sequence and the cache are as they were.  Either way the map
    has an entry for the key of the pointer afterwards, an empty one if no
    atom was filed under it. *)
Theorem deleteAtomInstance_removes_first `{env : Externals} (cs : list Call)
    (name desc : string) (functionType : FunctionType) (m : Machine) (a : FunctionAtom) :
  run cs (freshMachine name desc functionType) = Some m ->
  exists atoms m0 found m1 atoms' m2,
    getAtomInstances m = Returned atoms m0
    /\ deleteAtomInstance a m = Returned found m1
    /\ getAtomInstances m1 = Returned atoms' m2
    /\ (found = true <-> exists x, x ∈ atoms /\ deletes a x)
    /\ (found = false ->
        atoms' = atoms
        /\ mSortedAtomInstances (self m1) = mSortedAtomInstances (self m))
    /\ (found = true ->
        exists l1 x l2,
          atoms = l1 ++ x :: l2 /\ deletes a x
          /\ (forall y, y ∈ l1 -> ~ deletes a y)
          /\ atoms' = l1 ++ l2)
    /\ key a ∈ fst <$> mAtomInstances (self m1).
Proof.
  intros Hrun.
  set (reg := registered cs (freshMachine name desc functionType) []).
  assert (Hh : holds reg m) by (by eapply holds_run; [apply holds_fresh |]).
  destruct (holds_getAtomInstances reg m Hh) as (m0 & Hget & _).
  destruct (holds_deleteAtomInstance reg a m Hh) as (found & m1 & Hdel & Hh1 & _).
  destruct (holds_getAtomInstances _ m1 Hh1) as (m2 & Hget1 & _).
  exists (flatten (mAtomInstances (self m))), m0, found, m1,
         (flatten (mAtomInstances (self m1))), m2.
  split; [done |]. split; [done |]. split; [done |].
  destruct Hh as (Hs & Hk & _).
  assert (Hfound : findAtom (bucket_at (mAtomInstances (self m)) (key a)) a = true
                   <-> exists x, x ∈ flatten (mAtomInstances (self m)) /\ deletes a x).
  { rewrite findAtom_true, <- filter_flatten by done. split.
    - intros (x & [Hkx Hx]%list_elem_of_filter & Ha). by exists x.
    - intros (x & Hx & Ha & Hkx). exists x. split; [|done].
      by apply list_elem_of_filter. }
  unfold deleteAtomInstance, bind at 1, this in Hdel. fold (key a) in Hdel.
  destruct (findAtom (bucket_at (mAtomInstances (self m)) (key a)) a) eqn:Hfind;
    unfold bind, modify, ret in Hdel; injection Hdel as <- <-; cbn [self mAtomInstances
      mSortedAtomInstances set_mAtomInstances set_mSortedAtomInstances].
  - split; [by rewrite <- Hfound |]. split; [done |].
    split; [intros _; by apply flatten_at_key_erase |].
    apply at_key_keys. by left.
  - split; [rewrite <- Hfound; by split |].
    split; [intros _; split; [apply flatten_at_key_same | done] |].
    split; [done |]. apply at_key_keys. by left.
Qed.

(** Two assignments of the group order 0, the first of which is deleted. *)
Lemma deleteAtomInstance_removes_first_witness :
  exists atoms m0 found m1 atoms' m2,
    getAtomInstances
      (mkMachine 2
         (mkFunction "main" "entry" (FunctionTypeTag 0) [] [] []
            [(0, [mkAtom 0 AssignmentAtom 0 [mkOperand None OPS_OUT; mkOperand None OPS_IN];
                  mkAtom 1 AssignmentAtom 0 [mkOperand None OPS_OUT; mkOperand None OPS_IN]])]
            []))
    = Returned atoms m0
    /\ deleteAtomInstance
         (mkAtom 0 AssignmentAtom 0 [mkOperand None OPS_OUT; mkOperand None OPS_IN])
         (mkMachine 2
            (mkFunction "main" "entry" (FunctionTypeTag 0) [] [] []
               [(0, [mkAtom 0 AssignmentAtom 0 [mkOperand None OPS_OUT; mkOperand None OPS_IN];
                     mkAtom 1 AssignmentAtom 0
                       [mkOperand None OPS_OUT; mkOperand None OPS_IN]])]
               []))
       = Returned found m1
    /\ getAtomInstances m1 = Returned atoms' m2.
Proof.
  destruct (deleteAtomInstance_removes_first (env := canonicalExternals false)
              [CallAddAtomAssign None None 0; CallAddAtomAssign None None 0]
              "main" "entry" (FunctionTypeTag 0) _
              (mkAtom 0 AssignmentAtom 0 [mkOperand None OPS_OUT; mkOperand None OPS_IN])
              eq_refl)
    as (atoms & m0 & found & m1 & atoms' & m2 & H1 & H2 & H3 & _).
  by exists atoms, m0, found, m1, atoms', m2.
Defined.

(** ** Registering an atom and deleting it again *)

Lemma eraseAtom_last (b : list FunctionAtom) (a : FunctionAtom) :
  (forall y, y ∈ b -> atomAddr y <> atomAddr a) -> eraseAtom (b ++ [a]) a = b.
Proof.
  induction b as [|y b IH]; intros Hb; simpl; unfold atom_ptr_eqb.
  - by rewrite bool_decide_eq_true_2.
  - rewrite bool_decide_eq_false_2 by (apply Hb; by left).
    f_equal. apply IH. intros z Hz. apply Hb. by right.
Qed.

Lemma flatten_at_key_add_erase (m : list (Z * list FunctionAtom)) (a : FunctionAtom) :
  keyed m ->
  (forall x, x ∈ flatten m -> ~ deletes a x) ->
  flatten (at_key (at_key m (key a) (fun bucket => bucket ++ [a])) (key a)
                  (fun bucket => eraseAtom bucket a))
  = flatten m.
Proof.
  unfold keyed. induction m as [|[k0 b] m IH]; intros Hm Hno.
  - cbn [at_key]. rewrite Z.ltb_irrefl, Z.eqb_refl.
    rewrite (eraseAtom_last [] a); [done |]. by intros y Hy; inversion Hy.
  - apply Forall_cons in Hm as [Hb Hm]. cbn [fst snd] in Hb.
    cbn [at_key]. destruct (key a <? k0) eqn:Hlt; [|destruct (key a =? k0) eqn:Heq].
    + cbn [at_key]. rewrite Z.ltb_irrefl, Z.eqb_refl.
      rewrite (eraseAtom_last [] a); [done |]. by intros y Hy; inversion Hy.
    + cbn [at_key]. rewrite Hlt, Heq. apply Z.eqb_eq in Heq.
      rewrite eraseAtom_last; [done |].
      intros y Hy Ha. apply (Hno y).
      * rewrite flatten_cons. apply elem_of_app. by left.
      * split; [done |]. eapply Forall_forall in Hb; [|done]. simpl in Hb. congruence.
    + cbn [at_key]. rewrite Hlt, Heq. rewrite !flatten_cons. f_equal.
      apply IH; [done |]. intros x Hx. apply Hno.
      rewrite flatten_cons. apply elem_of_app. by right.
Qed.

(** X15: on a function reached by calls from a new one, an atom that is
    registered with [addAtomInstance] and deleted at once with
    [deleteAtomInstance] is found, and the next retrieval returns the
    sequence of before the registration, provided the sequence did not hold
    the same object under the same key. *)
Theorem atom_add_then_delete_restores `{env : Externals} (cs : list Call)
    (name desc : string) (functionType : FunctionType) (m m0 : Machine)
    (a : FunctionAtom) (atoms : list FunctionAtom) :
  run cs (freshMachine name desc functionType) = Some m ->
  getAtomInstances m = Returned atoms m0 ->
  (forall x, x ∈ atoms -> ~ deletes a x) ->
  exists m1 m2 m3,
    addAtomInstance a m = Returned tt m1
    /\ deleteAtomInstance a m1 = Returned true m2
    /\ getAtomInstances m2 = Returned atoms m3.
Proof.
  intros Hrun Hget Hno.
  set (reg := registered cs (freshMachine name desc functionType) []).
  assert (Hh : holds reg m) by (by eapply holds_run; [apply holds_fresh |]).
  destruct (holds_getAtomInstances reg m Hh) as (m0' & Hget' & _).
  rewrite Hget' in Hget. injection Hget as <- <-.
  destruct (holds_addAtomInstance reg a m Hh) as (m1 & Hadd & Hh1 & _ & Hmap1).
  destruct Hh as (Hs & Hk & _).
  assert (Hfind : findAtom (bucket_at (mAtomInstances (self m1)) (key a)) a = true).
  { rewrite Hmap1, bucket_at_at_key, decide_True by done.
    apply findAtom_true. exists a. split; [set_solver | done]. }
  set (m2 := mkMachine (nextAddr m1)
               (set_mSortedAtomInstances []
                  (set_mAtomInstances
                     (at_key (mAtomInstances (self m1)) (key a)
                             (fun bucket => eraseAtom bucket a))
                     (self m1)))).
  assert (Hdel : deleteAtomInstance a m1 = Returned true m2).
  { unfold deleteAtomInstance, bind at 1, this. fold (key a). by rewrite Hfind. }
  destruct (holds_deleteAtomInstance _ a m1 Hh1) as (found & m2' & Hdel' & Hh2 & _).
  rewrite Hdel in Hdel'. injection Hdel' as <- <-.
  destruct (holds_getAtomInstances _ m2 Hh2) as (m3 & Hget2 & _).
  exists m1, m2, m3. split; [done |]. split; [done |].
  rewrite Hget2. f_equal. unfold m2. cbn [self mAtomInstances set_mSortedAtomInstances
    set_mAtomInstances]. rewrite Hmap1. by apply flatten_at_key_add_erase.
Qed.

(** An assignment of the group order 5 registered on a function that has
    one of the group order 0, and deleted again. *)
Lemma atom_add_then_delete_restores_witness :
  exists m1 m2 m3,
    addAtomInstance (mkAtom 7 AssignmentAtom 5 [])
      (mkMachine 1
         (mkFunction "main" "entry" (FunctionTypeTag 0) [] [] []
            [(0, [mkAtom 0 AssignmentAtom 0 [mkOperand None OPS_OUT; mkOperand None OPS_IN]])]
            []))
    = Returned tt m1
    /\ deleteAtomInstance (mkAtom 7 AssignmentAtom 5 []) m1 = Returned true m2
    /\ getAtomInstances m2
       = Returned [mkAtom 0 AssignmentAtom 0 [mkOperand None OPS_OUT; mkOperand None OPS_IN]]
                  m3.
Proof.
  apply (atom_add_then_delete_restores (env := canonicalExternals false)
           [CallAddAtomAssign None None 0] "main" "entry" (FunctionTypeTag 0) _ _
           (mkAtom 7 AssignmentAtom 5 [])
           [mkAtom 0 AssignmentAtom 0 [mkOperand None OPS_OUT; mkOperand None OPS_IN]]
           eq_refl eq_refl).
  intros x Hx. apply list_elem_of_singleton in Hx. subst x.
  intros [Ha _]. simpl in Ha. discriminate.
Defined.

(** ** The destructor *)

Lemma deleteBucket_app (bucket deleted : list FunctionAtom) :
  deleteBucket bucket deleted = deleted ++ bucket.
Proof.
  revert deleted. induction bucket as [|x b IH]; intros deleted; simpl.
  - by rewrite app_nil_r.
  - by rewrite IH, <- app_assoc.
Qed.

Lemma deleteBuckets_flatten (m : list (Z * list FunctionAtom)) (deleted : list FunctionAtom) :
  deleteBuckets m deleted = deleted ++ flatten m.
Proof.
  revert deleted. induction m as [|[k b] m IH]; intros deleted; simpl.
  - by rewrite app_nil_r.
  - by rewrite IH, deleteBucket_app, flatten_cons, app_assoc.
Qed.

Lemma unregister_sublist (reg : list FunctionAtom) (a : FunctionAtom) :
  unregister reg a `sublist_of` reg.
Proof.
  induction reg as [|x reg IH]; cbn [unregister]; [done |].
  destruct (_ && _).
  - apply sublist_cons. reflexivity.
  - by apply sublist_skip.
Qed.

Lemma atomsDistinct_sublist (reg reg' : list FunctionAtom) (m m' : Machine) :
  reg' `sublist_of` reg -> (nextAddr m <= nextAddr m')%nat ->
  atomsDistinct reg m -> atomsDistinct reg' m'.
Proof.
  intros Hsub Hle [Hall Hnd]. split.
  - apply Forall_forall. intros x Hx.
    eapply elem_of_sublist in Hx; [|done].
    eapply Forall_forall in Hall; [|done]. simpl in Hall. lia.
  - eapply sublist_NoDup; [exact Hnd |]. by apply fmap_sublist.
Qed.

Lemma atomsDistinct_new (reg : list FunctionAtom) (kind : AtomKind) (g : Z)
    (ops : list Operand) (m m' : Machine) :
  nextAddr m' = S (nextAddr m) ->
  atomsDistinct reg m ->
  atomsDistinct (reg ++ [mkAtom (nextAddr m) kind g ops]) m'.
Proof.
  intros Hn [Hall Hnd]. split.
  - apply Forall_app. split.
    + eapply Forall_impl; [exact Hall |]. simpl. lia.
    + repeat constructor. simpl. lia.
  - rewrite fmap_app. apply NoDup_app. split; [done |]. split.
    + intros n (x & -> & Hx)%list_elem_of_fmap [= Hn']%list_elem_of_singleton.
      eapply Forall_forall in Hall; [|done]. simpl in *. lia.
    + apply NoDup_singleton.
Qed.

(** A call that makes its atoms keeps the registered atoms distinct. *)
Lemma atomsDistinct_call `{env : Externals} (c : Call) (reg : list FunctionAtom)
    (m m' : Machine) :
  makesItsAtoms c -> after (call c m) = Some m' ->
  atomsDistinct reg m -> atomsDistinct (registerStep c m reg) m'.
Proof.
  intros Hc Hafter Hd.
  assert (Hle : (nextAddr m <= nextAddr m')%nat).
  { pose proof (keptBut_call c m) as Hk.
    destruct (call c m); simpl in Hafter; simplify_eq; by destruct Hk as (_ & ? & _). }
  destruct c; cbn [registerStep]; try done;
    try (by eapply atomsDistinct_sublist; [reflexivity | done | done]).
  - apply atomsDistinct_new; [|done]. simpl in Hafter. by simplify_eq.
  - apply atomsDistinct_new; [|done]. simpl in Hafter. by simplify_eq.
  - apply atomsDistinct_new; [|done]. simpl in Hafter. by simplify_eq.
  - apply atomsDistinct_new; [|done]. simpl in Hafter. by simplify_eq.
  - eapply atomsDistinct_sublist; [apply unregister_sublist | done | done].
Qed.

Lemma atomsDistinct_run `{env : Externals} (cs : list Call) (reg : list FunctionAtom)
    (m m' : Machine) :
  Forall makesItsAtoms cs -> run cs m = Some m' ->
  atomsDistinct reg m -> atomsDistinct (registered cs m reg) m'.
Proof.
  revert reg m. induction cs as [|c cs IH]; intros reg m Hcs Hrun Hd; simpl in *.
  - by simplify_eq.
  - apply Forall_cons in Hcs as [Hc Hcs].
    destruct (after (call c m)) as [m1|] eqn:Hafter; [|done].
    apply IH; [done | done |]. by eapply atomsDistinct_call.
Qed.

(** X16: on a function reached by calls from a new one, the destructor
    passes to [OGRE_DELETE] the atoms of the retrieved sequence, in that
    order: each atom registered and not deleted, once for each time it is
    registered; and it empties the map and the three parameter lists.  When
    every atom was made by the function itself ([addAtomAssign] and the
    calls of a stage reference), no object is deleted twice. *)
Theorem dtor_deletes_registered_atoms `{env : Externals} (cs : list Call)
    (name desc : string) (functionType : FunctionType) (m : Machine) :
  run cs (freshMachine name desc functionType) = Some m ->
  exists atoms m0 m',
    getAtomInstances m = Returned atoms m0
    /\ Function_dtor m = Returned atoms m'
    /\ atoms ≡ₚ registered cs (freshMachine name desc functionType) []
    /\ (Forall makesItsAtoms cs -> NoDup (atomAddr <$> atoms))
    /\ mAtomInstances (self m') = []
    /\ mInputParameters (self m') = []
    /\ mOutputParameters (self m') = []
    /\ mLocalParameters (self m') = [].
Proof.
  intros Hrun.
  set (reg := registered cs (freshMachine name desc functionType) []).
  assert (Hh : holds reg m) by (by eapply holds_run; [apply holds_fresh |]).
  destruct (holds_getAtomInstances reg m Hh) as (m0 & Hget & _).
  destruct Hh as (Hs & Hk & Hb & _).
  assert (Hperm : flatten (mAtomInstances (self m)) ≡ₚ reg) by (by apply flatten_Permutation).
  eexists (flatten (mAtomInstances (self m))), m0, _.
  split; [done |].
  split.
  { unfold Function_dtor, bind, this, modify, ret.
    by rewrite deleteBuckets_flatten. }
  split; [done |].
  split; [|done].
  intros Hcs. rewrite Hperm.
  apply (atomsDistinct_run cs [] (freshMachine name desc functionType) m); [done | done |].
  split; [constructor | apply NoDup_nil; done].
Qed.

(** Two assignments and a function call registered on a new function. *)
Lemma dtor_deletes_registered_atoms_witness :
  exists atoms m0 m',
    getAtomInstances
      (mkMachine 3
         (mkFunction "main" "entry" (FunctionTypeTag 0) [] [] []
            [(0, [mkAtom 1 AssignmentAtom 0 [mkOperand None OPS_OUT; mkOperand None OPS_IN]]);
             (5, [mkAtom 2 (FunctionInvocation "FFP_Transform") 5 []]);
             (10, [mkAtom 0 AssignmentAtom 10 [mkOperand None OPS_OUT; mkOperand None OPS_IN]])]
            []))
    = Returned atoms m0
    /\ Function_dtor
         (mkMachine 3
            (mkFunction "main" "entry" (FunctionTypeTag 0) [] [] []
               [(0, [mkAtom 1 AssignmentAtom 0 [mkOperand None OPS_OUT; mkOperand None OPS_IN]]);
                (5, [mkAtom 2 (FunctionInvocation "FFP_Transform") 5 []]);
                (10, [mkAtom 0 AssignmentAtom 10
                        [mkOperand None OPS_OUT; mkOperand None OPS_IN]])]
               []))
       = Returned atoms m'
    /\ NoDup (atomAddr <$> atoms).
Proof.
  destruct (dtor_deletes_registered_atoms (env := canonicalExternals false)
              [CallAddAtomAssign None None 10; CallAddAtomAssign None None 0;
               CallStageCallFunction 5 "FFP_Transform" []]
              "main" "entry" (FunctionTypeTag 0) _ eq_refl)
    as (atoms & m0 & m' & Hget & Hdtor & _ & Hnd & _).
  exists atoms, m0, m'. split; [exact Hget |]. split; [exact Hdtor |].
  apply Hnd. repeat constructor.
Defined.

(** ** Requests that make a new parameter *)

Section Makes.
Context `{env : Externals}.

(** The switch of a resolve function, when the assertion passes. *)
Lemma createBySemantic_factory (d : Direction) (semantic : Semantic) (index : Z)
    (content : Content) (type : GpuConstantType) (param : ParameterPtr) (m : Machine) :
  hasFactory d semantic ->
  passesAssert d semantic type ->
  match d with
  | Input => createInputBySemantic semantic index content type param m
  | Output => createOutputBySemantic semantic index content type param m
  end
  = fromFactory (factoryOf d semantic type index content) m.
Proof.
  intros Hs Ha.
  assert (Hassert : forall t, assertedType d semantic = Some t ->
                              assert_ (bool_decide (type = t)) m = Returned tt m).
  { intros t Ht. unfold assert_. destruct Ha as [->|Ha]; [done |].
    destruct NDEBUG; [done |]. by rewrite bool_decide_eq_true_2 by auto. }
  destruct d, semantic; try done; simpl in *; unfold bind; by rewrite ?Hassert.
Qed.

(** The add of a direction, by what is taken. *)
Lemma addOf_outcome (d : Direction) (p : Param) (m : Machine) :
  (bindingTaken (parametersOf d (self m)) p
   /\ addOf d p m = Thrown (equalSemantic d p (self m)) m)
  \/ (~ bindingTaken (parametersOf d (self m)) p /\ nameTaken (self m) p
      /\ addOf d p m = Thrown (alreadyDeclared p (self m)) m)
  \/ (~ bindingTaken (parametersOf d (self m)) p /\ ~ nameTaken (self m) p
      /\ addOf d p m = Returned tt (pushed (listOf d) p m)).
Proof.
  assert (Hfree : ~ bindingTaken (parametersOf d (self m)) p ->
                  addOf d p m = addParameter (listOf d) p m).
  { rewrite bindingTaken_lookup. intros Hb.
    destruct d; cbn [addOf listOf parametersOf] in *;
      unfold addInputParameter, addOutputParameter, bind, this;
      by rewrite bool_decide_eq_false_2. }
  destruct (getParameterBySemantic (parametersOf d (self m)) (getSemantic p) (getIndex p))
    as [q|] eqn:Hq.
  - left. assert (Hb : bindingTaken (parametersOf d (self m)) p).
    { apply bindingTaken_lookup. by rewrite Hq. }
    split; [done |].
    destruct d; [by apply addInputParameter_taken | by apply addOutputParameter_taken].
  - right. assert (Hb : ~ bindingTaken (parametersOf d (self m)) p).
    { rewrite bindingTaken_lookup, Hq. intros H. by apply H. }
    rewrite (Hfree Hb).
    destruct (addParameter_outcome (listOf d) p m) as [[Hn _]|[Hn _]]; [left | right].
    + split; [done |]. split; [done |]. by apply addParameter_taken.
    + split; [done |]. split; [done |]. by apply addParameter_free.
Qed.

End Makes.

(** X17: a request to [resolveInputParameter] or [resolveOutputParameter]
    that is not answered by a parameter of the list (none is found by
    content, and none with the requested content sits at an explicit index)
    asks the factory function of the semantic for a parameter at the index:
    the explicit one, or for index -1 the number of parameters of the list
    that have the semantic.  If the factory makes none, the empty pointer is
    returned and nothing changes.  Otherwise the new object is added: the
    call throws the exception of the add when a parameter of the list has
    the semantic and index of the new one (as at an explicit index that a
    parameter of another content has, or with a counted index once a
    parameter of a lower index has been deleted), throws the exception of
    [addParameter] when an input or output has its name, and else returns
    it, pushed at the back of the list. *)
Theorem resolve_makes_new `{env : Externals} (d : Direction)
    (semantic : Semantic) (index : Z) (content : Content) (type : GpuConstantType)
    (m : Machine) :
  nothingFound (parametersOf d (self m)) semantic index content type ->
  hasFactory d semantic ->
  passesAssert d semantic type ->
  let i := effectiveIndex (parametersOf d (self m)) semantic index in
  (index = -1 ->
   Z.of_nat (countSemantic (parametersOf d (self m)) semantic) <= INT_MAX ->
   i = Z.of_nat (countSemantic (parametersOf d (self m)) semantic))
  /\ (index <> -1 -> i = index)
  /\ match factoryOf d semantic type i content with
     | None => resolveParameter d semantic index content type m = Returned None m
     | Some a =>
         let p := objectAt (nextAddr m) a in
         (bindingTaken (parametersOf d (self m)) p ->
          resolveParameter d semantic index content type m
          = Thrown (equalSemantic d p (self m)) (allocated m))
         /\ (~ bindingTaken (parametersOf d (self m)) p -> nameTaken (self m) p ->
             resolveParameter d semantic index content type m
             = Thrown (alreadyDeclared p (self m)) (allocated m))
         /\ (~ bindingTaken (parametersOf d (self m)) p -> ~ nameTaken (self m) p ->
             resolveParameter d semantic index content type m
             = Returned (Some p) (pushed (listOf d) p (allocated m)))
     end.
Proof.
  intros [Hmiss Hidx] Hs Ha i.
  split.
  { intros -> Hmax. unfold i, effectiveIndex. rewrite bool_decide_eq_true_2 by done.
    rewrite nextIndex_count by (unfold INT_MAX in *; lia). lia. }
  split.
  { intros Hi. unfold i, effectiveIndex. by rewrite bool_decide_eq_false_2. }
  assert (Hcall : exists param,
            resolveParameter d semantic index content type m
            = createAndAdd d semantic i content type param m).
  { rewrite resolve_paths, Hmiss. unfold i, effectiveIndex.
    case_bool_decide as Hi; [by exists None |].
    destruct Hidx as [?|Hother]; [done |].
    destruct (getParameterBySemantic _ _ _) as [q|]; [|by exists None].
    rewrite bool_decide_eq_false_2 by auto. by exists (Some q). }
  destruct Hcall as (param & Hcall).
  assert (Hmake : createAndAdd d semantic i content type param m
                  = bind (fromFactory (factoryOf d semantic type i content))
                         (fun param =>
                            match param with
                            | Some p => bind (addOf d p) (fun _ => ret param)
                            | None => ret param
                            end) m).
  { pose proof (createBySemantic_factory d semantic i content type param m Hs Ha) as Hf.
    destruct d; cbn [createAndAdd addOf];
      unfold createAndAddInput, createAndAddOutput, bind at 1; rewrite Hf; done. }
  rewrite Hcall, Hmake. clear Hcall Hmake.
  destruct (factoryOf d semantic type i content) as [a|]; [|done].
  cbv zeta. set (p := objectAt (nextAddr m) a).
  assert (Hres : bind (fromFactory (Some a))
                      (fun param =>
                         match param with
                         | Some p => bind (addOf d p) (fun _ => ret param)
                         | None => ret param
                         end) m
                 = match addOf d p (allocated m) with
                   | Returned _ m' => Returned (Some p) m'
                   | Thrown e m' => Thrown e m'
                   | Aborted => Aborted
                   end) by done.
  rewrite Hres. clear Hres.
  destruct (addOf_outcome d p (allocated m)) as [[Hb ->]|[(Hb & Hn & ->)|(Hb & Hn & ->)]];
    change (self (allocated m)) with (self m) in *;
    (split; [|split]); intros; try done; tauto.
Qed.

(** Three texture coordinates at the indices 0, 1 and 2, the second of
    which has been deleted: two remain, the counted index is 2, and the
    request with index -1 throws. *)
Lemma resolve_makes_new_witness :
  resolveInputParameter (env := canonicalExternals false)
    SPS_TEXTURE_COORDINATES (-1) (SPC_OTHER 3) GCT_FLOAT2
    (machineOf 3
       [mkParameter 0 GCT_FLOAT2 "iTexcoord_0" SPS_TEXTURE_COORDINATES 0 (SPC_OTHER 0);
        mkParameter 2 GCT_FLOAT2 "iTexcoord_2" SPS_TEXTURE_COORDINATES 2 (SPC_OTHER 2)]
       [])
  = Thrown
      (equalSemantic Input
         (mkParameter 3 GCT_FLOAT2 "iTexcoord_2" SPS_TEXTURE_COORDINATES 2 (SPC_OTHER 3))
         (self (machineOf 3
                  [mkParameter 0 GCT_FLOAT2 "iTexcoord_0" SPS_TEXTURE_COORDINATES 0
                     (SPC_OTHER 0);
                   mkParameter 2 GCT_FLOAT2 "iTexcoord_2" SPS_TEXTURE_COORDINATES 2
                     (SPC_OTHER 2)]
                  [])))
      (allocated
         (machineOf 3
            [mkParameter 0 GCT_FLOAT2 "iTexcoord_0" SPS_TEXTURE_COORDINATES 0 (SPC_OTHER 0);
             mkParameter 2 GCT_FLOAT2 "iTexcoord_2" SPS_TEXTURE_COORDINATES 2 (SPC_OTHER 2)]
            [])).
Proof.
  apply (resolve_makes_new (env := canonicalExternals false) Input
           SPS_TEXTURE_COORDINATES (-1) (SPC_OTHER 3) GCT_FLOAT2
           (machineOf 3
              [mkParameter 0 GCT_FLOAT2 "iTexcoord_0" SPS_TEXTURE_COORDINATES 0 (SPC_OTHER 0);
               mkParameter 2 GCT_FLOAT2 "iTexcoord_2" SPS_TEXTURE_COORDINATES 2 (SPC_OTHER 2)]
              [])).
  - split; [reflexivity | by left].
  - exact I.
  - right. intros t Ht. discriminate Ht.
  - exists (mkParameter 2 GCT_FLOAT2 "iTexcoord_2" SPS_TEXTURE_COORDINATES 2 (SPC_OTHER 2)).
    split; [set_solver | done].
Defined.

(** ** Local parameters with one name *)

(** X18: [addParameter] looks for the name among the inputs and the
    outputs only.  So when a local parameter already has the name
    [lLocalParam_<n>], [n] being the number of local parameters, as one
    resolved by name can, a request by content that finds nothing makes a
    second local parameter of that name and registers it without an
    exception: the names of the local list are then not unique. *)
Theorem local_name_can_repeat (semantic : Semantic) (index : Z) (content : Content)
    (type t : GpuConstantType) (m : Machine) (q : Param) :
  effectiveType content type = Ok t ->
  missesByContent (mLocalParameters (self m)) content t ->
  q ∈ mLocalParameters (self m) ->
  getName q = generatedName (length (mLocalParameters (self m))) ->
  ~ nameTaken (self m) q ->
  exists p m',
    resolveLocalParameter_content semantic index content type m = Returned (Some p) m'
    /\ paramAddr p = nextAddr m
    /\ getName p = getName q
    /\ mLocalParameters (self m') = mLocalParameters (self m) ++ [p]
    /\ ~ NoDup (getName <$> mLocalParameters (self m')).
Proof.
  intros Ht Hmiss Hq Hname Hfree.
  pose proof (resolveLocalParameter_content_outcome semantic index content type m) as Ho.
  rewrite Ht, Hmiss in Ho. cbv zeta in Ho.
  set (p := mkParameter _ _ _ _ _ _) in *.
  assert (Hp : ~ nameTaken (self m) p).
  { intros (x & Hx & Hn). apply Hfree. exists x. split; [done |]. by rewrite Hname. }
  destruct Ho as [[? _]|[_ Ho]]; [done |].
  exists p, (pushed LocalList p (allocated m)).
  split; [done |]. split; [done |]. split; [by rewrite Hname |]. split; [done |].
  simpl. rewrite fmap_app. intros Hnd. apply NoDup_app in Hnd as (_ & Hnd & _).
  apply (Hnd (getName q)).
  - apply list_elem_of_fmap. by exists q.
  - rewrite Hname. set_solver.
Qed.

(** A local parameter resolved by name as [lLocalParam_1] on a new
    function, then the diffuse color resolved by content. *)
Lemma local_name_can_repeat_witness :
  exists p m',
    resolveLocalParameter_content SPS_UNKNOWN (-1) SPC_COLOR_DIFFUSE GCT_UNKNOWN
      (pushed LocalList (namedLocal 0 GCT_FLOAT4 "lLocalParam_1" SPS_UNKNOWN (-1))
         (allocated (freshMachine "main" "entry" (FunctionTypeTag 0))))
    = Returned (Some p) m'
    /\ getName p = "lLocalParam_1".
Proof.
  destruct (local_name_can_repeat SPS_UNKNOWN (-1) SPC_COLOR_DIFFUSE GCT_UNKNOWN GCT_FLOAT4
              (pushed LocalList (namedLocal 0 GCT_FLOAT4 "lLocalParam_1" SPS_UNKNOWN (-1))
                 (allocated (freshMachine "main" "entry" (FunctionTypeTag 0))))
              (namedLocal 0 GCT_FLOAT4 "lLocalParam_1" SPS_UNKNOWN (-1)))
    as (p & m' & Hcall & _ & Hname & _).
  - reflexivity.
  - reflexivity.
  - simpl. set_solver.
  - reflexivity.
  - intros (x & [Hx|Hx] & _); inversion Hx.
  - exists p, m'. split; [exact Hcall | exact Hname].
Defined.

(** ** One parameter for a semantic and index *)

(** X19: on every function reached by calls from a new one, no two input
    parameters have the same semantic and index, and no two output
    parameters have; so the lookup by semantic and index of a registered
    parameter finds that very parameter. *)
Theorem bindings_unique `{env : Externals} (cs : list Call)
    (name desc : string) (functionType : FunctionType) (m : Machine) :
  run cs (freshMachine name desc functionType) = Some m ->
  forall d,
    bindingsUnique (parametersOf d (self m))
    /\ (forall p q,
          p ∈ parametersOf d (self m) -> q ∈ parametersOf d (self m) ->
          getSemantic p = getSemantic q -> getIndex p = getIndex q -> p = q)
    /\ (forall p,
          p ∈ parametersOf d (self m) ->
          getParameterBySemantic (parametersOf d (self m)) (getSemantic p) (getIndex p)
          = Some p).
Proof.
  intros Hrun d.
  assert (Hd : bindingsUnique (parametersOf d (self m))).
  { pose proof (wellBound_run cs _ m (wellBound_fresh name desc functionType) Hrun)
      as [Hin Hout].
    by destruct d. }
  split; [done |].
  assert (Hfind : forall p, p ∈ parametersOf d (self m) ->
            getParameterBySemantic (parametersOf d (self m)) (getSemantic p) (getIndex p)
            = Some p).
  { intros p Hp. by apply getParameterBySemantic_unique. }
  split; [|done].
  intros p q Hp Hq Hs Hi.
  pose proof (Hfind p Hp) as Hfp. pose proof (Hfind q Hq) as Hfq.
  rewrite Hs, Hi in Hfp. congruence.
Qed.

(** Two texture coordinates resolved as inputs, one at an explicit
    index. *)
Lemma bindings_unique_witness :
  exists m,
    run (env := canonicalExternals false)
      [CallResolveInputParameter SPS_TEXTURE_COORDINATES (-1) (SPC_OTHER 0) GCT_FLOAT2;
       CallResolveInputParameter SPS_TEXTURE_COORDINATES 3 (SPC_OTHER 1) GCT_FLOAT2]
      (freshMachine "main" "entry" (FunctionTypeTag 0)) = Some m
    /\ bindingsUnique (mInputParameters (self m)).
Proof.
  eexists. split; [reflexivity |].
  apply (bindings_unique (env := canonicalExternals false)
           [CallResolveInputParameter SPS_TEXTURE_COORDINATES (-1) (SPC_OTHER 0) GCT_FLOAT2;
            CallResolveInputParameter SPS_TEXTURE_COORDINATES 3 (SPC_OTHER 1) GCT_FLOAT2]
           "main" "entry" (FunctionTypeTag 0) _ eq_refl Input).
Defined.

(** ** The assertion on the type *)

(** X20: where assertions are compiled in, a request to
    [resolveInputParameter] or [resolveOutputParameter] that is not
    answered by a parameter of the list stops the process at the assertion
    of its semantic, unless the requested type is the one asserted; nothing
    is registered.  This is so for the unknown type as well: the type
    derived from the content serves the lookup by content only. *)
Theorem resolve_type_assertion `{env : Externals} (d : Direction)
    (semantic : Semantic) (index : Z) (content : Content) (type t : GpuConstantType)
    (m : Machine) :
  NDEBUG = false ->
  nothingFound (parametersOf d (self m)) semantic index content type ->
  assertedType d semantic = Some t ->
  type <> t ->
  resolveParameter d semantic index content type m = Aborted.
Proof.
  intros Hdebug [Hmiss Hidx] Hassert Ht.
  assert (Hcall : exists param,
            resolveParameter d semantic index content type m
            = createAndAdd d semantic
                (effectiveIndex (parametersOf d (self m)) semantic index)
                content type param m).
  { rewrite resolve_paths, Hmiss. unfold effectiveIndex.
    case_bool_decide as Hi; [by exists None |].
    destruct Hidx as [?|Hother]; [done |].
    destruct (getParameterBySemantic _ _ _) as [q|]; [|by exists None].
    rewrite bool_decide_eq_false_2 by auto. by exists (Some q). }
  destruct Hcall as (param & ->).
  assert (Hfail : forall t', t' = t -> assert_ (bool_decide (type = t')) m = Aborted).
  { intros t' ->. unfold assert_. rewrite Hdebug. by rewrite bool_decide_eq_false_2. }
  destruct d, semantic; simpl in Hassert; try discriminate; injection Hassert as <-;
    cbn [createAndAdd]; unfold createAndAddInput, createAndAddOutput, bind at 1;
    cbn [createInputBySemantic createOutputBySemantic];
    unfold bind at 1; by rewrite Hfail.
Qed.

(** A position asked for as an input on a new function, with the content of
    the position in object space and the unknown type. *)
Lemma resolve_type_assertion_witness :
  resolveInputParameter (env := canonicalExternals false)
    SPS_POSITION (-1) SPC_POSITION_OBJECT_SPACE GCT_UNKNOWN
    (freshMachine "main" "entry" (FunctionTypeTag 0))
  = Aborted.
Proof.
  apply (resolve_type_assertion (env := canonicalExternals false) Input
           SPS_POSITION (-1) SPC_POSITION_OBJECT_SPACE GCT_UNKNOWN GCT_FLOAT4
           (freshMachine "main" "entry" (FunctionTypeTag 0))).
  - reflexivity.
  - split; [reflexivity | by left].
  - reflexivity.
  - discriminate.
Defined.

(** ** Resolving the same output again *)

Section AgainOutput.
Context `{env : Externals}.

(** When the creating half returns a parameter, the parameter has been
    pushed at the back of the list, where its semantic and index were
    free. *)
Lemma createAndAdd_pushed (d : Direction) s i c t param (m m1 : Machine) (p : Param) :
  (forall q, param = Some q -> bindingTaken (parametersOf d (self m)) q) ->
  createAndAdd d s i c t param m = Returned (Some p) m1 ->
  parametersOf d (self m1) = parametersOf d (self m) ++ [p]
  /\ ~ bindingTaken (parametersOf d (self m)) p.
Proof.
  intros Hparam Hc.
  pose proof (createAndAdd_returns d s i c t param m m1 (Some p) Hparam Hc) as [_ ->].
  split; [by destruct d |].
  intros Hb. revert Hc.
  destruct d; cbn [createAndAdd parametersOf] in *.
  - unfold createAndAddInput, bind at 1.
    destruct (createInputBySemantic s i c t param m) as [r0 m0| |] eqn:Hs; [|done..].
    apply createInputBySemantic_returns in Hs
      as [(_ & -> & ->)|[(-> & ->)|(a & -> & ->)]].
    + destruct param as [q|]; [|done].
      unfold bind. by rewrite addInputParameter_taken by auto.
    + done.
    + unfold bind, ret.
      destruct (addInputParameter (objectAt (nextAddr m) a) (allocated m))
        as [[] m2|e m2|] eqn:Ha; [|done..].
      intros [= <- _]. by rewrite addInputParameter_taken in Ha.
  - unfold createAndAddOutput, bind at 1.
    destruct (createOutputBySemantic s i c t param m) as [r0 m0| |] eqn:Hs; [|done..].
    apply createOutputBySemantic_returns in Hs
      as [(_ & -> & ->)|[(-> & ->)|(a & -> & ->)]].
    + destruct param as [q|]; [|done].
      unfold bind. by rewrite addOutputParameter_taken by auto.
    + done.
    + unfold bind, ret.
      destruct (addOutputParameter (objectAt (nextAddr m) a) (allocated m))
        as [[] m2|e m2|] eqn:Ha; [|done..].
      intros [= <- _]. by rewrite addOutputParameter_taken in Ha.
Qed.

(** A parameter that answers the request is found by content by every
    later request. *)
Lemma resolve_again_by_content (d : Direction) (semantic : Semantic) (index : Z)
    (content : Content) (type : GpuConstantType) (m m1 : Machine) (p : Param) :
  resolveParameter d semantic index content type m = Returned (Some p) m1 ->
  answers p content type ->
  getParameterByContent (parametersOf d (self m1)) content type = Ok (Some p).
Proof.
  intros Hcall Hans.
  assert (Hmade : forall param i,
            (forall q, param = Some q -> bindingTaken (parametersOf d (self m)) q) ->
            getParameterByContent (parametersOf d (self m)) content type = Ok None ->
            createAndAdd d semantic i content type param m = Returned (Some p) m1 ->
            getParameterByContent (parametersOf d (self m1)) content type = Ok (Some p)).
  { intros param i Hparam Hmiss Hc.
    apply createAndAdd_pushed in Hc as [-> _]; [|done].
    by apply getParameterByContent_answer. }
  rewrite resolve_paths in Hcall.
  destruct (getParameterByContent (parametersOf d (self m)) content type)
    as [[q|]|e] eqn:Hc; [| |done].
  - by injection Hcall as <- <-.
  - case_bool_decide as Hi; [by eapply (Hmade None) |].
    destruct (getParameterBySemantic (parametersOf d (self m)) semantic index)
      as [q|] eqn:Hq; [|by eapply (Hmade None)].
    pose proof (getParameterBySemantic_Some _ _ _ _ Hq) as (Hin & Hs & Hx).
    case_bool_decide as Hqc.
    + case_bool_decide as Hqt; [|done].
      injection Hcall as <- <-.
      (* the parameter at the index would have been found by content *)
      exfalso. destruct Hans as (Hk & _ & Ht).
      unfold getParameterByContent in Hc.
      fold (effectiveType content type) in Hc. rewrite Ht in Hc.
      rewrite bool_decide_eq_true_2 in Hc by done.
      injection Hc as Hnone. rewrite findByContent_None in Hnone.
      by apply (Hnone q).
    + eapply (Hmade (Some q)); [|done | done].
      intros ? [= <-]. by exists q.
Qed.

(** A parameter of unknown content is found again at its semantic and
    explicit index. *)
Lemma resolve_again_by_index (d : Direction) (semantic : Semantic) (index : Z)
    (type : GpuConstantType) (m m1 : Machine) (p : Param) :
  index <> -1 ->
  resolveParameter d semantic index SPC_UNKNOWN type m = Returned (Some p) m1 ->
  getSemantic p = semantic -> getIndex p = index ->
  getContent p = SPC_UNKNOWN -> getType p = type ->
  resolveParameter d semantic index SPC_UNKNOWN type m1 = Returned (Some p) m1.
Proof.
  intros Hi Hcall Hs Hx Hc Ht.
  assert (Hlook : forall l, getParameterByContent l SPC_UNKNOWN type
                            = if bool_decide (type = GCT_UNKNOWN)
                              then Raise cannotDerive else Ok None).
  { intros l. unfold getParameterByContent. by destruct (bool_decide (type = GCT_UNKNOWN)). }
  rewrite resolve_paths, Hlook in Hcall. rewrite resolve_paths, Hlook.
  destruct (bool_decide (type = GCT_UNKNOWN)); [done |].
  rewrite bool_decide_eq_false_2 in Hcall by done.
  rewrite bool_decide_eq_false_2 by done.
  assert (Hmade : forall param,
            (forall q, param = Some q -> bindingTaken (parametersOf d (self m)) q) ->
            createAndAdd d semantic index SPC_UNKNOWN type param m = Returned (Some p) m1 ->
            getParameterBySemantic (parametersOf d (self m1)) semantic index = Some p).
  { intros param Hparam Hmk.
    apply createAndAdd_pushed in Hmk as [-> Hfree]; [|done].
    apply getParameterBySemantic_last; [done | done |].
    rewrite <- Hs, <- Hx. by apply bindingTaken_lookup_None. }
  assert (Hfound : getParameterBySemantic (parametersOf d (self m1)) semantic index
                   = Some p).
  { destruct (getParameterBySemantic (parametersOf d (self m)) semantic index)
      as [q|] eqn:Hq; [|by apply (Hmade None)].
    pose proof (getParameterBySemantic_Some _ _ _ _ Hq) as (Hin & Hqs & Hqx).
    case_bool_decide as Hqc.
    - case_bool_decide as Hqt; [|done]. by injection Hcall as <- <-.
    - apply (Hmade (Some q)); [|done]. intros ? [= <-]. by exists q. }
  rewrite Hfound. by rewrite !bool_decide_eq_true_2.
Qed.

End AgainOutput.

(** X21: if a call of [resolveOutputParameter] returns a parameter that has
    the requested content, a known one, and the requested type (the derived
    one when the requested type is unknown), then the parameter is in the
    output list and every later call with that content and type, whatever
    its semantic and index, returns the very same object and changes
    nothing.  With the unknown content, a parameter returned for an
    explicit index is returned again by a later call with the same
    semantic, index and type, if it has them. *)
Theorem resolveOutput_again_same_instance `{env : Externals} :
  (forall semantic index content type m m1 p,
     resolveOutputParameter semantic index content type m = Returned (Some p) m1 ->
     answers p content type ->
     p ∈ mOutputParameters (self m1)
     /\ forall semantic' index',
          resolveOutputParameter semantic' index' content type m1 = Returned (Some p) m1)
  /\ (forall semantic index type m m1 p,
        index <> -1 ->
        resolveOutputParameter semantic index SPC_UNKNOWN type m = Returned (Some p) m1 ->
        getSemantic p = semantic -> getIndex p = index ->
        getContent p = SPC_UNKNOWN -> getType p = type ->
        resolveOutputParameter semantic index SPC_UNKNOWN type m1 = Returned (Some p) m1).
Proof.
  split.
  - intros semantic index content type m m1 p Hcall Hans.
    pose proof (resolve_again_by_content Output semantic index content type m m1 p
                  Hcall Hans) as Hfound.
    split; [by eapply (getParameterByContent_finds (mOutputParameters (self m1))) |].
    intros semantic' index'. by apply (resolve_found_by_content Output).
  - intros semantic index type m m1 p. apply (resolve_again_by_index Output).
Qed.

(** A texture coordinate resolved as an output on a new function, then
    asked for again as a color at index 7. *)
Lemma resolveOutput_again_same_instance_witness :
  resolveOutputParameter (env := canonicalExternals false)
    SPS_COLOR 7 (SPC_OTHER 0) GCT_FLOAT2
    (pushed OutputList
       (mkParameter 0 GCT_FLOAT2 "oTexcoord_0" SPS_TEXTURE_COORDINATES 0 (SPC_OTHER 0))
       (allocated (freshMachine "main" "entry" (FunctionTypeTag 0))))
  = Returned
      (Some (mkParameter 0 GCT_FLOAT2 "oTexcoord_0" SPS_TEXTURE_COORDINATES 0 (SPC_OTHER 0)))
      (pushed OutputList
         (mkParameter 0 GCT_FLOAT2 "oTexcoord_0" SPS_TEXTURE_COORDINATES 0 (SPC_OTHER 0))
         (allocated (freshMachine "main" "entry" (FunctionTypeTag 0)))).
Proof.
  apply (proj1 (resolveOutput_again_same_instance (env := canonicalExternals false))
           SPS_TEXTURE_COORDINATES (-1) (SPC_OTHER 0) GCT_FLOAT2
           (freshMachine "main" "entry" (FunctionTypeTag 0))).
  - reflexivity.
  - split; [discriminate |]. split; reflexivity.
Defined.

(** ** The unknown semantic at an index in use *)

(** X22: on a function reached by calls from a new one, when the lookup by
    content finds nothing and the list holds, at the unknown semantic and
    the requested explicit index, a parameter with another content, a
    request with the unknown semantic makes no parameter: the parameter
    found is handed to the add as it is, which throws the exception of a
    semantic and index in use, in the name of that parameter; nothing
    changes. *)
Theorem resolve_unknown_semantic_in_use `{env : Externals} (d : Direction)
    (cs : list Call) (name desc : string) (functionType : FunctionType) (m : Machine)
    (index : Z) (content : Content) (type : GpuConstantType) (q : Param) :
  run cs (freshMachine name desc functionType) = Some m ->
  index <> -1 ->
  missesByContent (parametersOf d (self m)) content type ->
  q ∈ parametersOf d (self m) ->
  getSemantic q = SPS_UNKNOWN -> getIndex q = index -> getContent q <> content ->
  resolveParameter d SPS_UNKNOWN index content type m
  = Thrown (equalSemantic d q (self m)) m.
Proof.
  intros Hrun Hi Hmiss Hq Hs Hx Hc.
  assert (Hfound : getParameterBySemantic (parametersOf d (self m)) SPS_UNKNOWN index
                   = Some q).
  { rewrite <- Hs, <- Hx. apply getParameterBySemantic_unique; [|done].
    pose proof (wellBound_run cs _ m (wellBound_fresh name desc functionType) Hrun)
      as [Hin Hout].
    by destruct d. }
  rewrite resolve_paths, Hmiss, Hfound.
  rewrite bool_decide_eq_false_2 by done. rewrite bool_decide_eq_false_2 by done.
  assert (Hb : bindingTaken (parametersOf d (self m)) q) by (by exists q).
  destruct d; cbn [createAndAdd parametersOf] in *.
  - unfold createAndAddInput, bind. simpl. by rewrite addInputParameter_taken.
  - unfold createAndAddOutput, bind. simpl. by rewrite addOutputParameter_taken.
Qed.

(** A parameter of the unknown semantic added as an input, then a request
    with the unknown semantic at its index for another content. *)
Lemma resolve_unknown_semantic_in_use_witness :
  resolveInputParameter (env := canonicalExternals false)
    SPS_UNKNOWN 0 (SPC_OTHER 2) GCT_FLOAT2
    (pushed InputList (mkParameter 5 GCT_FLOAT2 "custom" SPS_UNKNOWN 0 (SPC_OTHER 1))
       (freshMachine "main" "entry" (FunctionTypeTag 0)))
  = Thrown
      (equalSemantic Input (mkParameter 5 GCT_FLOAT2 "custom" SPS_UNKNOWN 0 (SPC_OTHER 1))
         (self (pushed InputList
                  (mkParameter 5 GCT_FLOAT2 "custom" SPS_UNKNOWN 0 (SPC_OTHER 1))
                  (freshMachine "main" "entry" (FunctionTypeTag 0)))))
      (pushed InputList (mkParameter 5 GCT_FLOAT2 "custom" SPS_UNKNOWN 0 (SPC_OTHER 1))
         (freshMachine "main" "entry" (FunctionTypeTag 0))).
Proof.
  apply (resolve_unknown_semantic_in_use (env := canonicalExternals false) Input
           [CallAddInputParameter
              (mkParameter 5 GCT_FLOAT2 "custom" SPS_UNKNOWN 0 (SPC_OTHER 1))]
           "main" "entry" (FunctionTypeTag 0)
           (pushed InputList (mkParameter 5 GCT_FLOAT2 "custom" SPS_UNKNOWN 0 (SPC_OTHER 1))
              (freshMachine "main" "entry" (FunctionTypeTag 0)))
           0 (SPC_OTHER 2) GCT_FLOAT2
           (mkParameter 5 GCT_FLOAT2 "custom" SPS_UNKNOWN 0 (SPC_OTHER 1))).
  - reflexivity.
  - discriminate.
  - reflexivity.
  - simpl. set_solver.
  - reflexivity.
  - reflexivity.
  - discriminate.
Defined.

(** ** Parameters stay where they are *)

#[global] Instance parametersStay_preorder : PreOrder parametersStay.
Proof.
  split.
  - intros m. by repeat split.
  - intros m1 m2 m3 (Hi & Ho & Hl) (Hi' & Ho' & Hl').
    repeat split; by etrans.
Qed.

Lemma parametersStay_same (m : Machine) (f : Function) (n : nat) :
  mInputParameters f = mInputParameters (self m) ->
  mOutputParameters f = mOutputParameters (self m) ->
  mLocalParameters f = mLocalParameters (self m) ->
  parametersStay m (mkMachine n f).
Proof. intros Hi Ho Hl. unfold parametersStay. simpl. by rewrite Hi, Ho, Hl. Qed.

Lemma parametersStay_pushed (which : WhichList) (p : Param) (m : Machine) :
  parametersStay m (pushed which p m).
Proof.
  destruct which; unfold parametersStay; simpl;
    repeat split; first [done | by apply prefix_app_r].
Qed.

(** A call that does not delete parameters leaves every parameter
    registered, at its position. *)
Lemma parametersStay_call `{env : Externals} (c : Call) :
  notDeleting c -> steps parametersStay (call c).
Proof.
  intros Hc.
  assert (Halloc : forall m, parametersStay m (allocated m)) by (by intros m).
  assert (Hkept : changes c = Some AtomInstances \/ changes c = None ->
                  steps parametersStay (call c)).
  { intros Hch m. pose proof (keptBut_call c m) as Hk.
    destruct (call c m) as [a m'|e m'|]; [| |done];
      destruct Hk as (_ & _ & Hk);
      (repeat split;
       [rewrite (Hk InputParameters) | rewrite (Hk OutputParameters)
        | rewrite (Hk LocalParameters)]; try done;
       destruct Hch as [-> | ->]; done). }
  destruct c; try done; try (apply Hkept; cbn [changes]; tauto); cbn [call].
  - steps_structure. apply steps_resolveInputParameter; [done |].
    apply steps_addInputParameter, parametersStay_pushed.
  - steps_structure. apply steps_resolveOutputParameter; [done |].
    apply steps_addOutputParameter, parametersStay_pushed.
  - steps_structure. apply steps_resolveLocalParameter_name; [done |].
    intros p m. apply parametersStay_pushed.
  - steps_structure. apply steps_resolveLocalParameter_content; [done |].
    intros p m. apply parametersStay_pushed.
  - apply steps_addInputParameter, parametersStay_pushed.
  - apply steps_addOutputParameter, parametersStay_pushed.
Qed.

(** X23: as long as none of the four delete functions is called, every
    parameter stays registered at its position: after any calls of the
    other public member functions, returning or throwing, the input list,
    the output list and the local list of before are the front parts of the
    lists of after.  New parameters come behind, and a pointer once returned
    by a resolve function remains a member of its list. *)
Theorem parameters_stay_until_deleted `{env : Externals} (cs : list Call)
    (m m' : Machine) :
  Forall notDeleting cs ->
  run cs m = Some m' ->
  parametersStay m m'
  /\ (forall d p, p ∈ parametersOf d (self m) -> p ∈ parametersOf d (self m'))
  /\ (forall d i p, parametersOf d (self m) !! i = Some p ->
                    parametersOf d (self m') !! i = Some p).
Proof.
  intros Hcs Hrun.
  assert (Hstay : parametersStay m m').
  { revert m Hcs Hrun. induction cs as [|c cs IH]; intros m Hcs Hrun; simpl in Hrun.
    - by simplify_eq.
    - apply Forall_cons in Hcs as [Hc Hcs].
      pose proof (parametersStay_call c Hc m) as Hstep.
      destruct (call c m) as [[] m1|e m1|]; simpl in Hrun; [| |done];
        (etrans; [exact Hstep | by apply IH]). }
  split; [done |].
  destruct Hstay as (Hi & Ho & _).
  assert (Hd : forall d, parametersOf d (self m) `prefix_of` parametersOf d (self m')).
  { by intros []. }
  split.
  - intros d p Hp. destruct (Hd d) as [tail ->]. set_solver.
  - intros d i p Hp. by eapply prefix_lookup_Some.
Qed.

(** A texture coordinate resolved as an input, followed by a request that
    throws and by an assignment. *)
Lemma parameters_stay_until_deleted_witness :
  exists m',
    run (env := canonicalExternals false)
      [CallResolveInputParameter SPS_TEXTURE_COORDINATES 0 (SPC_OTHER 1) GCT_FLOAT2;
       CallAddAtomAssign None None 0]
      (pushed InputList
         (mkParameter 0 GCT_FLOAT2 "iTexcoord_0" SPS_TEXTURE_COORDINATES 0 (SPC_OTHER 0))
         (allocated (freshMachine "main" "entry" (FunctionTypeTag 0))))
    = Some m'
    /\ mkParameter 0 GCT_FLOAT2 "iTexcoord_0" SPS_TEXTURE_COORDINATES 0 (SPC_OTHER 0)
       ∈ mInputParameters (self m').
Proof.
  eexists. split; [reflexivity |].
  destruct (parameters_stay_until_deleted (env := canonicalExternals false)
              [CallResolveInputParameter SPS_TEXTURE_COORDINATES 0 (SPC_OTHER 1) GCT_FLOAT2;
               CallAddAtomAssign None None 0]
              (pushed InputList
                 (mkParameter 0 GCT_FLOAT2 "iTexcoord_0" SPS_TEXTURE_COORDINATES 0
                    (SPC_OTHER 0))
                 (allocated (freshMachine "main" "entry" (FunctionTypeTag 0))))
              _ ltac:(repeat constructor) eq_refl)
    as (_ & Hin & _).
  apply (Hin Input). simpl. set_solver.
Defined.
